(** * sougou-wechat: a shallow embedding of the crawl pipeline and its store

    The development follows [sougou_crawl.py] (class [WeChatCrawler]) and
    [sqlite_storage.py] (class [SQLiteArticleStorage]).  Python text is a
    list of Unicode code points; objects that the code mutates in place
    live in an explicit heap; everything the program cannot control (the
    network, the browser, the file system, the clock, the thread pool's
    scheduling) is an abstract world consulted through the operations of
    an environment. *)

From Stdlib Require Import ZArith NArith Lia Bool Ascii String.
From stdpp Require Import base option list gmap strings.

Local Open Scope N_scope.

(** ** Text *)

(** A Python [str]: a sequence of code points. *)
Abbreviation str := (list N).

(** An ASCII literal of the source, as a [str]. *)
Definition lit (s : string) : str :=
  map N_of_ascii (list_ascii_of_string s).

Definition quote : N := 39.      (* ' *)
Definition dquote : N := 34.     (* the double quote *)

(** [str.isspace] of one code point: the white space of [str.strip()]. *)
Definition is_space (c : N) : bool :=
  ((9 <=? c) && (c <=? 13)) || ((28 <=? c) && (c <=? 32))
  || (c =? 133) || (c =? 160) || (c =? 5760)
  || ((8192 <=? c) && (c <=? 8202)) || (c =? 8232) || (c =? 8233)
  || (c =? 8239) || (c =? 8287) || (c =? 12288).

Fixpoint lstrip (s : str) : str :=
  match s with
  | c :: s' => if is_space c then lstrip s' else s
  | [] => []
  end.

Definition rstrip (s : str) : str := rev (lstrip (rev s)).

(** [s.strip()] *)
Definition strip (s : str) : str := rstrip (lstrip s).

(** [s.startswith(p)], returning what follows the prefix. *)
Fixpoint strip_prefix (p s : str) : option str :=
  match p, s with
  | [], _ => Some s
  | c :: p', d :: s' => if c =? d then strip_prefix p' s' else None
  | _ :: _, [] => None
  end.

Definition startswith (s p : str) : bool :=
  match strip_prefix p s with Some _ => true | None => false end.

(** The longest prefix whose characters satisfy [f], and the rest: what a
    greedy character-class repetition consumes. *)
Fixpoint span (f : N -> bool) (s : str) : str * str :=
  match s with
  | c :: s' => if f c then let (a, b) := span f s' in (c :: a, b) else ([], s)
  | [] => ([], [])
  end.

(** [p in s] *)
Fixpoint contains (s p : str) : bool :=
  startswith s p || match s with [] => false | _ :: s' => contains s' p end.

(** ** UrlResolver: [extract_real_url] *)

Definition url_frag_open : str := Eval vm_compute in lit "url += '".
Definition url_frag_close : str := Eval vm_compute in lit "';".

(** One attempt of [url \+= '([^']+)';] anchored at the head of [s]: group 1
    and the length of the whole match.  The class [[^']+] is greedy and the
    next pattern character is the quote it excludes, so giving characters
    back never helps: the group is the whole run up to the next quote. *)
Definition match_url_fragment (s : str) : option (str * nat) :=
  match strip_prefix url_frag_open s with
  | Some r =>
      let (frag, r') := span (fun c => negb (c =? quote)) r in
      match frag with
      | [] => None
      | _ :: _ =>
          match strip_prefix url_frag_close r' with
          | Some _ =>
              Some (frag, (length url_frag_open + length frag
                           + length url_frag_close)%nat)
          | None => None
          end
      end
  | None => None
  end.

(** [re.findall(url_pattern, s)]: the scan tries every start position from
    left to right and resumes after the end of a match; [skip] counts the
    characters of the last match that are still to be passed over. *)
Fixpoint findall_from (skip : nat) (s : str) : list str :=
  match s with
  | [] => []
  | _ :: s' =>
      match skip with
      | S k => findall_from k s'
      | O =>
          match match_url_fragment s with
          | Some (frag, n) => frag :: findall_from (n - 1) s'
          | None => findall_from 0 s'
          end
      end
  end.

Definition findall_url_fragments (s : str) : list str := findall_from 0 s.

Definition full_url_prefix : str := Eval vm_compute in lit "https://mp.weixin.qq.com/s?".

Definition not_a_quote (c : N) : bool := negb (c =? dquote) && negb (c =? quote).

(** One attempt of the pattern [full_url_pattern] (the literal prefix, then
    a greedy run of characters that are neither kind of quote) at the head
    of [s]: [group(0)]. *)
Definition match_full_url (s : str) : option str :=
  match strip_prefix full_url_prefix s with
  | Some r => Some (full_url_prefix ++ fst (span not_a_quote r))
  | None => None
  end.

(** [re.search(full_url_pattern, s)] *)
Fixpoint search_full_url (s : str) : option str :=
  match match_full_url s with
  | Some m => Some m
  | None => match s with [] => None | _ :: s' => search_full_url s' end
  end.

Definition extract_real_url (response_text : str) : option str :=
  let matches := findall_url_fragments response_text in
  match matches with
  | _ :: _ => Some (concat matches)
  | [] =>
      match search_full_url response_text with
      | Some full_match => Some (strip full_match)
      | None => None
      end
  end.

(** *** The resolver as the specification words it *)

(** [s] begins with one occurrence [url += 'f';] and goes on with [rest]. *)
Definition fragment_at (s f rest : str) : Prop :=
  s = url_frag_open ++ f ++ url_frag_close ++ rest ∧ f ≠ [] ∧ quote ∉ f.

(** No occurrence starts at a position inside [pre], when [pre] is followed
    by [t]. *)
Definition no_fragment_within (pre t : str) : Prop :=
  ∀ p1 p2 f r, pre = p1 ++ p2 → p2 ≠ [] → ¬ fragment_at (p2 ++ t) f r.

(** The fragments of the successive occurrences of a body, in order of
    appearance; occurrences do not overlap and each is the first one after
    the previous. *)
Inductive occurrences : str → list str → Prop :=
  | occ_done s :
      no_fragment_within s [] → occurrences s []
  | occ_next pre f rest fs :
      no_fragment_within pre (url_frag_open ++ f ++ url_frag_close ++ rest) →
      f ≠ [] → quote ∉ f →
      occurrences rest fs →
      occurrences (pre ++ url_frag_open ++ f ++ url_frag_close ++ rest) (f :: fs).

(** [m] is the first substring of [s] matching the literal article pattern:
    the prefix followed by every character up to the next quote. *)
Definition literal_match (s m : str) : Prop :=
  ∃ pre run rest,
    s = pre ++ full_url_prefix ++ run ++ rest
    ∧ m = full_url_prefix ++ run
    ∧ (∀ p1 p2, pre = p1 ++ p2 → p2 ≠ [] →
         startswith (p2 ++ full_url_prefix ++ run ++ rest) full_url_prefix = false)
    ∧ Forall (λ c, not_a_quote c = true) run
    ∧ match rest with [] => True | c :: _ => not_a_quote c = false end.

Definition no_literal_match (s : str) : Prop :=
  ∀ p1 p2, s = p1 ++ p2 → startswith p2 full_url_prefix = false.

(** ** Data model *)

(** [WeChatArticle], the dataclass of one discovered article. *)
Record WeChatArticle := {
  title : str;
  summary : str;
  source : str;
  publish_time : str;
  address : str;
  sogou_url : str;
  real_url : str;
  crawl_time : str;
  success : bool;
  content : str;
  content_fetched : bool;
}.

(** [WeChatArticle()]: every field at its default. *)
Definition new_article : WeChatArticle :=
  {| title := []; summary := []; source := []; publish_time := [];
     address := []; sogou_url := []; real_url := []; crawl_time := [];
     success := false; content := []; content_fetched := false |}.

(** Python truth of a string. *)
Definition nonempty (s : str) : bool :=
  match s with [] => false | _ :: _ => true end.

(** A reading of the clock, through the three formats the code asks for. *)
Record datetime := {
  isoformat : str;            (* .isoformat() *)
  strftime_date : str;        (* .strftime('%Y-%m-%d') *)
  strftime_seconds : str;     (* .strftime('%Y-%m-%d %H:%M:%S') *)
}.

(** An [Exception] raised by a library call: only its text matters. *)
Inductive res (A : Type) :=
  | Ok (a : A)
  | Err (msg : str).
Arguments Ok {A} a.
Arguments Err {A} msg.

(** ** SearchResultParser: the listing page *)

(** A tag as the parser reads it: the strings [get_text] joins, and the
    [href] attribute. *)
Record element := {
  strings : list str;
  href : option str;
}.

(** One [li] of [ul.news-list], through the selections the parser makes. *)
Record item := {
  sel_h3_a : option element;          (* item.select_one('h3 a') *)
  sel_h3 : option element;            (* item.select_one('h3') *)
  sel_p : list element;               (* item.select('p') *)
  sel_source : option element;        (* 'div.s-p span.all-time-y2' *)
  sel_time_script : option element;   (* 'div.s-p span.s2 script' *)
}.

(** [e.get_text(strip=True)]: every string stripped, the empty ones
    dropped, the rest joined with the empty separator. *)
Definition get_text_strip (e : element) : str :=
  concat (List.filter nonempty (map strip (strings e))).

(** [e.get_text()] *)
Definition get_text (e : element) : str := concat (strings e).

Fixpoint search (m : str → bool) (s : str) : bool :=
  m s || match s with [] => false | _ :: s' => search m s' end.

Definition hyphen : N := 45.
Definition platform_name : str := [24494; 20449; 20844; 20247; 24179; 21488].
Definition today_word : str := [20170; 26085].
Definition yesterday_word : str := [26152; 26085].
Definition hours_ago : str := [23567; 26102; 21069].
Definition minutes_ago : str := [20998; 38047; 21069].
Definition ellipsis : str := Eval vm_compute in lit "...".
Definition sogou_origin : str := Eval vm_compute in lit "https://weixin.sogou.com".
Definition slash : N := 47.
Definition time_convert_open : str := Eval vm_compute in lit "timeConvert('".
Definition time_convert_close : str := Eval vm_compute in lit "')".

Section Parser.
(** The class [\d] of Python's [re] on text (the Unicode decimal digits),
    and [datetime.fromtimestamp(int(digits)).strftime(...)], which depends
    on the local time zone and raises on a value out of range. *)
Variable is_digit : N → bool.
Variable format_timestamp : str → res str.

(** [\d{4}-\d{1,2}-\d{1,2}] at the head of [s]. *)
Definition match_date (s : str) : bool :=
  match s with
  | d1 :: d2 :: d3 :: d4 :: h :: m1 :: r =>
      is_digit d1 && is_digit d2 && is_digit d3 && is_digit d4
      && (h =? hyphen) && is_digit m1
      && (match r with
          | m2 :: h2 :: e :: _ => is_digit m2 && (h2 =? hyphen) && is_digit e
          | _ => false
          end
          || match r with
             | h2 :: e :: _ => (h2 =? hyphen) && is_digit e
             | _ => false
             end)
  | _ => false
  end.

(** [\d+] followed by the literal [word], at the head of [s]. *)
Fixpoint match_digits_then (word s : str) : bool :=
  match s with
  | c :: s' => is_digit c && (startswith s' word || match_digits_then word s')
  | [] => false
  end.

(** [今日|昨日|\d+小时前|\d+分钟前] at the head of [s]. *)
Definition match_relative_time (s : str) : bool :=
  startswith s today_word || startswith s yesterday_word
  || match_digits_then hours_ago s || match_digits_then minutes_ago s.

(** [(\d+)] followed by [close] at the head of [s]: the group, the longest
    run of digits first. *)
Fixpoint match_digits_group (close s : str) : option str :=
  match s with
  | c :: s' =>
      if is_digit c then
        match match_digits_group close s' with
        | Some g => Some (c :: g)
        | None => if startswith s' close then Some [c] else None
        end
      else None
  | [] => None
  end.

(** [re.search(r'timeConvert\(\'(\d+)\'\)', s)]: group 1 of the first match. *)
Fixpoint search_time_convert (s : str) : option str :=
  match
    match strip_prefix time_convert_open s with
    | Some r => match_digits_group time_convert_close r
    | None => None
    end
  with
  | Some g => Some g
  | None => match s with [] => None | _ :: s' => search_time_convert s' end
  end.

(** Step 1 of the loop body: the title of an item. *)
Definition item_title (it : item) : str :=
  match sel_h3_a it with
  | Some title_elem => get_text_strip title_elem
  | None =>
      match sel_h3 it with
      | Some title_elem => get_text_strip title_elem
      | None => []
      end
  end.

(** The test a paragraph passes to become the summary. *)
Definition summary_candidate (text : str) : bool :=
  (20 <? length text)%nat
  && negb (search match_date text)
  && negb (search match_relative_time text)
  && negb (contains text platform_name).

(** Step 2: the first paragraph that passes, cut at 300 characters. *)
Fixpoint item_summary (summary_elems : list element) : str :=
  match summary_elems with
  | [] => []
  | p_elem :: rest =>
      let text := get_text_strip p_elem in
      if summary_candidate text then
        if (300 <? length text)%nat then take 300 text ++ ellipsis else text
      else item_summary rest
  end.

(** Step 3: the redirect link. *)
Definition item_sogou_url (it : item) : str :=
  match sel_h3_a it with
  | Some link_elem =>
      let href := default [] (href link_elem) in
      if nonempty href then
        if startswith href [slash] then sogou_origin ++ href else href
      else []
  | None => []
  end.

(** Step 4: the publisher. *)
Definition item_source (it : item) : str :=
  match sel_source it with
  | Some source_elem =>
      let source_text := get_text_strip source_elem in
      if nonempty source_text && negb (bool_decide (source_text = platform_name))
      then source_text else []
  | None => []
  end.

(** Step 5: the publish time; the conversion may raise. *)
Definition item_publish_time (it : item) : res str :=
  match sel_time_script it with
  | Some time_script_elem =>
      match search_time_convert (get_text time_script_elem) with
      | Some digits => format_timestamp digits
      | None => Ok []
      end
  | None => Ok []
  end.

(** The body of the loop of [_parse_search_results] for one item:
    [Ok None] is [continue], [Ok (Some a)] the article appended, [Err] an
    exception leaving the parser. *)
Definition parse_item (now : datetime) (it : item) : res (option WeChatArticle) :=
  let title := item_title it in
  if negb (nonempty title) then Ok None
  else
    match item_publish_time it with
    | Err msg => Err msg
    | Ok publish_time =>
        Ok (Some {| title := title;
                    summary := item_summary (sel_p it);
                    source := item_source it;
                    publish_time := publish_time;
                    address := [];
                    sogou_url := item_sogou_url it;
                    real_url := [];
                    crawl_time := strftime_seconds now;
                    success := false;
                    content := [];
                    content_fetched := false |})
    end.
End Parser.

(** ** ContentExtractor: [extract_article_text] *)

(** What BeautifulSoup finds in an article page once [script] and [style]
    are removed: for each of the six content selectors in their order, the
    text of the element it selects if there is one
    ([get_text(separator='\n', strip=True)]), and the same for [body]. *)
Record article_page := {
  selected_text : list (option str);
  body_text : option str;
}.

Definition newline : N := 10.

(** [s.split('\n')] *)
Fixpoint split_lines (s : str) : list str :=
  match s with
  | [] => [[]]
  | c :: s' =>
      match split_lines s' with
      | line :: lines =>
          if c =? newline then [] :: line :: lines else (c :: line) :: lines
      | [] => [[c]]
      end
  end.

(** ['\n'.join(lines)] *)
Fixpoint join_lines (lines : list str) : str :=
  match lines with
  | [] => []
  | [line] => line
  | line :: rest => line ++ newline :: join_lines rest
  end.

(** The text of the first selector that selects an element. *)
Fixpoint first_selected (texts : list (option str)) : str :=
  match texts with
  | [] => []
  | Some content_text :: _ => content_text
  | None :: rest => first_selected rest
  end.

(** The pair [(clean_content, address_text)] the function returns. *)
Definition extract_article_text (soup : article_page) : str * str :=
  let content_text := first_selected (selected_text soup) in
  let content_text :=
    if nonempty content_text then content_text
    else default [] (body_text soup) in
  let lines :=
    List.filter nonempty (map strip (split_lines content_text)) in
  (join_lines lines, []).

(** ** The world outside the program *)

(** A cookie as the browser hands it over. *)
Record cookie := {
  cookie_name : str;
  cookie_value : str;
  cookie_domain : option str;
  cookie_path : option str;
}.

(** A cookie jar of a [requests] session: values by domain, path and name. *)
Abbreviation cookiejar := (gmap (str * str * str) str).

Definition default_domain : str := Eval vm_compute in lit ".sogou.com".
Definition default_path : str := [slash].

(** [jar.set(c['name'], c['value'], domain=c.get('domain', '.sogou.com'),
    path=c.get('path', '/'))] for every cookie of the list. *)
Definition set_cookies (cookies : list cookie) (jar : cookiejar) : cookiejar :=
  foldl (λ j c,
           <[(default default_domain (cookie_domain c),
              default default_path (cookie_path c),
              cookie_name c) := cookie_value c]> j)
        jar cookies.

(** An HTTP response: the status [raise_for_status] looks at, and the text. *)
Record response := {
  status_code : N;
  text : str;
}.

(** The requests the crawler sends. *)
Inductive request :=
  | GetHome                                     (* https://weixin.sogou.com/ *)
  | GetSearch (query : str) (page : Z)         (* /weixin with the params *)
  | GetUrl (url : str).                         (* a redirect or article link *)

(** How long a [time.sleep] lasts: a number of seconds or
    [random.uniform(lo, hi)]. *)
Inductive pause :=
  | Seconds (n : nat)
  | Uniform (lo hi : nat).

(** Everything the program consults and cannot control.  [World] is the
    state of the outside; each operation reads and advances it.  A request
    either answers or fails with [requests.RequestException] (its [Err]),
    the failure the call sites handle; the browser and the file system fail
    with some other [Exception]. *)
Class Env := {
  World : Type;
  (* libraries: pure functions of their arguments *)
  is_digit : N → bool;
  format_timestamp : str → res str;
  md5_hexdigest : str → str;                       (* of the UTF-8 encoding *)
  select_news_items : str → list item;             (* soup.select('ul.news-list li') *)
  article_soup : str → res article_page;           (* BeautifulSoup(html), selections *)
  (* network *)
  http_get : bool → cookiejar → request → World → res response * World;
  (* clock, sleeping, thread pool *)
  clock_now : World → datetime * World;
  sleeping : pause → World → World;
  pool_pick : nat → nat → World → nat * World;     (* workers, pending tasks *)
  (* browser automation *)
  pw_start : World → res unit * World;             (* sync_playwright().start() *)
  pw_launch : World → res unit * World;            (* chromium.launch() *)
  pw_open_login : str → World → res unit * World;  (* new_page() ... login_button.click() *)
  pw_wait_qrcode : nat → World → res unit * World; (* qr_locator.wait_for(timeout=5000) *)
  pw_cookies : World → res (list cookie) * World;  (* page.context.cookies() *)
  pw_login_button_visible : World → res bool * World;
  pw_page_close : World → res unit * World;
  (* files and database *)
  fs_cookie_exists : World → bool * World;         (* os.path.exists(login_cookie_path) *)
  fs_cookie_remove : World → res unit * World;     (* os.remove(login_cookie_path) *)
  fs_cookie_write : list cookie → World → res unit * World;
  fs_config_lines : World → res (option (list str)) * World;
  sqlite_transaction : World → res unit * World;   (* connect, PRAGMAs, commit *)
}.

(** ** The store and the crawler object *)

(** A value of the dictionary handed to the store. *)
Inductive pyval :=
  | VStr (s : str)
  | VBool (b : bool).

(** A row of the table [articles]: the key under the UNIQUE constraint and
    the other bound values, in the order of the INSERT. *)
Record row := {
  object_key : str;
  row_values : list pyval;
}.

(** What is observed of a run, for the statements only: the program never
    reads the trace. *)
Inductive event :=
  | EvSleep (p : pause)
  | EvHandshake                              (* playwright_login entered *)
  | EvPoll                                   (* one tick of the login poll *)
  | EvCrawl (query : str) (page : Z)         (* crawl_and_extract entered *)
  | EvResolve (l : nat) (real_url : option str)
  | EvFetch (l : nat) (ok : bool)
  | EvSave (l : nat) (a : WeChatArticle).    (* save_article_to_storage entered *)

(** The crawler ([self]), the articles it has created, its store, and the
    world. Articles are objects: an article is named by its location in
    [heap] and lists of articles are lists of locations. *)
Record State `{Env} := {
  use_anti_crawler : bool;
  keyword : str;
  is_logged_in : bool;
  playwright : bool;                  (* self.playwright is set *)
  browser : bool;                     (* self.browser is set *)
  login_session : cookiejar;          (* self.login_session.cookies *)
  anti_crawler_session : cookiejar;   (* self.anti_crawler_session.session.cookies *)
  heap : gmap nat WeChatArticle;
  db : list row;                      (* the table articles *)
  trace : list event;
  world : World;
}.

(** What leaves a call by [raise]: [sys.exit] raises [SystemExit], which is
    not an [Exception]. *)
Inductive exn :=
  | Exception (msg : str)
  | RequestException (msg : str)
  | SystemExit (code : Z).

Inductive outcome (A : Type) :=
  | Ret (a : A)
  | Raise (e : exn).
Arguments Ret {A} a.
Arguments Raise {A} e.

(** [isinstance(e, Exception)] *)
Definition is_Exception (e : exn) : bool :=
  match e with SystemExit _ => false | _ => true end.

(** [isinstance(e, requests.RequestException)] *)
Definition is_RequestException (e : exn) : bool :=
  match e with RequestException _ => true | _ => false end.

(** [str(e)] *)
Definition exn_text (e : exn) : str :=
  match e with
  | Exception msg | RequestException msg => msg
  | SystemExit code => []
  end.

(** ** Stateful code: state passing with exceptions *)

Section Crawler.
Context `{Env}.

Definition M (A : Type) : Type := State → outcome A * State.

Definition ret {A} (a : A) : M A := λ s, (Ret a, s).

Definition raise {A} (e : exn) : M A := λ s, (Raise e, s).

Definition bind {A B} (m : M A) (k : A → M B) : M B :=
  λ s, match m s with
       | (Ret a, s') => k a s'
       | (Raise e, s') => (Raise e, s')
       end.

Notation "x <- m ;; k" := (bind m (λ x, k))
  (at level 100, m at next level, right associativity).
Notation "m ;;; k" := (bind m (λ _, k))
  (at level 100, right associativity).

(** [try: m except C as e: handler e], for the class [C] that [catches]
    recognises. *)
Definition try_except {A} (catches : exn → bool) (m : M A) (handler : exn → M A)
  : M A :=
  λ s, match m s with
       | (Ret a, s') => (Ret a, s')
       | (Raise e, s') => if catches e then handler e s' else (Raise e, s')
       end.

(** A bare [except:] catches everything that is raised. *)
Definition catches_all (e : exn) : bool := true.

Definition get_state : M State := λ s, (Ret s, s).

Definition with_is_logged_in (b : bool) (s : State) : State :=
  {| use_anti_crawler := use_anti_crawler s; keyword := keyword s;
     is_logged_in := b; playwright := playwright s; browser := browser s;
     login_session := login_session s;
     anti_crawler_session := anti_crawler_session s; heap := heap s;
     db := db s; trace := trace s; world := world s |}.

Definition with_playwright (b : bool) (s : State) : State :=
  {| use_anti_crawler := use_anti_crawler s; keyword := keyword s;
     is_logged_in := is_logged_in s; playwright := b; browser := browser s;
     login_session := login_session s;
     anti_crawler_session := anti_crawler_session s; heap := heap s;
     db := db s; trace := trace s; world := world s |}.

Definition with_browser (b : bool) (s : State) : State :=
  {| use_anti_crawler := use_anti_crawler s; keyword := keyword s;
     is_logged_in := is_logged_in s; playwright := playwright s;
     browser := b; login_session := login_session s;
     anti_crawler_session := anti_crawler_session s; heap := heap s;
     db := db s; trace := trace s; world := world s |}.

Definition with_login_session (j : cookiejar) (s : State) : State :=
  {| use_anti_crawler := use_anti_crawler s; keyword := keyword s;
     is_logged_in := is_logged_in s; playwright := playwright s;
     browser := browser s; login_session := j;
     anti_crawler_session := anti_crawler_session s; heap := heap s;
     db := db s; trace := trace s; world := world s |}.

Definition with_anti_crawler_session (j : cookiejar) (s : State) : State :=
  {| use_anti_crawler := use_anti_crawler s; keyword := keyword s;
     is_logged_in := is_logged_in s; playwright := playwright s;
     browser := browser s; login_session := login_session s;
     anti_crawler_session := j; heap := heap s; db := db s;
     trace := trace s; world := world s |}.

Definition with_heap (h : gmap nat WeChatArticle) (s : State) : State :=
  {| use_anti_crawler := use_anti_crawler s; keyword := keyword s;
     is_logged_in := is_logged_in s; playwright := playwright s;
     browser := browser s; login_session := login_session s;
     anti_crawler_session := anti_crawler_session s; heap := h; db := db s;
     trace := trace s; world := world s |}.

Definition with_db (d : list row) (s : State) : State :=
  {| use_anti_crawler := use_anti_crawler s; keyword := keyword s;
     is_logged_in := is_logged_in s; playwright := playwright s;
     browser := browser s; login_session := login_session s;
     anti_crawler_session := anti_crawler_session s; heap := heap s;
     db := d; trace := trace s; world := world s |}.

Definition with_world (w : World) (s : State) : State :=
  {| use_anti_crawler := use_anti_crawler s; keyword := keyword s;
     is_logged_in := is_logged_in s; playwright := playwright s;
     browser := browser s; login_session := login_session s;
     anti_crawler_session := anti_crawler_session s; heap := heap s;
     db := db s; trace := trace s; world := w |}.

(** The trace grows at its end. *)
Definition with_events (evs : list event) (s : State) : State :=
  {| use_anti_crawler := use_anti_crawler s; keyword := keyword s;
     is_logged_in := is_logged_in s; playwright := playwright s;
     browser := browser s; login_session := login_session s;
     anti_crawler_session := anti_crawler_session s; heap := heap s;
     db := db s; trace := trace s ++ evs; world := world s |}.

Definition modify (f : State → State) : M unit := λ s, (Ret (), f s).

Definition set_is_logged_in (b : bool) : M unit := modify (with_is_logged_in b).
Definition set_playwright (b : bool) : M unit := modify (with_playwright b).
Definition set_browser (b : bool) : M unit := modify (with_browser b).
Definition set_login_session (j : cookiejar) : M unit := modify (with_login_session j).
Definition set_anti_crawler_session (j : cookiejar) : M unit := modify (with_anti_crawler_session j).
Definition set_heap (h : gmap nat WeChatArticle) : M unit := modify (with_heap h).
Definition set_db (d : list row) : M unit := modify (with_db d).
Definition set_world (w : World) : M unit := modify (with_world w).
Definition emit (e : event) : M unit := modify (with_events [e]).

(** An operation of the world that cannot fail. *)
Definition ask {A} (op : World → A * World) : M A :=
  s <- get_state ;;
  let (a, w) := op (world s) in
  set_world w ;;; ret a.

(** An operation of the world that may raise: [Err] becomes the exception
    [as_exn] builds. *)
Definition call {A} (as_exn : str → exn) (op : World → res A * World) : M A :=
  s <- get_state ;;
  let (r, w) := op (world s) in
  set_world w ;;;
  match r with
  | Ok a => ret a
  | Err msg => raise (as_exn msg)
  end.

(** A pure library call that may raise. *)
Definition lift {A} (r : res A) : M A :=
  match r with
  | Ok a => ret a
  | Err msg => raise (Exception msg)
  end.

(** [time.sleep(p)] *)
Definition sleep (p : pause) : M unit :=
  emit (EvSleep p) ;;;
  s <- get_state ;;
  set_world (sleeping p (world s)).

(** The article at a location; every location the code holds is one it
    was given by [alloc]. *)
Definition read (l : nat) : M WeChatArticle :=
  s <- get_state ;;
  match heap s !! l with
  | Some a => ret a
  | None => raise (Exception [])
  end.

(** Assignment to attributes of the article at [l]. *)
Definition update (l : nat) (f : WeChatArticle → WeChatArticle) : M unit :=
  a <- read l ;;
  s <- get_state ;;
  set_heap (<[l := f a]> (heap s)).

(** A new object. *)
Definition alloc (a : WeChatArticle) : M nat :=
  s <- get_state ;;
  let l := fresh (dom (heap s)) in
  set_heap (<[l := a]> (heap s)) ;;; ret l.
End Crawler.

Notation "x <- m ;; k" := (bind m (λ x, k))
  (at level 100, m at next level, right associativity).
Notation "m ;;; k" := (bind m (λ _, k))
  (at level 100, right associativity).

(** ** SessionManager: the login handshake *)

(** [c.lower()] as far as the substring tests on ASCII markers can tell:
    the ASCII capitals, and the two other code points whose lower case
    contains an ASCII letter; any other code point lowers to text outside
    ASCII, which stands for itself here. *)
Definition lower_char (c : N) : str :=
  if (65 <=? c) && (c <=? 90) then [c + 32]
  else if c =? 304 then [105; 775]
  else if c =? 8490 then [107]
  else [c].

Definition lower (s : str) : str := concat (map lower_char s).

(** The substrings of a cookie name that mark a logged-in session. *)
Definition login_markers : list str :=
  Eval vm_compute in [lit "suid"; lit "sct"; lit "ssuid"; lit "login"].

Definition is_login_cookie (c : cookie) : bool :=
  existsb (λ key, contains (lower (cookie_name c)) key) login_markers.

Section Session.
Context `{Env}.

Definition init_playwright : M unit :=
  s <- get_state ;;
  if playwright s then ret ()
  else
    call Exception pw_start ;;;
    set_playwright true ;;;
    call Exception pw_launch ;;;
    set_browser true.

Definition save_login_cookies (cookies : list cookie) : M unit :=
  try_except is_Exception
    (call Exception (fs_cookie_write cookies) ;;;
     s <- get_state ;;
     set_login_session (set_cookies cookies (login_session s)) ;;;
     set_is_logged_in true)
    (λ e, ret ()).

(** The four locators of the QR code, tried in turn until one is there;
    the flag only chooses what is logged. *)
Fixpoint wait_qrcode (locators : list nat) : M bool :=
  match locators with
  | [] => ret false
  | qr_locator :: rest =>
      found <- try_except catches_all
                 (call Exception (pw_wait_qrcode qr_locator) ;;; ret true)
                 (λ e, ret false) ;;
      if found then ret true else wait_qrcode rest
  end.

(** [for i in range(ticks)]: the poll for the end of the handshake. *)
Fixpoint poll_login (ticks : nat) : M bool :=
  match ticks with
  | O => ret false
  | S ticks' =>
      emit EvPoll ;;;
      cookies <- call Exception pw_cookies ;;
      if existsb is_login_cookie cookies then ret true
      else
        gone <- try_except catches_all
                  (visible <- call Exception pw_login_button_visible ;;
                   ret (negb visible))
                  (λ e, ret false) ;;
        if gone then ret true
        else sleep (Seconds 1) ;;; poll_login ticks'
  end.

(** The body of the [try] of [playwright_login]; without a browser
    [self.browser.new_page()] raises. *)
Definition handshake : M bool :=
  s <- get_state ;;
  (if browser s then ret () else raise (Exception [])) ;;;
  call Exception (pw_open_login (keyword s)) ;;;
  qrcode_found <- wait_qrcode [0; 1; 2; 3]%nat ;;
  login_success <- poll_login 60 ;;
  if login_success then
    all_cookies <- call Exception pw_cookies ;;
    save_login_cookies all_cookies ;;;
    s <- get_state ;;
    (if use_anti_crawler s
     then set_anti_crawler_session
            (set_cookies all_cookies (anti_crawler_session s))
     else ret ()) ;;;
    call Exception pw_page_close ;;;
    ret true
  else ret false.

Definition playwright_login : M bool :=
  emit EvHandshake ;;;
  init_playwright ;;;
  try_except is_Exception handshake (λ e, ret false).

Definition login (force_login : bool) : M bool :=
  s <- get_state ;;
  if is_logged_in s && negb force_login then ret true
  else playwright_login.
End Session.

(** ** ArticleStore: [SQLiteArticleStorage] *)

Definition unknown_title : str := Eval vm_compute in lit "unknown".
Definition true_text : str := Eval vm_compute in lit "True".
Definition false_text : str := Eval vm_compute in lit "False".

(** [f"{v}"] *)
Definition format_val (v : pyval) : str :=
  match v with
  | VStr s => s
  | VBool b => if b then true_text else false_text
  end.

Section Storage.
Context `{Env}.

(** [_generate_object_key]: [len] and the slice raise [TypeError] on a
    value that is not text. *)
Definition _generate_object_key (article_data : gmap string pyval) : M str :=
  let title := default (VStr unknown_title) (article_data !! "title"%string) in
  now <- ask clock_now ;;
  let publish_time :=
    default (VStr (isoformat now)) (article_data !! "publish_time"%string) in
  let content_hash :=
    take 8 (md5_hexdigest (format_val title ++ format_val publish_time)) in
  match publish_time with
  | VBool _ => raise (Exception [])
  | VStr publish_time =>
      date_str <-
        (if (10 <=? length publish_time)%nat then ret (take 10 publish_time)
         else now <- ask clock_now ;; ret (strftime_date now)) ;;
      ret (date_str ++ [slash] ++ content_hash)
  end.

Definition has_key (key : str) (table : list row) : bool :=
  existsb (λ r, bool_decide (object_key r = key)) table.

(** The columns bound by the INSERT, after the key. *)
Definition bound_values (article_data : gmap string pyval) (saved_at : str)
  : list pyval :=
  map (λ column, default (VStr []) (article_data !! column))
      ["title"; "summary"; "source"; "publish_time"; "address";
       "real_url"; "content"]%string
  ++ [VStr saved_at; default (VStr []) (article_data !! "keyword"%string)].

(** [save_article]: INSERT OR IGNORE leaves the table alone when a row
    holds the key ([rowcount] 0); an error of the connection rolls the
    transaction back and is caught with every other exception. *)
Definition save_article (article_data : gmap string pyval) : M bool :=
  try_except is_Exception
    (key <- _generate_object_key article_data ;;
     now <- ask clock_now ;;
     let saved_at := isoformat now in
     call Exception sqlite_transaction ;;;
     s <- get_state ;;
     if has_key key (db s) then ret false
     else
       set_db (db s ++ [{| object_key := key;
                           row_values := bound_values article_data saved_at |}]) ;;;
       ret true)
    (λ e, ret false).
(** The hash part of a key, for a dictionary whose publish time is [pt]. *)
Definition content_hash (article_data : gmap string pyval) (pt : str) : str :=
  take 8 (md5_hexdigest
            (format_val (default (VStr unknown_title) (article_data !! "title"%string))
             ++ pt)).

(** The date the clock gives to a call of [_generate_object_key] made in
    state [s] when it asks for today's date: its second reading. *)
Definition key_date (s : State) : str :=
  strftime_date (clock_now (clock_now (world s)).2).1.
End Storage.

(** ** Network calls of the pipeline *)

(** What [fetch_article_content] returns. *)
Record content_result := {
  result_content : str;
  result_address : str;
  result_success : bool;
}.

Section Network.
Context `{Env}.

(** [session.get(...)] on the session in use; the cookies a response sets
    are part of the world. *)
Definition session_get (req : request) : M response :=
  s <- get_state ;;
  if use_anti_crawler s
  then call RequestException (http_get true (anti_crawler_session s) req)
  else call RequestException (http_get false (login_session s) req).

Definition raise_for_status (r : response) : M unit :=
  if (400 <=? status_code r) && (status_code r <? 600)
  then raise (RequestException [])
  else ret ().

Definition get_real_wechat_url (sogou_url : str) : M (option str) :=
  try_except is_RequestException
    (response <- session_get (GetUrl sogou_url) ;;
     raise_for_status response ;;;
     match extract_real_url (text response) with
     | Some real_url =>
         if nonempty real_url then ret (Some real_url) else ret None
     | None => ret None
     end)
    (λ e, ret None).

Definition fetch_article_content (real_url : str) : M content_result :=
  try_except is_Exception
    (response <- session_get (GetUrl real_url) ;;
     raise_for_status response ;;;
     soup <- lift (article_soup (text response)) ;;
     let (clean_content, address_text) := extract_article_text soup in
     ret {| result_content := clean_content;
            result_address := address_text;
            result_success := true |})
    (λ e,
       if is_RequestException e
       then ret {| result_content := []; result_address := [];
                   result_success := false |}
       else ret {| result_content := []; result_address := [];
                   result_success := false |}).

(** The loop of [_parse_search_results]: an article object is kept only
    if it is appended. *)
Fixpoint parse_items (news_items : list item) (articles : list nat)
  : M (list nat) :=
  match news_items with
  | [] => ret articles
  | it :: rest =>
      now <- ask clock_now ;;
      parsed <- lift (parse_item is_digit format_timestamp now it) ;;
      match parsed with
      | None => parse_items rest articles
      | Some article =>
          l <- alloc article ;;
          parse_items rest (articles ++ [l])
      end
  end.

Definition _parse_search_results (html_content query : str) : M (list nat) :=
  parse_items (select_news_items html_content) [].

(** [search_articles]; the time range is accepted and not used. *)
Definition search_articles (query : str) (page : Z) : M (list nat) :=
  try_except is_RequestException
    (session_get GetHome ;;;
     sleep (Uniform 2 4) ;;;
     response <- session_get (GetSearch query page) ;;
     raise_for_status response ;;;
     articles <- _parse_search_results (text response) query ;;
     ret articles)
    (λ e, ret []).

Definition hash_sign : N := 35.

Definition load_wechat_accounts : M (list str) :=
  try_except is_Exception
    (lines <- call Exception fs_config_lines ;;
     match lines with
     | None => ret []
     | Some lines =>
         ret (List.filter
                (λ line, nonempty line && negb (startswith line [hash_sign]))
                (map strip lines))
     end)
    (λ e, ret []).
End Network.

(** ** BatchRunner: [ThreadPoolExecutor.map] and the two batches *)

Definition set_resolved (real_url : str) (a : WeChatArticle) : WeChatArticle :=
  {| title := title a; summary := summary a; source := source a;
     publish_time := publish_time a; address := address a;
     sogou_url := sogou_url a; real_url := real_url;
     crawl_time := crawl_time a; success := true;
     content := content a; content_fetched := content_fetched a |}.

Definition set_unresolved (a : WeChatArticle) : WeChatArticle :=
  {| title := title a; summary := summary a; source := source a;
     publish_time := publish_time a; address := address a;
     sogou_url := sogou_url a; real_url := real_url a;
     crawl_time := crawl_time a; success := false;
     content := content a; content_fetched := content_fetched a |}.

Definition set_content (r : content_result) (a : WeChatArticle) : WeChatArticle :=
  {| title := title a; summary := summary a; source := source a;
     publish_time := publish_time a; address := result_address r;
     sogou_url := sogou_url a; real_url := real_url a;
     crawl_time := crawl_time a; success := success a;
     content := result_content r; content_fetched := result_success r |}.

(** The dictionary [save_article_to_storage] builds. *)
Definition article_dict (article : WeChatArticle) (keyword : str)
  : gmap string pyval :=
  list_to_map
    [("title", VStr (title article)); ("summary", VStr (summary article));
     ("source", VStr (source article));
     ("publish_time", VStr (publish_time article));
     ("address", VStr (address article));
     ("sogou_url", VStr (sogou_url article));
     ("real_url", VStr (real_url article));
     ("content", VStr (content article));
     ("crawl_time", VStr (crawl_time article));
     ("success", VBool (success article));
     ("content_fetched", VBool (content_fetched article));
     ("keyword", VStr keyword)]%string.

Section Batch.
Context `{Env}.

(** A task run to its end, its result or exception kept in its future. *)
Definition capture {A} (m : M A) : M (outcome A) :=
  λ s, let (o, s') := m s in (Ret o, s').

(** The pool: every submitted task runs; which pending task runs next is
    the scheduler's choice. Tasks are taken as running one at a time. *)
Fixpoint run_pool {A B} (max_workers fuel : nat) (worker : A → M B)
    (pending : list (nat * A)) (futures : gmap nat (outcome B))
  : M (gmap nat (outcome B)) :=
  match fuel with
  | O => ret futures
  | S fuel' =>
      k <- ask (pool_pick max_workers (length pending)) ;;
      let n := (k mod length pending)%nat in
      match pending !! n with
      | Some (i, a) =>
          r <- capture (worker a) ;;
          run_pool max_workers fuel' worker (delete n pending) (<[i := r]> futures)
      | None => ret futures
      end
  end.

(** [list(...)] over the results: in the order of the inputs, an
    exception of a task raised again when its turn comes. *)
Fixpoint collect {B} (futures : gmap nat (outcome B)) (indices : list nat)
  : M (list B) :=
  match indices with
  | [] => ret []
  | i :: rest =>
      match futures !! i with
      | Some (Ret b) => bs <- collect futures rest ;; ret (b :: bs)
      | Some (Raise e) => raise e
      | None => raise (Exception [])
      end
  end.

(** [list(executor.map(worker, items))] *)
Definition executor_map {A B} (max_workers : nat) (worker : A → M B)
    (items : list A) : M (list B) :=
  futures <- run_pool max_workers (length items) worker
               (imap (λ i a, (i, a)) items) ∅ ;;
  collect futures (seq 0 (length items)).

Definition process_article (l : nat) : M nat :=
  article <- read l ;;
  if nonempty (sogou_url article) then
    real_url <- get_real_wechat_url (sogou_url article) ;;
    emit (EvResolve l real_url) ;;;
    match real_url with
    | Some real_url => update l (set_resolved real_url)
    | None => update l set_unresolved
    end ;;;
    sleep (Seconds 1) ;;;
    ret l
  else ret l.

Definition get_real_urls_batch (articles : list nat) (max_workers : nat)
  : M (list nat) :=
  executor_map max_workers process_article articles.

Definition save_article_to_storage (l : nat) : M bool :=
  try_except is_Exception
    (article <- read l ;;
     emit (EvSave l article) ;;;
     s <- get_state ;;
     success <- save_article (article_dict article (keyword s)) ;;
     if success then ret true else ret false)
    (λ e, ret false).

Definition fetch_content (l : nat) : M nat :=
  article <- read l ;;
  if nonempty (real_url article) && success article then
    content_result <- fetch_article_content (real_url article) ;;
    emit (EvFetch l (result_success content_result)) ;;;
    update l (set_content content_result) ;;;
    (if result_success content_result
     then storage_success <- save_article_to_storage l ;; ret ()
     else ret ()) ;;;
    sleep (Seconds 2) ;;;
    ret l
  else ret l.

(** [article.success and article.real_url], for the article at [l]. *)
Definition is_valid (h : gmap nat WeChatArticle) (l : nat) : bool :=
  match h !! l with
  | Some article => success article && nonempty (real_url article)
  | None => false
  end.

Definition fetch_contents_batch (articles : list nat) (max_workers : nat)
  : M (list nat) :=
  s <- get_state ;;
  let valid_articles := List.filter (is_valid (heap s)) articles in
  match valid_articles with
  | [] => ret articles
  | _ :: _ =>
      processed_valid <- executor_map max_workers fetch_content valid_articles ;;
      (* valid_dict = {id(article): article}; articles[i] = valid_dict[id(article)] *)
      let valid_dict : gmap nat nat :=
        list_to_map (map (λ l, (l, l)) processed_valid) in
      ret (map (λ l, default l (valid_dict !! l)) articles)
  end.
End Batch.

(** ** CrawlPipeline *)

(** The texts of the [message] fields, by template and arguments. *)
Inductive message :=
  | MsgLoginFailed                                    (* 登录失败，无法继续爬取 *)
  | MsgReloginFailed                                  (* 重新登录失败 *)
  | MsgCrawled (total : nat) (fetched : option nat)   (* 成功爬取 ... 篇文章 ... *)
  | MsgError (text : str)                             (* str(e) *)
  | MsgNoAccounts                                     (* 没有配置任何公众号 *)
  | MsgDone (accounts : nat).                         (* 完成爬取 ... 个公众号 *)

(** The dictionary [crawl_and_extract] returns; the dictionary built in the
    handler of the driving loop has no ["data"]. *)
Record CrawlResult := {
  r_success : bool;
  r_message : message;
  r_data : option (list nat);
}.

(** An element of [all_results]. *)
Record AccountResult := {
  account : str;
  result : CrawlResult;
}.

(** The dictionary [crawl_all_configured_accounts] returns. *)
Record AllResult := {
  all_success : bool;
  all_message : message;
  all_data : list AccountResult;
}.

Definition failure (m : message) : CrawlResult :=
  {| r_success := false; r_message := m; r_data := Some [] |}.

Section Pipeline.
Context `{Env}.

(** What [crawl_and_extract] does first when the search finds nothing: the
    pause, and the session thrown away. *)
Definition invalidate_session : M unit :=
  sleep (Seconds 60) ;;;
  cookie_file <- ask fs_cookie_exists ;;
  (if cookie_file then call Exception fs_cookie_remove else ret ()) ;;;
  set_login_session ∅ ;;;
  s <- get_state ;;
  (if use_anti_crawler s then set_anti_crawler_session ∅ else ret ()) ;;;
  set_is_logged_in false.

(** The branch of [crawl_and_extract] taken when the search finds
    nothing: either the articles of the second search, or the result to
    return at once. *)
Definition recover_session (query : str) (page : Z)
  : M (list nat + CrawlResult) :=
  invalidate_session ;;;
  login_success <- login true ;;
  if login_success then
    articles <- search_articles query page ;;
    match articles with
    | [] => raise (SystemExit 0)                      (* sys.exit(0) *)
    | _ :: _ => ret (inl articles)
    end
  else ret (inr (failure MsgReloginFailed)).

(** [sum(1 for article in articles if article.content_fetched)] *)
Definition count_fetched (h : gmap nat WeChatArticle) (articles : list nat) : nat :=
  length (List.filter
            (λ l, match h !! l with
                  | Some article => content_fetched article
                  | None => false
                  end) articles).

Definition crawl_and_extract (query : str) (page : Z)
    (get_real_urls fetch_content : bool) : M CrawlResult :=
  emit (EvCrawl query page) ;;;
  try_except is_Exception
    (s <- get_state ;;
     logged_in <- (if negb (is_logged_in s) then login false else ret true) ;;
     if negb logged_in then ret (failure MsgLoginFailed)
     else
       articles <- search_articles query page ;;
       found <- match articles with
                | [] => recover_session query page
                | _ :: _ => ret (inl articles)
                end ;;
       match found with
       | inr early => ret early
       | inl articles =>
           articles <- (if get_real_urls
                        then get_real_urls_batch articles 3
                        else ret articles) ;;
           articles <- (if fetch_content && get_real_urls
                        then fetch_contents_batch articles 2
                        else ret articles) ;;
           s <- get_state ;;
           let total_articles := length articles in
           let content_fetched_count := count_fetched (heap s) articles in
           ret {| r_success := true;
                  r_message :=
                    MsgCrawled total_articles
                      (if fetch_content then Some content_fetched_count else None);
                  r_data := Some articles |}
       end)
    (λ e, ret (failure (MsgError (exn_text e)))).

(** [range(67, page)] *)
Definition page_range (page : Z) : list Z :=
  map (λ i, (67 + Z.of_nat i)%Z) (seq 0 (Z.to_nat (page - 67))).

(** The loop over the pages of one account. The only call of the [try]
    body that can raise comes before the body appends to [all_results]. *)
Fixpoint crawl_pages (account : str) (pages : list Z) (page : Z)
    (get_real_urls fetch_content : bool) (all_results : list AccountResult)
  : M (list AccountResult) :=
  match pages with
  | [] => ret all_results
  | p :: rest =>
      all_results <-
        try_except is_Exception
          (result <- crawl_and_extract account p get_real_urls fetch_content ;;
           let all_results :=
             all_results ++ [{| account := account; result := result |}] in
           (if (p <? page)%Z then sleep (Uniform 3 5) else ret ()) ;;;
           ret all_results)
          (λ e,
             ret (all_results
                  ++ [{| account := account;
                         result := {| r_success := false;
                                      r_message := MsgError (exn_text e);
                                      r_data := None |} |}])) ;;
      crawl_pages account rest page get_real_urls fetch_content all_results
  end.

(** The loop over the accounts: its body ends with the [return] of the
    function, so the iteration on the first account is the only one. A
    loop that ran out would let the function return [None]. *)
Definition for_accounts (accounts todo : list str) (page : option Z)
    (get_real_urls fetch_content : bool) (all_results : list AccountResult)
  : M (option AllResult) :=
  match todo with
  | [] => ret None
  | account :: _ =>
      let page := default 3000%Z page in
      all_results <- crawl_pages account (page_range page) page
                       get_real_urls fetch_content all_results ;;
      ret (Some {| all_success := existsb (λ item, r_success (result item)) all_results;
                   all_message := MsgDone (length accounts);
                   all_data := all_results |})
  end.

Definition crawl_all_configured_accounts (get_real_urls fetch_content : bool)
    (page : option Z) : M (option AllResult) :=
  s <- get_state ;;
  logged_in <- (if negb (is_logged_in s) then login false else ret true) ;;
  if negb logged_in
  then ret (Some {| all_success := false; all_message := MsgLoginFailed;
                    all_data := [] |})
  else
    accounts <- load_wechat_accounts ;;
    match accounts with
    | [] => ret (Some {| all_success := false; all_message := MsgNoAccounts;
                         all_data := [] |})
    | _ :: _ => for_accounts accounts accounts page get_real_urls fetch_content []
    end.
End Pipeline.

(** ** Statements about stateful code *)

Section Triples.
Context `{Env}.

(** From a state where [P] holds, [m] either returns [a] in a state where
    [Q a] holds or raises [e] in a state where [X e] holds. *)
Definition triple {A} (P : State → Prop) (m : M A)
    (Q : A → State → Prop) (X : exn → State → Prop) : Prop :=
  ∀ s, P s →
    match m s with
    | (Ret a, s') => Q a s'
    | (Raise e, s') => X e s'
    end.

(** [m] keeps the invariant [I] and raises only exceptions of class [C]. *)
Definition keeps {A} (I : State → Prop) (C : exn → Prop) (m : M A) : Prop :=
  triple I m (λ _, I) (λ e s, C e ∧ I s).

(** [m] returns, whatever the state. *)
Definition returns {A} (m : M A) : Prop :=
  ∀ s, ∃ a s', m s = (Ret a, s').

End Triples.



Definition is_crawl (e : event) : bool :=
  match e with EvCrawl _ _ => true | _ => false end.


(** ** Concrete worlds, for the examples *)

(** What a concrete world is made of. Its state is the number of
    operations performed so far. *)
Record scenario := {
  scanned : bool;                   (* the user scans the code at once *)
  listing : str → Z → nat → str;    (* the page answered to a search *)
  dead_link : str → bool;           (* links whose request fails *)
  config_file : option (list str);  (* the lines of the accounts file *)
  today : nat → str;                (* the date, as the operations go *)
}.

Definition ascii_digit (c : N) : bool := (48 <=? c) && (c <=? 57).

Definition marker_name : str := Eval vm_compute in lit "SUID".

Definition marker_cookie : cookie :=
  {| cookie_name := marker_name; cookie_value := [];
     cookie_domain := None; cookie_path := None |}.

(** A listing page is read as one item a line: the line is the title and
    the tail of the link. *)
Definition line_item (line : str) : item :=
  {| sel_h3_a := Some {| strings := [line]; href := Some (slash :: line) |};
     sel_h3 := Some {| strings := [line]; href := None |};
     sel_p := [];
     sel_source := None;
     sel_time_script := None |}.

(** A redirect page that assembles [url] followed by an exclamation mark;
    every page also reads as an article made of its own text. *)
Definition redirect_page (url : str) : str :=
  url_frag_open ++ url ++ url_frag_close ++ url_frag_open ++ [33] ++ url_frag_close.

Definition scenario_get (sc : scenario) (req : request) (w : nat) : res response :=
  match req with
  | GetHome => Ok {| status_code := 200; text := [] |}
  | GetSearch query page =>
      Ok {| status_code := 200; text := listing sc query page w |}
  | GetUrl url =>
      if dead_link sc url then Err []
      else Ok {| status_code := 200; text := redirect_page url |}
  end.

Definition scenario_env (sc : scenario) : Env :=
  {| World := nat;
     is_digit := ascii_digit;
     format_timestamp := λ digits, Ok digits;
     md5_hexdigest := λ s, s ++ repeat 48 8;
     select_news_items := λ html,
       map line_item (List.filter nonempty (split_lines html));
     article_soup := λ html,
       Ok {| selected_text := [Some html]; body_text := None |};
     http_get := λ anti jar req w, (scenario_get sc req w, S w);
     clock_now := λ w,
       ({| isoformat := today sc w; strftime_date := today sc w;
           strftime_seconds := today sc w |}, S w);
     sleeping := λ p w, S w;
     pool_pick := λ workers pending w, (w, S w);
     pw_start := λ w, (Ok (), S w);
     pw_launch := λ w, (Ok (), S w);
     pw_open_login := λ keyword w, (Ok (), S w);
     pw_wait_qrcode := λ locator w, (Ok (), S w);
     pw_cookies := λ w, (Ok (if scanned sc then [marker_cookie] else []), S w);
     pw_login_button_visible := λ w, (Ok true, S w);
     pw_page_close := λ w, (Ok (), S w);
     fs_cookie_exists := λ w, (true, S w);
     fs_cookie_remove := λ w, (Ok (), S w);
     fs_cookie_write := λ cookies w, (Ok (), S w);
     fs_config_lines := λ w, (Ok (config_file sc), S w);
     sqlite_transaction := λ w, (Ok (), S w) |}.

(** A crawler just built in such a world: nothing crawled or stored yet. *)
Definition fresh_crawler (sc : scenario) (logged_in : bool)
  : @State (scenario_env sc) :=
  @Build_State (scenario_env sc) true [107] logged_in false false ∅ ∅ ∅ [] []
    0%nat.

Definition date_1 : str := Eval vm_compute in lit "2025-01-01".
Definition date_2 : str := Eval vm_compute in lit "2025-01-02".

(** The date changes after the third operation of the world. *)
Definition midnight_passes : scenario :=
  {| scanned := true; listing := λ query page w, [97];
     dead_link := λ url, false; config_file := None;
     today := λ w, if (w <? 3)%nat then date_1 else date_2 |}.

(** An article without a time stamp, as the parser leaves it. *)
Definition undated_article : WeChatArticle :=
  {| title := [84]; summary := []; source := []; publish_time := [];
     address := []; sogou_url := []; real_url := [85]; crawl_time := date_1;
     success := true; content := [67]; content_fetched := true |}.

(** The code is scanned at once, and every search comes back empty. *)
Definition dead_session : scenario :=
  {| scanned := true; listing := λ query page w, [];
     dead_link := λ url, false; config_file := Some [[97]];
     today := λ w, date_1 |}.

(** Two accounts are configured; every search finds one article. *)
Definition account_a : str := [97].
Definition account_b : str := [98].

Definition two_accounts : scenario :=
  {| scanned := true; listing := λ query page w, [97];
     dead_link := λ url, false; config_file := Some [account_a; account_b];
     today := λ w, date_1 |}.

(** Nobody scans the code; every search finds one article. *)
Definition nobody_scans : scenario :=
  {| scanned := false; listing := λ query page w, [97];
     dead_link := λ url, false; config_file := None; today := λ w, date_1 |}.

(** Scenario B of the specification, inside a redirect page. *)
Definition scenario_B_body : str :=
  Eval vm_compute in
    lit "var url = ''; url += 'https://example.com/s?'; url += 'id=42'; go(url)".

(** A page whose only link is written out, and followed by a line break. *)
Definition literal_link_body : str :=
  Eval vm_compute in lit "https://mp.weixin.qq.com/s?src=11" ++ [newline].

(** A listing item with a title and one paragraph of [n] letters. *)
Definition paragraph_item (n : nat) : item :=
  {| sel_h3_a := Some {| strings := [[84]]; href := None |};
     sel_h3 := None;
     sel_p := [{| strings := [repeat 97 n]; href := None |}];
     sel_source := None;
     sel_time_script := None |}.

Definition noon : datetime :=
  {| isoformat := []; strftime_date := date_1; strftime_seconds := date_1 |}.

(** The dictionary of the undated article, as the crawler builds it. *)
Definition undated_dict : gmap string pyval := article_dict undated_article [107].

(** Classes of exceptions. *)
Definition any_Exception (e : exn) : Prop := is_Exception e = true.

Definition Exception_or_exit (e : exn) : Prop :=
  is_Exception e = true ∨ e = SystemExit 0.

Definition is_save (e : event) : bool :=
  match e with EvSave _ _ => true | _ => false end.

(** An invariant that does not look at the session or the world, and of the
    trace looks at most at the crawls and the saves. *)
Class Quiet `{Env} (J : State → Prop) : Prop := {
  quiet_world : ∀ s w, J s → J (with_world w s);
  quiet_is_logged_in : ∀ s b, J s → J (with_is_logged_in b s);
  quiet_playwright : ∀ s b, J s → J (with_playwright b s);
  quiet_browser : ∀ s b, J s → J (with_browser b s);
  quiet_login_session : ∀ s j, J s → J (with_login_session j s);
  quiet_anti_crawler_session : ∀ s j, J s → J (with_anti_crawler_session j s);
  quiet_event : ∀ s e,
    is_crawl e = false → is_save e = false → J s → J (with_events [e] s);
}.

(** An invariant that does not look at the articles, the table or the
    saves either. *)
Class QuietData `{Env} (J : State → Prop) : Prop := {
  quiet_heap : ∀ s h, J s → J (with_heap h s);
  quiet_db : ∀ s d, J s → J (with_db d s);
  quiet_save : ∀ s l a, J s → J (with_events [EvSave l a] s);
}.

(** ** Statements about the batches *)





Section BatchStatements.
Context `{Env}.

(** The tasks of a pool run one after the other in a given order. *)
Fixpoint run_seq {A B} (max_workers : nat) (worker : A → M B)
    (order : list (nat * A)) (futures : gmap nat (outcome B))
  : M (gmap nat (outcome B)) :=
  match order with
  | [] => ret futures
  | (i, a) :: rest =>
      ask (pool_pick max_workers (length order)) ;;;
      r <- capture (worker a) ;;
      run_seq max_workers worker rest (<[i := r]> futures)
  end.



End BatchStatements.

Section WorkerStatements.
Context `{Env}.

(** The state in which [process_article] leaves an article with a link,
    [r] being what the resolution gave and [w] the world after it. *)
Definition resolved_state (l : nat) (a : WeChatArticle) (r : option str)
    (w : World) (s : State) : State :=
  with_world w
    (with_heap
       (<[l := match r with
               | Some url => set_resolved url a
               | None => set_unresolved a
               end]> (heap s))
       (with_events [EvResolve l r; EvSleep (Seconds 1)] s)).

(** The state in which [fetch_content] leaves a resolved article, [r]
    being the result of the fetch, [d] the table and [w] the world after
    it. *)
Definition fetched_state (l : nat) (a : WeChatArticle) (r : content_result)
    (d : list row) (w : World) (s : State) : State :=
  with_world w
    (with_db d
       (with_heap (<[l := set_content r a]> (heap s))
          (with_events
             (EvFetch l (result_success r)
              :: (if result_success r then [EvSave l (set_content r a)] else [])
              ++ [EvSleep (Seconds 2)]) s))).

(** The table [d'] is the table [d], or [d] and one row more bound from
    the article [a]. *)
Definition stored (a : WeChatArticle) (keyword : str) (d d' : list row) : Prop :=
  d' = d
  ∨ ∃ key saved_at,
      d' = d ++ [{| object_key := key;
                    row_values := bound_values (article_dict a keyword) saved_at |}].
End WorkerStatements.

(** Scenario D of the specification: three resolved articles, of which only
    the first has a link that answers. *)
Definition one_live_link : scenario :=
  {| scanned := true; listing := λ query page w, [97];
     dead_link := λ url, bool_decide (url ≠ [97]); config_file := None;
     today := λ w, date_1 |}.

Definition resolved_article (c : N) : WeChatArticle :=
  {| title := [c]; summary := []; source := []; publish_time := [];
     address := []; sogou_url := [slash; c]; real_url := [c];
     crawl_time := date_1; success := true; content := [];
     content_fetched := false |}.

Definition three_resolved : @State (scenario_env one_live_link) :=
  with_heap
    (list_to_map [(0%nat, resolved_article 97); (1%nat, resolved_article 98);
                  (2%nat, resolved_article 99)])
    (fresh_crawler one_live_link true).

(** ** The invariant of the records *)

(** A record handed to the store is fetched and resolved. *)
Definition save_ok (e : event) : Prop :=
  match e with
  | EvSave l a =>
      content_fetched a = true ∧ success a = true ∧ nonempty (real_url a) = true
  | _ => True
  end.

Section Invariant.
Context `{Env}.

(** Every article that is fetched is resolved; every article that was
    handed to [save_article_to_storage] was fetched and resolved when it
    was; every row of the table was bound from an article handed over. *)
Definition pipeline_invariant (s : State) : Prop :=
  (∀ l a, heap s !! l = Some a → content_fetched a = true →
     success a = true ∧ nonempty (real_url a) = true)
  ∧ Forall save_ok (trace s)
  ∧ (∀ r, r ∈ db s →
       ∃ l a keyword saved_at,
         EvSave l a ∈ trace s
         ∧ row_values r = bound_values (article_dict a keyword) saved_at).

End Invariant.

(** ** Statements about the records and the table *)

(** A record as the parser leaves it: it has a title; its link, if it has
    one, does not begin with a slash; its source is not the name of the
    platform; it is neither resolved nor fetched. *)
Definition fresh_record (a : WeChatArticle) : Prop :=
  title a ≠ [] ∧ startswith (sogou_url a) [slash] = false
  ∧ source a ≠ platform_name
  ∧ real_url a = [] ∧ success a = false
  ∧ content a = [] ∧ address a = [] ∧ content_fetched a = false.


(** A world where Playwright starts and the browser cannot be launched. *)
Definition no_browser_env : Env :=
  {| World := nat;
     is_digit := ascii_digit;
     format_timestamp := λ digits, Ok digits;
     md5_hexdigest := λ s, s ++ repeat 48%N 8;
     select_news_items := λ html,
       map line_item (List.filter nonempty (split_lines html));
     article_soup := λ html,
       Ok {| selected_text := [Some html]; body_text := None |};
     http_get := λ anti jar req w, (Err [], S w);
     clock_now := λ w,
       ({| isoformat := date_1; strftime_date := date_1;
           strftime_seconds := date_1 |}, S w);
     sleeping := λ p w, S w;
     pool_pick := λ workers pending w, (w, S w);
     pw_start := λ w, (Ok (), S w);
     pw_launch := λ w, (Err [], S w);
     pw_open_login := λ keyword w, (Ok (), S w);
     pw_wait_qrcode := λ locator w, (Ok (), S w);
     pw_cookies := λ w, (Ok [], S w);
     pw_login_button_visible := λ w, (Ok true, S w);
     pw_page_close := λ w, (Ok (), S w);
     fs_cookie_exists := λ w, (false, S w);
     fs_cookie_remove := λ w, (Ok (), S w);
     fs_cookie_write := λ cookies w, (Ok (), S w);
     fs_config_lines := λ w, (Ok None, S w);
     sqlite_transaction := λ w, (Ok (), S w) |}.

(** A crawler just built in this world. *)
Definition no_browser_crawler : @State no_browser_env :=
  @Build_State no_browser_env true [107%N] false false false ∅ ∅ ∅ [] [] 0%nat.

(** ** ArticleStore: the other methods *)

Section StorageQueries.
Context `{Env}.

(** [_article_exists]: the SELECT counts the rows that hold the key; an
    error of the connection is caught with every other exception. *)
Definition _article_exists (key : str) : M bool :=
  try_except is_Exception
    (call Exception sqlite_transaction ;;;
     s <- get_state ;;
     ret (has_key key (db s)))
    (λ e, ret false).

(** The loop of [SQLiteArticleStorageAdapter.save_articles]. The entry
    [saved_at] that [save_article] writes into a dictionary is read by the
    INSERT of the same call only. *)
Fixpoint save_articles_from (articles : list (gmap string pyval))
    (saved_count : nat) : M nat :=
  match articles with
  | [] => ret saved_count
  | article :: rest =>
      saved <- save_article article ;;
      save_articles_from rest (if saved then S saved_count else saved_count)
  end.

Definition save_articles (articles : list (gmap string pyval)) : M nat :=
  save_articles_from articles 0.
End StorageQueries.

(** [a'] is [a] but for the two fields the resolution assigns. *)
Definition same_but_resolution (a a' : WeChatArticle) : Prop :=
  title a' = title a ∧ summary a' = summary a ∧ source a' = source a
  ∧ publish_time a' = publish_time a ∧ address a' = address a
  ∧ sogou_url a' = sogou_url a ∧ crawl_time a' = crawl_time a
  ∧ content a' = content a ∧ content_fetched a' = content_fetched a.

(** [a'] is [a] but for the three fields the fetch assigns. *)
Definition same_but_content (a a' : WeChatArticle) : Prop :=
  title a' = title a ∧ summary a' = summary a ∧ source a' = source a
  ∧ publish_time a' = publish_time a ∧ sogou_url a' = sogou_url a
  ∧ real_url a' = real_url a ∧ crawl_time a' = crawl_time a
  ∧ success a' = success a.

Section FrameStatements.
Context `{Env}.

(** The session of the crawler is in [s'] what it is in [s]. *)
Definition same_session (s s' : State) : Prop :=
  use_anti_crawler s' = use_anti_crawler s ∧ keyword s' = keyword s
  ∧ is_logged_in s' = is_logged_in s
  ∧ playwright s' = playwright s ∧ browser s' = browser s
  ∧ login_session s' = login_session s
  ∧ anti_crawler_session s' = anti_crawler_session s.

(** The records of [s'] are those of [s], each changed at most as [rel]
    allows. *)
Definition same_records (rel : WeChatArticle → WeChatArticle → Prop)
    (s s' : State) : Prop :=
  ∀ l, match heap s !! l, heap s' !! l with
       | Some a, Some a' => rel a a'
       | None, None => True
       | _, _ => False
       end.

(** What a resolution batch started in [s] keeps when it is in [s'], the
    articles of [done] being processed. *)
Definition resolving_frame (s : State) (done : list nat) (s' : State) : Prop :=
  same_session s s' ∧ db s' = db s
  ∧ List.filter is_save (trace s') = List.filter is_save (trace s)
  ∧ same_records same_but_resolution s s'
  ∧ ∀ l a, heap s !! l = Some a → l ∉ done ∨ sogou_url a = [] →
      heap s' !! l = Some a.

(** The same for a fetch batch: the table has grown by at most one row for
    each article processed. *)
Definition fetching_frame (s : State) (done : list nat) (s' : State) : Prop :=
  same_session s s'
  ∧ (∃ rows, db s' = db s ++ rows ∧ (length rows ≤ length done)%nat)
  ∧ same_records same_but_content s s'
  ∧ ∀ l a, heap s !! l = Some a → l ∉ done → heap s' !! l = Some a.
End FrameStatements.

(** The table [d'] is the table [d] followed by new rows: rows whose keys
    are all different and held by no row of [d]. *)
Definition extends (d d' : list row) : Prop :=
  ∃ rows,
    d' = d ++ rows ∧ NoDup (map object_key rows)
    ∧ Forall (λ r, has_key (object_key r) d = false) rows.

Section ResultStatements.
Context `{Env}.

(** A list of records as a result carries it: not empty, without
    repetition, of records that exist and have a title. *)
Definition listed (articles : list nat) (s : State) : Prop :=
  articles ≠ [] ∧ NoDup articles
  ∧ Forall (λ l, ∃ a, heap s !! l = Some a ∧ title a ≠ []) articles.

(** The two kinds of result of [crawl_and_extract], in the state [s] in
    which it returns. *)
Definition result_shape (fetch_content : bool) (r : CrawlResult) (s : State)
  : Prop :=
  if r_success r
  then ∃ articles,
         r_data r = Some articles ∧ listed articles s
         ∧ r_message r
           = MsgCrawled (length articles)
               (if fetch_content
                then Some (count_fetched (heap s) articles) else None)
  else r_data r = Some []
       ∧ (r_message r = MsgLoginFailed ∨ r_message r = MsgReloginFailed
          ∨ ∃ text, r_message r = MsgError text).
End ResultStatements.

(** ** The life of a crawler: [__init__], [load_login_cookies],
    [close_playwright] and [main] *)

(** The keyword of a crawler built without keyword and without account. *)
Definition default_keyword : str := [32769; 24180; 26426; 22120; 20154].

Section Lifecycle.
Context `{Env}.

(** Operations of the world that only these functions use: the handlers
    of [logging.basicConfig], [create_anti_crawler_session],
    [SQLiteArticleStorage()] (which opens the database and hands over the
    table it holds), [pickle.load] on the cookie file, [browser.close()]
    and [playwright.stop()]. *)
Variable logging_setup : World → res unit * World.
Variable anti_crawler_create : World → res unit * World.
Variable storage_open : World → res (list row) * World.
Variable fs_cookie_read : World → res (list cookie) * World.
Variable pw_browser_close : World → res unit * World.
Variable pw_stop : World → res unit * World.

Definition with_keyword (k : str) (s : State) : State :=
  {| use_anti_crawler := use_anti_crawler s; keyword := k;
     is_logged_in := is_logged_in s; playwright := playwright s;
     browser := browser s; login_session := login_session s;
     anti_crawler_session := anti_crawler_session s; heap := heap s;
     db := db s; trace := trace s; world := world s |}.

Definition set_keyword (k : str) : M unit := modify (with_keyword k).

Definition load_login_cookies : M unit :=
  try_except is_Exception
    (cookie_file <- ask fs_cookie_exists ;;
     if cookie_file then
       cookies <- call Exception fs_cookie_read ;;
       s <- get_state ;;
       set_login_session (set_cookies cookies (login_session s)) ;;;
       set_is_logged_in true ;;;
       s <- get_state ;;
       if use_anti_crawler s
       then set_anti_crawler_session
              (set_cookies cookies (anti_crawler_session s))
       else ret ()
     else ret ())
    (λ e, set_is_logged_in false).

Definition close_playwright : M unit :=
  s <- get_state ;;
  (if browser s then call Exception pw_browser_close else ret ()) ;;;
  if playwright s then call Exception pw_stop else ret ().

(** The object before [__init__] has assigned anything: of its fields only
    [use_anti_crawler], an argument of the constructor, is read before it
    is assigned. *)
Definition blank_crawler (use_anti_crawler : bool) (w : World) : State :=
  {| use_anti_crawler := use_anti_crawler; keyword := [];
     is_logged_in := false; playwright := false; browser := false;
     login_session := ∅; anti_crawler_session := ∅; heap := ∅;
     db := []; trace := []; world := w |}.

(** [__init__], on the blank object. *)
Definition __init__ (keyword : option str) : M unit :=
  call Exception logging_setup ;;;
  set_is_logged_in false ;;;
  set_login_session ∅ ;;;
  keyword <- (if nonempty (default [] keyword) then ret (default [] keyword)
              else
                accounts <- load_wechat_accounts ;;
                ret (match accounts with
                     | first :: _ => first
                     | [] => default_keyword
                     end)) ;;
  set_keyword keyword ;;;
  set_playwright false ;;;
  set_browser false ;;;
  s <- get_state ;;
  (if use_anti_crawler s
   then call Exception anti_crawler_create ;;; set_anti_crawler_session ∅
   else ret ()) ;;;
  table <- call Exception storage_open ;;
  set_db table ;;;
  load_login_cookies.


(** [main()]; the results of the calls are dropped. *)
Definition main (w : World) : outcome unit * State :=
  (__init__ None ;;;
   s <- get_state ;;
   (if negb (is_logged_in s) then login false ;;; ret () else ret ()) ;;;
   load_wechat_accounts ;;;
   crawl_all_configured_accounts true true None ;;;
   close_playwright) (blank_crawler true w).
End Lifecycle.


(** * Proofs *)

(** ** Text *)

Lemma strip_prefix_app (p s : str) : strip_prefix p (p ++ s) = Some s.
Proof.
  induction p as [|c p IH]; simpl; [done|].
  by rewrite N.eqb_refl.
Qed.

Lemma strip_prefix_Some (p s r : str) : strip_prefix p s = Some r → s = p ++ r.
Proof.
  revert s; induction p as [|c p IH]; intros [|d s]; simpl; try congruence.
  destruct (N.eqb_spec c d) as [->|]; [|done].
  intros H; by rewrite (IH _ H).
Qed.

Lemma startswith_true (s p : str) : startswith s p = true ↔ ∃ r, s = p ++ r.
Proof.
  unfold startswith; split.
  - destruct (strip_prefix p s) eqn:E; [|done].
    intros _; eexists; by apply strip_prefix_Some.
  - intros [r ->]. by rewrite strip_prefix_app.
Qed.

Lemma span_split f (s a b : str) : span f s = (a, b) → s = a ++ b.
Proof.
  revert a b; induction s as [|c s IH]; simpl; intros a b.
  - by intros [= <- <-].
  - destruct (f c); [|by intros [= <- <-]].
    destruct (span f s) as [a' b']. intros [= <- <-]. simpl. by rewrite (IH a' b').
Qed.

Lemma span_Forall f (s a b : str) : span f s = (a, b) → Forall (λ c, f c = true) a.
Proof.
  revert a b; induction s as [|c s IH]; simpl; intros a b.
  - intros [= <- <-]; constructor.
  - destruct (f c) eqn:Ec; [|intros [= <- <-]; constructor].
    destruct (span f s) as [a' b']. intros [= <- <-]. constructor; eauto.
Qed.

Lemma span_stop f (a b : str) :
  Forall (λ c, f c = true) a →
  match b with [] => True | c :: _ => f c = false end →
  span f (a ++ b) = (a, b).
Proof.
  intros Ha Hb. induction Ha as [|c a Hc Ha IH]; simpl.
  - destruct b as [|c b]; simpl; [done|]. by rewrite Hb.
  - by rewrite Hc, IH.
Qed.

Lemma span_rest f (s a b : str) :
  span f s = (a, b) → match b with [] => True | c :: _ => f c = false end.
Proof.
  revert a b; induction s as [|c s IH]; simpl; intros a b.
  - by intros [= <- <-].
  - destruct (f c) eqn:Ec; [|by intros [= <- <-]].
    destruct (span f s) as [a' b']. intros [= <- <-]. by apply (IH a' b').
Qed.

(** ** UrlResolver *)

Lemma not_quote_Forall (f : str) :
  quote ∉ f ↔ Forall (λ c, negb (c =? quote) = true) f.
Proof.
  rewrite Forall_forall. split.
  - intros H c Hc. destruct (N.eqb_spec c quote) as [->|]; [done|done].
  - intros H Hq. specialize (H _ Hq). by rewrite N.eqb_refl in H.
Qed.

(** The anchored matcher finds exactly the occurrences of the pattern. *)
Lemma match_url_fragment_iff (s f : str) (n : nat) :
  match_url_fragment s = Some (f, n)
  ↔ (∃ rest, fragment_at s f rest)
    ∧ n = (length url_frag_open + length f + length url_frag_close)%nat.
Proof.
  unfold match_url_fragment, fragment_at. split.
  - destruct (strip_prefix url_frag_open s) as [r|] eqn:E1; [|done].
    apply strip_prefix_Some in E1.
    destruct (span _ r) as [frag r'] eqn:E2.
    destruct frag as [|c frag]; [done|].
    destruct (strip_prefix url_frag_close r') as [rest|] eqn:E3; [|done].
    apply strip_prefix_Some in E3. intros [= <- <-].
    split; [|done]. exists rest.
    pose proof (span_split _ _ _ _ E2) as ->.
    apply span_Forall in E2. apply not_quote_Forall in E2.
    subst. done.
  - intros [[rest (-> & Hne & Hq)] ->].
    rewrite strip_prefix_app.
    rewrite (span_stop _ f (url_frag_close ++ rest));
      [|by apply not_quote_Forall|done].
    destruct f as [|c f]; [done|].
    by rewrite strip_prefix_app.
Qed.

Lemma match_url_fragment_None (s : str) :
  match_url_fragment s = None ↔ ∀ f rest, ¬ fragment_at s f rest.
Proof.
  split.
  - intros H f rest Hf.
    assert (match_url_fragment s = Some (f,
      (length url_frag_open + length f + length url_frag_close)%nat)) as E
      by (apply match_url_fragment_iff; eauto).
    congruence.
  - intros H. destruct (match_url_fragment s) as [[f n]|] eqn:E; [|done].
    apply match_url_fragment_iff in E as [[rest Hf] _]. by destruct (H f rest).
Qed.

Lemma findall_skip (p s : str) : findall_from (length p) (p ++ s) = findall_from 0 s.
Proof. induction p as [|c p IH]; simpl; [by destruct s|done]. Qed.

Lemma no_fragment_within_tail c (pre t : str) :
  no_fragment_within (c :: pre) t → no_fragment_within pre t.
Proof. intros H p1 p2 f r -> Hp2. by apply (H (c :: p1) p2). Qed.

Lemma no_fragment_within_head c (pre t : str) :
  no_fragment_within (c :: pre) t → match_url_fragment (c :: pre ++ t) = None.
Proof.
  intros H. apply match_url_fragment_None. intros f r.
  by apply (H [] (c :: pre)).
Qed.

Lemma no_fragment_within_cons c (pre t : str) :
  match_url_fragment (c :: pre ++ t) = None →
  no_fragment_within pre t → no_fragment_within (c :: pre) t.
Proof.
  intros Hm H [|d p1] p2 f r E Hp2.
  - simpl in E; subst p2. rewrite match_url_fragment_None in Hm. apply Hm.
  - injection E as -> ->. by apply (H p1 p2).
Qed.

Lemma findall_gap (pre t : str) :
  no_fragment_within pre t → findall_from 0 (pre ++ t) = findall_from 0 t.
Proof.
  induction pre as [|c pre IH]; intros H; [done|].
  simpl. rewrite (no_fragment_within_head _ _ _ H).
  apply IH. by eapply no_fragment_within_tail.
Qed.

Lemma findall_from_match c (p rest f : str) :
  match_url_fragment (c :: p ++ rest) = Some (f, S (length p)) →
  findall_from 0 (c :: p ++ rest) = f :: findall_from 0 rest.
Proof.
  intros E. cbn [findall_from]. rewrite E.
  by rewrite Nat.sub_succ, Nat.sub_0_r, findall_skip.
Qed.

Lemma findall_at_occurrence (f rest : str) :
  f ≠ [] → quote ∉ f →
  findall_from 0 (url_frag_open ++ f ++ url_frag_close ++ rest)
  = f :: findall_from 0 rest.
Proof.
  intros Hne Hq.
  assert (match_url_fragment (url_frag_open ++ f ++ url_frag_close ++ rest)
          = Some (f, (length url_frag_open + length f + length url_frag_close)%nat))
    as E by (apply match_url_fragment_iff; split; [by exists rest|done]).
  destruct url_frag_open as [|c o] eqn:Ho; [discriminate Ho|].
  replace ((c :: o) ++ f ++ url_frag_close ++ rest)
    with (c :: (o ++ f ++ url_frag_close) ++ rest) in *
    by (cbn [app]; by rewrite <- !app_assoc).
  apply findall_from_match. rewrite E. do 2 f_equal.
  rewrite !length_app. cbn [length]. lia.
Qed.

(** The scan returns the fragments of the occurrences, in their order. *)
Lemma occurrences_findall (s : str) (fs : list str) :
  occurrences s fs → findall_url_fragments s = fs.
Proof.
  unfold findall_url_fragments.
  induction 1 as [s H|pre f rest fs Hgap Hne Hq _ IH].
  - rewrite <- (app_nil_r s). by rewrite findall_gap.
  - rewrite findall_gap by done. rewrite findall_at_occurrence by done.
    by rewrite IH.
Qed.

Lemma occurrences_cons_gap c (s : str) (fs : list str) :
  match_url_fragment (c :: s) = None →
  occurrences s fs → occurrences (c :: s) fs.
Proof.
  intros Hm Hocc. destruct Hocc as [s H|pre f rest fs Hgap Hne Hq Hocc].
  - apply occ_done. apply no_fragment_within_cons; [|done].
    by rewrite app_nil_r.
  - apply (occ_next (c :: pre)); try done.
    by apply no_fragment_within_cons.
Qed.

(** Every body has its sequence of occurrences: the one the scan returns. *)
Lemma findall_occurrences (s : str) : occurrences s (findall_url_fragments s).
Proof.
  unfold findall_url_fragments.
  remember (length s) as n eqn:En.
  assert (length s ≤ n)%nat as Hn by lia. clear En.
  revert s Hn. induction n as [|n IH]; intros s Hn.
  - destruct s; [|simpl in Hn; lia].
    apply occ_done. intros p1 p2 f r E Hp2.
    symmetry in E. apply app_eq_nil in E as [_ ->]. done.
  - destruct s as [|c s].
    { apply occ_done. intros p1 p2 f r E Hp2.
      symmetry in E. apply app_eq_nil in E as [_ ->]. done. }
    simpl in Hn.
    destruct (match_url_fragment (c :: s)) as [[f k]|] eqn:E.
    + pose proof E as E'.
      apply match_url_fragment_iff in E' as [[rest (Hs & Hne & Hq)] ->].
      rewrite Hs. rewrite findall_at_occurrence by done.
      apply (occ_next [] f rest); try done.
      * intros p1 p2 f' r' E1 Hp2. symmetry in E1.
        apply app_eq_nil in E1 as [_ ->]. done.
      * apply IH. apply (f_equal length) in Hs.
        rewrite !length_app in Hs. simpl in Hs. lia.
    + simpl. rewrite E. apply occurrences_cons_gap; [done|].
      apply IH. lia.
Qed.

Lemma occurrences_unique (s : str) (fs1 fs2 : list str) :
  occurrences s fs1 → occurrences s fs2 → fs1 = fs2.
Proof.
  intros H1 H2. apply occurrences_findall in H1, H2. congruence.
Qed.

Lemma match_full_url_None (s : str) :
  match_full_url s = None ↔ startswith s full_url_prefix = false.
Proof.
  unfold match_full_url, startswith.
  destruct (strip_prefix full_url_prefix s); split; congruence.
Qed.

Lemma search_full_url_eq (s : str) :
  search_full_url s
  = match match_full_url s with
    | Some m => Some m
    | None => match s with [] => None | _ :: s' => search_full_url s' end
    end.
Proof. by destruct s. Qed.

Lemma search_full_url_literal (s m : str) :
  literal_match s m → search_full_url s = Some m.
Proof.
  intros (pre & run & rest & -> & -> & Hpre & Hrun & Hrest).
  induction pre as [|c pre IH].
  - rewrite search_full_url_eq. cbn [app].
    unfold match_full_url. rewrite strip_prefix_app.
    by rewrite (span_stop _ run rest).
  - rewrite search_full_url_eq.
    assert (match_full_url ((c :: pre) ++ full_url_prefix ++ run ++ rest) = None)
      as -> by (apply match_full_url_None; by apply (Hpre [] (c :: pre))).
    cbn [app]. apply IH.
    intros p1 p2 -> Hp2. by apply (Hpre (c :: p1) p2).
Qed.

Lemma search_full_url_none (s : str) :
  no_literal_match s → search_full_url s = None.
Proof.
  induction s as [|c s IH]; intros H; rewrite search_full_url_eq.
  - by assert (match_full_url [] = None) as -> by done.
  - assert (match_full_url (c :: s) = None) as ->
      by (apply match_full_url_None; by apply (H [] (c :: s))).
    apply IH. intros p1 p2 ->. by apply (H (c :: p1) p2).
Qed.

(** Every body either has a first literal match or has none at all. *)
Lemma literal_match_total (s : str) :
  (∃ m, literal_match s m) ∨ no_literal_match s.
Proof.
  induction s as [|c s IH].
  - right. intros p1 p2 E. symmetry in E. apply app_eq_nil in E as [_ ->]. done.
  - destruct (startswith (c :: s) full_url_prefix) eqn:E.
    + left. apply startswith_true in E as [r E].
      destruct (span not_a_quote r) as [run rest] eqn:Es.
      exists (full_url_prefix ++ run), [], run, rest. repeat split.
      * rewrite E. simpl. by rewrite (span_split _ _ _ _ Es).
      * intros p1 p2 E1. symmetry in E1. apply app_eq_nil in E1 as [_ ->]. done.
      * by eapply span_Forall.
      * by eapply span_rest.
    + destruct IH as [[m (pre & run & rest & -> & -> & Hpre & Hrun & Hrest)]|IH].
      * left. exists (full_url_prefix ++ run), (c :: pre), run, rest.
        repeat split; try done.
        intros [|d p1] p2 E1 Hp2; simpl in E1.
        -- by subst p2.
        -- injection E1 as -> ->. by apply (Hpre p1 p2).
      * right. intros [|d p1] p2 E1; simpl in E1.
        -- by subst p2.
        -- injection E1 as -> ->. by apply (IH p1 p2).
Qed.

Local Close Scope N_scope.

(** ** Rules for stateful code *)

Section Rules.
Context `{Env}.

Lemma triple_ret {A} P (a : A) (Q : A → State → Prop) X :
  (∀ s, P s → Q a s) → triple P (ret a) Q X.
Proof. intros HQ s HP. by apply HQ. Qed.

Lemma triple_raise {A} P e (Q : A → State → Prop) (X : exn → State → Prop) :
  (∀ s, P s → X e s) → triple P (raise e) Q X.
Proof. intros HX s HP. by apply HX. Qed.

Lemma triple_bind {A B} P (m : M A) (k : A → M B) R Q X :
  triple P m R X → (∀ a, triple (R a) (k a) Q X) → triple P (bind m k) Q X.
Proof.
  intros Hm Hk s HP. unfold bind. specialize (Hm s HP).
  destruct (m s) as [[a|e] s']; [by apply Hk|done].
Qed.

Lemma triple_try {A} P catches (m : M A) handler Q X X1 :
  triple P m Q X1 →
  (∀ e, catches e = true → triple (X1 e) (handler e) Q X) →
  (∀ e s, catches e = false → X1 e s → X e s) →
  triple P (try_except catches m handler) Q X.
Proof.
  intros Hm Hh Hx s HP. unfold try_except. specialize (Hm s HP).
  destruct (m s) as [[a|e] s']; [done|].
  destruct (catches e) eqn:Ec; [by apply Hh|by apply Hx].
Qed.

Lemma triple_conseq {A} (P P' : State → Prop) (m : M A)
    (Q Q' : A → State → Prop) (X X' : exn → State → Prop) :
  triple P m Q X →
  (∀ s, P' s → P s) → (∀ a s, Q a s → Q' a s) → (∀ e s, X e s → X' e s) →
  triple P' m Q' X'.
Proof.
  intros Hm HP HQ HX s Hs. specialize (Hm s (HP s Hs)).
  destruct (m s) as [[a|e] s']; eauto.
Qed.

Lemma triple_get P (Q : State → State → Prop) X :
  (∀ s, P s → Q s s) → triple P get_state Q X.
Proof. intros HQ s HP. by apply HQ. Qed.

Lemma triple_modify P f (Q : unit → State → Prop) X :
  (∀ s, P s → Q () (f s)) → triple P (modify f) Q X.
Proof. intros HQ s HP. by apply HQ. Qed.

Lemma triple_ask {A} P (op : World → A * World) (Q : A → State → Prop) X :
  (∀ s, P s → Q (op (world s)).1 (with_world (op (world s)).2 s)) →
  triple P (ask op) Q X.
Proof.
  intros HQ s HP. unfold ask, bind, get_state. specialize (HQ s HP).
  by destruct (op (world s)) as [a w].
Qed.

Lemma triple_call {A} P as_exn (op : World → res A * World)
    (Q : A → State → Prop) (X : exn → State → Prop) :
  (∀ s, P s →
     match (op (world s)).1 with
     | Ok a => Q a (with_world (op (world s)).2 s)
     | Err msg => X (as_exn msg) (with_world (op (world s)).2 s)
     end) →
  triple P (call as_exn op) Q X.
Proof.
  intros HQ s HP. unfold call, bind, get_state. specialize (HQ s HP).
  by destruct (op (world s)) as [[a|msg] w].
Qed.

Lemma triple_lift {A} P (r : res A) (Q : A → State → Prop)
    (X : exn → State → Prop) :
  (∀ s, P s → match r with Ok a => Q a s | Err msg => X (Exception msg) s end) →
  triple P (lift r) Q X.
Proof. intros HQ s HP. specialize (HQ s HP). by destruct r. Qed.

Lemma triple_sleep P p (Q : unit → State → Prop) X :
  (∀ s, P s → Q () (with_world (sleeping p (world s))
                      (with_events [EvSleep p] s))) →
  triple P (sleep p) Q X.
Proof. intros HQ s HP. exact (HQ s HP). Qed.

(** *** Invariants *)

Lemma keeps_ret {A} I C (a : A) : keeps I C (ret a).
Proof. by apply triple_ret. Qed.

Lemma keeps_raise {A} I (C : exn → Prop) e : C e → keeps I C (raise (A:=A) e).
Proof. intros HC. by apply triple_raise. Qed.

Lemma keeps_bind {A B} I C (m : M A) (k : A → M B) :
  keeps I C m → (∀ a, keeps I C (k a)) → keeps I C (bind m k).
Proof. intros Hm Hk. eapply triple_bind; [exact Hm|exact Hk]. Qed.

Lemma keeps_try {A} I (C C1 : exn → Prop) catches (m : M A) handler :
  keeps I C1 m →
  (∀ e, keeps I C (handler e)) →
  (∀ e, C1 e → catches e = false → C e) →
  keeps I C (try_except catches m handler).
Proof.
  intros Hm Hh HC. eapply triple_try; [exact Hm| |].
  - intros e _. eapply triple_conseq; [apply Hh| |done|done].
    by intros s [_ ?].
  - intros e s Hc [? ?]. split; [by apply HC|done].
Qed.

Lemma keeps_weaken {A} I (C C' : exn → Prop) (m : M A) :
  keeps I C m → (∀ e, C e → C' e) → keeps I C' m.
Proof.
  intros Hm HC. eapply triple_conseq; [exact Hm|done|done|].
  intros e s [? ?]. split; [by apply HC|done].
Qed.

Lemma keeps_get I C : keeps I C get_state.
Proof. by apply triple_get. Qed.

Lemma keeps_modify I C f : (∀ s, I s → I (f s)) → keeps I C (modify f).
Proof. intros Hf. by apply triple_modify. Qed.

Lemma keeps_ask {A} I C (op : World → A * World) :
  (∀ s w, I s → I (with_world w s)) → keeps I C (ask op).
Proof. intros Hw. apply triple_ask. intros s HI. by apply Hw. Qed.

Lemma keeps_call {A} I (C : exn → Prop) as_exn (op : World → res A * World) :
  (∀ s w, I s → I (with_world w s)) → (∀ msg, C (as_exn msg)) →
  keeps I C (call as_exn op).
Proof.
  intros Hw HC. apply triple_call. intros s HI.
  destruct (op (world s)).1; [by apply Hw|]. split; [done|by apply Hw].
Qed.

Lemma keeps_lift {A} I (C : exn → Prop) (r : res A) :
  (∀ msg, C (Exception msg)) → keeps I C (lift r).
Proof. intros HC. apply triple_lift. intros s HI. by destruct r. Qed.

Lemma keeps_sleep I C p :
  (∀ s w, I s → I (with_world w s)) → (∀ s, I s → I (with_events [EvSleep p] s)) →
  keeps I C (sleep p).
Proof. intros Hw He. apply triple_sleep. intros s HI. by apply Hw, He. Qed.

Lemma keeps_outcome {A} I C (m : M A) s :
  keeps I C m → I s →
  I (m s).2 ∧ match (m s).1 with Raise e => C e | Ret _ => True end.
Proof.
  intros Hm HI. specialize (Hm s HI).
  destruct (m s) as [[a|e] s']; simpl; [done|by destruct Hm].
Qed.
End Rules.

(** ** Running stateful code *)

Section Run.
Context `{Env}.

Lemma run_ret {A} (a : A) s : ret a s = (Ret a, s).
Proof. done. Qed.

Lemma run_raise {A} e s : raise (A:=A) e s = (Raise e, s).
Proof. done. Qed.

Lemma run_bind {A B} (m : M A) (k : A → M B) s :
  bind m k s
  = match m s with
    | (Ret a, s') => k a s'
    | (Raise e, s') => (Raise e, s')
    end.
Proof. done. Qed.

Lemma run_try {A} catches (m : M A) handler s :
  try_except catches m handler s
  = match m s with
    | (Ret a, s') => (Ret a, s')
    | (Raise e, s') => if catches e then handler e s' else (Raise e, s')
    end.
Proof. done. Qed.

Lemma run_get s : get_state s = (Ret s, s).
Proof. done. Qed.

Lemma run_modify f s : modify f s = (Ret (), f s).
Proof. done. Qed.

Lemma run_emit e s : emit e s = (Ret (), with_events [e] s).
Proof. done. Qed.

Lemma run_ask {A} (op : World → A * World) s :
  ask op s = (Ret (op (world s)).1, with_world (op (world s)).2 s).
Proof. unfold ask, bind, get_state. by destruct (op (world s)). Qed.

Lemma run_call {A} as_exn (op : World → res A * World) s :
  call as_exn op s
  = (match (op (world s)).1 with
     | Ok a => Ret a
     | Err msg => Raise (as_exn msg)
     end, with_world (op (world s)).2 s).
Proof. unfold call, bind, get_state. by destruct (op (world s)) as [[a|msg] w]. Qed.

Lemma run_lift {A} (r : res A) s :
  lift r s = (match r with Ok a => Ret a | Err msg => Raise (Exception msg) end, s).
Proof. by destruct r. Qed.

Lemma run_sleep p s :
  sleep p s = (Ret (), with_world (sleeping p (world s)) (with_events [EvSleep p] s)).
Proof. done. Qed.

Lemma run_read l s :
  read l s
  = (match heap s !! l with Some a => Ret a | None => Raise (Exception []) end, s).
Proof. unfold read, bind, get_state. by destruct (heap s !! l). Qed.

Lemma run_update l f s :
  update l f s
  = match heap s !! l with
    | Some a => (Ret (), with_heap (<[l := f a]> (heap s)) s)
    | None => (Raise (Exception []), s)
    end.
Proof. unfold update. rewrite run_bind, run_read. by destruct (heap s !! l). Qed.

Lemma run_alloc a s :
  alloc a s
  = (Ret (fresh (dom (heap s))), with_heap (<[fresh (dom (heap s)) := a]> (heap s)) s).
Proof. done. Qed.

Lemma run_capture {A} (m : M A) s : capture m s = (Ret (m s).1, (m s).2).
Proof. unfold capture. by destruct (m s). Qed.

Lemma state_ext (s s' : State) :
  use_anti_crawler s = use_anti_crawler s' → keyword s = keyword s' →
  is_logged_in s = is_logged_in s' → playwright s = playwright s' →
  browser s = browser s' → login_session s = login_session s' →
  anti_crawler_session s = anti_crawler_session s' → heap s = heap s' →
  db s = db s' → trace s = trace s' → world s = world s' →
  s = s'.
Proof. destruct s, s'; cbn. by intros -> -> -> -> -> -> -> -> -> -> ->. Qed.

Lemma with_world_id s : with_world (world s) s = s.
Proof. by destruct s. Qed.

Lemma with_events_nil s : with_events [] s = s.
Proof. destruct s. unfold with_events. simpl. by rewrite app_nil_r. Qed.

End Run.

(** A field read from an updated state. *)
Ltac is_field p :=
  lazymatch p with
  | @world _ => idtac
  | @trace _ => idtac
  | @heap _ => idtac
  | @db _ => idtac
  | @is_logged_in _ => idtac
  | @playwright _ => idtac
  | @browser _ => idtac
  | @use_anti_crawler _ => idtac
  | @keyword _ => idtac
  | @login_session _ => idtac
  | @anti_crawler_session _ => idtac
  end.

Ltac field1 :=
  match goal with
  | |- context [@world ?E (@with_world ?E ?x ?s)] =>
      change (@world E (@with_world E x s)) with x
  | |- context [@trace ?E (@with_events ?E ?x ?s)] =>
      change (@trace E (@with_events E x s)) with (@trace E s ++ x)
  | |- context [@heap ?E (@with_heap ?E ?x ?s)] =>
      change (@heap E (@with_heap E x s)) with x
  | |- context [@db ?E (@with_db ?E ?x ?s)] =>
      change (@db E (@with_db E x s)) with x
  | |- context [@is_logged_in ?E (@with_is_logged_in ?E ?x ?s)] =>
      change (@is_logged_in E (@with_is_logged_in E x s)) with x
  | |- context [@playwright ?E (@with_playwright ?E ?x ?s)] =>
      change (@playwright E (@with_playwright E x s)) with x
  | |- context [@browser ?E (@with_browser ?E ?x ?s)] =>
      change (@browser E (@with_browser E x s)) with x
  | |- context [@login_session ?E (@with_login_session ?E ?x ?s)] =>
      change (@login_session E (@with_login_session E x s)) with x
  | |- context [@anti_crawler_session ?E (@with_anti_crawler_session ?E ?x ?s)] =>
      change (@anti_crawler_session E (@with_anti_crawler_session E x s)) with x
  | |- context [?p (@with_world ?E ?x ?s)] =>
      is_field p; change (p (@with_world E x s)) with (p s)
  | |- context [?p (@with_events ?E ?x ?s)] =>
      is_field p; change (p (@with_events E x s)) with (p s)
  | |- context [?p (@with_heap ?E ?x ?s)] =>
      is_field p; change (p (@with_heap E x s)) with (p s)
  | |- context [?p (@with_db ?E ?x ?s)] =>
      is_field p; change (p (@with_db E x s)) with (p s)
  | |- context [?p (@with_is_logged_in ?E ?x ?s)] =>
      is_field p; change (p (@with_is_logged_in E x s)) with (p s)
  | |- context [?p (@with_playwright ?E ?x ?s)] =>
      is_field p; change (p (@with_playwright E x s)) with (p s)
  | |- context [?p (@with_browser ?E ?x ?s)] =>
      is_field p; change (p (@with_browser E x s)) with (p s)
  | |- context [?p (@with_login_session ?E ?x ?s)] =>
      is_field p; change (p (@with_login_session E x s)) with (p s)
  | |- context [?p (@with_anti_crawler_session ?E ?x ?s)] =>
      is_field p; change (p (@with_anti_crawler_session E x s)) with (p s)
  | |- context [fst (?a, ?b)] => change (fst (a, b)) with a
  | |- context [snd (?a, ?b)] => change (snd (a, b)) with b
  end.

(** One step of a run: the next operation is replaced by its effect. *)
Ltac run1 :=
  first
    [ rewrite run_bind | rewrite run_try | rewrite run_get | rewrite run_emit
    | rewrite run_ask | rewrite run_call | rewrite run_lift | rewrite run_sleep
    | rewrite run_read | rewrite run_update | rewrite run_alloc
    | rewrite run_capture | rewrite run_modify | rewrite run_ret
    | rewrite run_raise
    | progress cbn beta iota
    | progress cbn [negb andb orb]
    | field1 ].

Ltac run := repeat run1.

(** Two states built from the same one by the same updates. *)
Ltac state_eq :=
  apply state_ext; repeat field1; rewrite <- ?app_assoc; cbn [app];
  reflexivity.

(** ** SessionManager *)

Section SessionProofs.
Context `{Env}.





End SessionProofs.



(** ** UrlResolver: the claim *)

Local Open Scope N_scope.

(** C2 (as amended). [extract_real_url] is a function of the body alone:
    when the body has one occurrence or more of [url += '<fragment>';] it
    returns the fragments joined in their order of appearance; when it has
    none and has a substring matching the literal article pattern, it
    returns the first such match with the white space around it stripped;
    when it has neither, it returns [None]. *)
Theorem extract_real_url_spec (body : str) (fs : list str) :
  occurrences body fs →
  match fs with
  | _ :: _ => extract_real_url body = Some (concat fs)
  | [] =>
      (∀ m, literal_match body m → extract_real_url body = Some (strip m))
      ∧ (no_literal_match body → extract_real_url body = None)
  end.
Proof.
  intros Hocc. apply occurrences_findall in Hocc.
  unfold extract_real_url. rewrite Hocc.
  destruct fs as [|f fs]; [|done]. split.
  - intros m Hm. by rewrite (search_full_url_literal _ _ Hm).
  - intros Hno. by rewrite (search_full_url_none _ Hno).
Qed.

(** Scenario B: the two fragments are found and joined. *)
Lemma extract_real_url_scenario_B :
  occurrences scenario_B_body [lit "https://example.com/s?"; lit "id=42"]
  ∧ extract_real_url scenario_B_body = Some (lit "https://example.com/s?id=42").
Proof.
  assert (occurrences scenario_B_body
            [lit "https://example.com/s?"; lit "id=42"]) as Hocc
    by exact (findall_occurrences scenario_B_body).
  split; [exact Hocc|].
  exact (extract_real_url_spec scenario_B_body _ Hocc).
Defined.

(** C2, the claim as stated fails: the literal match of this body ends with
    the line break, and what is returned is the match without it. *)
Lemma extract_real_url_strips_literal :
  occurrences literal_link_body []
  ∧ literal_match literal_link_body literal_link_body
  ∧ extract_real_url literal_link_body
    = Some (lit "https://mp.weixin.qq.com/s?src=11")
  ∧ extract_real_url literal_link_body ≠ Some literal_link_body.
Proof.
  split_and!.
  - exact (findall_occurrences literal_link_body).
  - exists [], (lit "src=11" ++ [newline]), []. split_and!; try done.
    + intros p1 p2 E. symmetry in E. apply app_eq_nil in E as [_ ->]. done.
    + vm_compute. repeat constructor.
  - by vm_compute.
  - by vm_compute.
Qed.

Local Close Scope N_scope.

(** ** SearchResultParser *)

Lemma item_summary_cases (is_digit : N → bool) (ps : list element) :
  (item_summary is_digit ps = []
   ∧ Forall (λ p, summary_candidate is_digit (get_text_strip p) = false) ps)
  ∨ ∃ before p after,
      ps = before ++ p :: after
      ∧ Forall (λ p, summary_candidate is_digit (get_text_strip p) = false) before
      ∧ summary_candidate is_digit (get_text_strip p) = true
      ∧ item_summary is_digit ps
        = if 300 <? length (get_text_strip p)
          then take 300 (get_text_strip p) ++ ellipsis
          else get_text_strip p.
Proof.
  induction ps as [|p ps IH]; [left; by split|].
  cbn [item_summary].
  destruct (summary_candidate is_digit (get_text_strip p)) eqn:Ec.
  - right. exists [], p, ps. by split_and!.
  - destruct IH as [[E Hall]|(before & q & after & -> & Hb & Hq & E)].
    + left. split; [done|by constructor].
    + right. exists (p :: before), q, after. split_and!; try done.
      by constructor.
Qed.

(** C8 (as amended). The summary of a record is at most 303 characters
    long: it is the first paragraph that passes the test, whole when it has
    at most 300 characters, and otherwise its first 300 characters followed
    by the three dots of the ellipsis. *)
Theorem summary_at_most_303 (is_digit : N → bool) (format_timestamp : str → res str)
    (now : datetime) (it : item) (a : WeChatArticle) :
  parse_item is_digit format_timestamp now it = Ok (Some a) →
  length (summary a) ≤ 303
  ∧ ((summary a = []
      ∧ Forall (λ p, summary_candidate is_digit (get_text_strip p) = false)
          (sel_p it))
     ∨ ∃ before p after,
         sel_p it = before ++ p :: after
         ∧ Forall (λ p, summary_candidate is_digit (get_text_strip p) = false)
             before
         ∧ summary_candidate is_digit (get_text_strip p) = true
         ∧ (length (get_text_strip p) ≤ 300 → summary a = get_text_strip p)
         ∧ (300 < length (get_text_strip p) →
              summary a = take 300 (get_text_strip p) ++ ellipsis
              ∧ length (summary a) = 303)).
Proof.
  unfold parse_item. destruct (negb (nonempty (item_title it))); [done|].
  destruct (item_publish_time is_digit format_timestamp it); [|done].
  intros [= <-]. cbn [summary].
  destruct (item_summary_cases is_digit (sel_p it))
    as [[E Hall]|(before & p & after & Hps & Hb & Hp & E)].
  - rewrite E. split; [cbn; lia|]. left. by split.
  - rewrite E.
    destruct (Nat.ltb_spec 300 (length (get_text_strip p))) as [Hlt|Hle].
    + assert (length (take 300 (get_text_strip p) ++ ellipsis) = 303) as El.
      { rewrite length_app, length_take. change (length ellipsis) with 3. lia. }
      split; [lia|]. right. exists before, p, after. split_and!; try done.
      intros ?. lia.
    + split; [lia|]. right. exists before, p, after. split_and!; try done.
      intros ?. lia.
Qed.

(** A paragraph of 25 letters is the summary as it is. *)
Lemma summary_short_paragraph :
  parse_item ascii_digit Ok noon (paragraph_item 25)
  = Ok (Some {| title := [84%N]; summary := repeat 97%N 25; source := [];
                publish_time := []; address := []; sogou_url := [];
                real_url := []; crawl_time := date_1; success := false;
                content := []; content_fetched := false |})
  ∧ length (repeat 97%N 25) ≤ 303.
Proof.
  split; [reflexivity|].
  exact (proj1 (summary_at_most_303 ascii_digit Ok noon (paragraph_item 25) _ eq_refl)).
Defined.

(** C8, the claim as stated fails: a paragraph of 301 characters gives a
    summary of 303 characters. *)
Lemma summary_longer_than_300 :
  match parse_item ascii_digit Ok noon (paragraph_item 301) with
  | Ok (Some a) => length (summary a) = 303 ∧ 300 < length (summary a)
  | _ => False
  end.
Proof. vm_compute. split; [done|]. repeat constructor. Qed.

Section ParserProofs.
Context `{Env}.

Lemma parse_item_title now it a :
  parse_item is_digit format_timestamp now it = Ok (Some a) →
  title a = item_title it ∧ nonempty (item_title it) = true.
Proof.
  unfold parse_item. destruct (nonempty (item_title it)); cbn; [|done].
  destruct (item_publish_time is_digit format_timestamp it); [|done].
  by intros [= <-].
Qed.

Lemma parse_item_skip now it :
  parse_item is_digit format_timestamp now it = Ok None →
  nonempty (item_title it) = false.
Proof.
  unfold parse_item. destruct (nonempty (item_title it)); cbn; [|done].
  by destruct (item_publish_time is_digit format_timestamp it).
Qed.

Lemma parse_item_raises now it msg :
  parse_item is_digit format_timestamp now it = Err msg →
  item_publish_time is_digit format_timestamp it = Err msg.
Proof.
  unfold parse_item. destruct (nonempty (item_title it)); cbn; [|done].
  destruct (item_publish_time is_digit format_timestamp it); [done|].
  by intros [= ->].
Qed.

(** The loop: the articles already found stay, the heap only grows, and
    the articles added are those of the items with a title, in order. *)
Lemma parse_items_spec news_items articles s :
  match parse_items news_items articles s with
  | (Ret found, s') =>
      ∃ new,
        found = articles ++ new
        ∧ (∀ l a, heap s !! l = Some a → heap s' !! l = Some a)
        ∧ map (λ l, title <$> heap s' !! l) new
          = map Some (List.filter nonempty (map item_title news_items))
  | (Raise e, s') =>
      ∃ it msg,
        it ∈ news_items
        ∧ item_publish_time is_digit format_timestamp it = Err msg
        ∧ e = Exception msg
  end.
Proof.
  revert articles s.
  induction news_items as [|it rest IH]; intros articles s.
  - cbn [parse_items]. run. exists []. by rewrite app_nil_r.
  - cbn [parse_items]. run.
    destruct (parse_item is_digit format_timestamp (clock_now (world s)).1 it)
      as [[a|]|msg] eqn:Ep; run.
    + apply parse_item_title in Ep as [Et Hne].
      pose proof (IH (articles ++ [fresh (dom (heap s))])
        (with_heap (<[fresh (dom (heap s)) := a]> (heap s))
           (with_world (clock_now (world s)).2 s))) as IH'.
      destruct (parse_items rest _ _) as [[found|e] s'].
      * destruct IH' as (new & -> & Hgrow & Hnew).
        simpl in Hgrow.
        assert (∀ l b, heap s !! l = Some b → heap s' !! l = Some b) as Hgrow'.
        { intros l b Hl. apply Hgrow. rewrite lookup_insert_ne; [done|].
          intros <-. apply (is_fresh (dom (heap s))).
          apply elem_of_dom. by eexists. }
        exists (fresh (dom (heap s)) :: new). split_and!.
        -- by rewrite <- app_assoc.
        -- done.
        -- cbn [map List.filter]. rewrite Hne. cbn [map]. f_equal; [|done].
           rewrite (Hgrow (fresh (dom (heap s))) a); [by rewrite <- Et|].
           by rewrite lookup_insert_eq.
      * destruct IH' as (it' & msg & Hin & Hm & ->).
        exists it', msg. split_and!; try done. by right.
    + apply parse_item_skip in Ep.
      pose proof (IH articles (with_world (clock_now (world s)).2 s)) as IH'.
      destruct (parse_items rest _ _) as [[found|e] s'].
      * destruct IH' as (new & -> & Hgrow & Hnew).
        exists new. split_and!; try done.
        cbn [map List.filter]. by rewrite Ep.
      * destruct IH' as (it' & msg & Hin & Hm & ->).
        exists it', msg. split_and!; try done. by right.
    + apply parse_item_raises in Ep.
      exists it, msg. split_and!; try done. by left.
Qed.
End ParserProofs.

(** C9. The parser leaves out every item whose title is empty once
    stripped: the titles of the records it returns are the non-empty titles
    of the items, in document order; so it returns at most as many records
    as there are items, each with a non-empty title. The only other way out
    of the parser is the exception of a time stamp that does not convert. *)
Theorem parser_drops_untitled_items `{Env} (html_content query : str) (s : State) :
  match _parse_search_results html_content query s with
  | (Ret articles, s') =>
      map (λ l, title <$> heap s' !! l) articles
      = map Some (List.filter nonempty
                    (map item_title (select_news_items html_content)))
      ∧ length articles ≤ length (select_news_items html_content)
      ∧ Forall (λ l, ∃ a, heap s' !! l = Some a ∧ title a ≠ []) articles
  | (Raise e, s') =>
      ∃ it msg,
        it ∈ select_news_items html_content
        ∧ item_publish_time is_digit format_timestamp it = Err msg
        ∧ e = Exception msg
  end.
Proof.
  unfold _parse_search_results.
  pose proof (parse_items_spec (select_news_items html_content) [] s) as Hspec.
  destruct (parse_items _ _ _) as [[articles|e] s']; [|done].
  destruct Hspec as (new & -> & _ & Hnew). cbn [app].
  split_and!.
  - done.
  - apply (f_equal length) in Hnew. rewrite !length_map in Hnew.
    rewrite Hnew.
    etrans; [apply List.filter_length_le|]. by rewrite length_map.
  - apply Forall_forall. intros l Hl.
    apply list_elem_of_lookup in Hl as [i Hi].
    apply (f_equal (λ x, x !! i)) in Hnew.
    rewrite !list_lookup_fmap, Hi in Hnew. cbn in Hnew.
    destruct (heap s' !! l) as [a|] eqn:Ea; cbn in Hnew.
    + exists a. split; [done|].
      destruct (List.filter nonempty _ !! i) as [t|] eqn:Et; [|done].
      injection Hnew as ->.
      apply list_elem_of_lookup_2, list_elem_of_In, List.filter_In in Et as [_ Et].
      by destruct t.
    + by destruct (List.filter nonempty _ !! i).
Qed.

(** ** ArticleStore *)

Section StorageProofs.
Context `{Env}.

Lemma generate_key_long (d : gmap string pyval) (pt : str) s :
  d !! "publish_time"%string = Some (VStr pt) → 10 ≤ length pt →
  _generate_object_key d s
  = (Ret (take 10 pt ++ [slash] ++ content_hash d pt),
     with_world (clock_now (world s)).2 s).
Proof.
  intros Hpt Hlen. unfold _generate_object_key, content_hash. run.
  rewrite Hpt. cbn [default from_option id format_val].
  destruct (Nat.leb_spec 10 (length pt)); [|lia]. by run.
Qed.

Lemma generate_key_short (d : gmap string pyval) (pt : str) s :
  d !! "publish_time"%string = Some (VStr pt) → length pt < 10 →
  _generate_object_key d s
  = (Ret (key_date s ++ [slash] ++ content_hash d pt),
     with_world (clock_now (clock_now (world s)).2).2 s).
Proof.
  intros Hpt Hlen. unfold _generate_object_key, content_hash, key_date. run.
  rewrite Hpt. cbn [default from_option id format_val].
  destruct (Nat.leb_spec 10 (length pt)); [lia|]. run. f_equal.
Qed.

Lemma generate_key_frame (d : gmap string pyval) s :
  db (_generate_object_key d s).2 = db s
  ∧ ∀ e, (_generate_object_key d s).1 = Raise e → is_Exception e = true.
Proof.
  unfold _generate_object_key. run.
  destruct (default _ (d !! "publish_time"%string)) as [pt|b]; run.
  - destruct (10 <=? length pt); run; done.
  - split; [done|]. by intros e [= <-].
Qed.

Lemma has_key_app key table r :
  has_key key (table ++ [r])
  = has_key key table || bool_decide (object_key r = key).
Proof. unfold has_key. rewrite existsb_app. cbn. by rewrite orb_false_r. Qed.

(** What a call of [save_article] does: it returns, never raises; [True]
    means that the key it derived was not in the table and that one row
    with this key was appended; [False] leaves the table as it was. *)
Lemma save_article_cases (d : gmap string pyval) s :
  ∃ b s',
    save_article d s = (Ret b, s')
    ∧ if b
      then ∃ key saved_at,
             (_generate_object_key d s).1 = Ret key
             ∧ has_key key (db s) = false
             ∧ db s' = db s ++ [{| object_key := key;
                                   row_values := bound_values d saved_at |}]
      else db s' = db s.
Proof.
  unfold save_article. run.
  destruct (generate_key_frame d s) as [Hdb Hexc].
  destruct (_generate_object_key d s) as [[key|e] s1];
    simpl in Hdb, Hexc; run.
  2:{ rewrite (Hexc e eq_refl). run. by exists false, s1. }
  destruct (sqlite_transaction _) as [[[]|msg] w]; run.
  2:{ eexists false, _. split; [done|]. by run. }
  rewrite Hdb. destruct (has_key key (db s)) eqn:Ek; run.
  - eexists false, _. split; [done|]. by run.
  - unfold set_db. run. eexists true, _. split; [done|].
    exists key, (isoformat (clock_now (world s1)).1). by run.
Qed.

(** A key that is in the table is not inserted again. *)
Lemma save_article_duplicate (d : gmap string pyval) s key :
  (_generate_object_key d s).1 = Ret key → has_key key (db s) = true →
  ∃ s', save_article d s = (Ret false, s') ∧ db s' = db s.
Proof.
  intros Hkey Hin.
  destruct (save_article_cases d s) as (b & s' & E & Hb).
  destruct b; [|by exists s'].
  destruct Hb as (key' & saved_at & Hkey' & Hout & _). congruence.
Qed.

End StorageProofs.

(** C5 (as amended). [save_article] never raises, a duplicate included.
    For two calls with dictionaries of the same title and the same publish
    time, where the publish time has at least 10 characters or the two
    calls get the same date from the clock: if the first call returns
    [True], the second, made while the rows of the table are still there,
    returns [False] and leaves the table as it is. *)
Theorem save_twice_same_fingerprint `{Env} :
  (∀ (d : gmap string pyval) (s : State), ∃ b s', save_article d s = (Ret b, s'))
  ∧ ∀ (d1 d2 : gmap string pyval) (pt : str) (s s1 s2 : State),
      d1 !! "title"%string = d2 !! "title"%string →
      d1 !! "publish_time"%string = Some (VStr pt) →
      d2 !! "publish_time"%string = Some (VStr pt) →
      10 ≤ length pt ∨ key_date s = key_date s2 →
      save_article d1 s = (Ret true, s1) →
      (∀ key, has_key key (db s1) = true → has_key key (db s2) = true) →
      ∃ s3, save_article d2 s2 = (Ret false, s3) ∧ db s3 = db s2.
Proof.
  split.
  - intros d s. destruct (save_article_cases d s) as (b & s' & E & _). eauto.
  - intros d1 d2 pt s s1 s2 Ht Hp1 Hp2 Hsame Hfirst Hkeep.
    destruct (save_article_cases d1 s) as (b & s' & E & Hb).
    rewrite Hfirst in E. injection E as <- <-.
    destruct Hb as (key & saved_at & Hkey & _ & Hdb).
    assert (has_key key (db s1) = true) as Hin.
    { rewrite Hdb, has_key_app. cbn. rewrite bool_decide_eq_true_2 by done.
      apply orb_true_r. }
    apply (save_article_duplicate d2 s2 key); [|by apply Hkeep].
    assert (content_hash d2 pt = content_hash d1 pt) as Eh
      by (unfold content_hash; by rewrite Ht).
    destruct (Nat.le_gt_cases 10 (length pt)) as [Hlong|Hshort].
    + rewrite (generate_key_long d1 pt s) in Hkey by done.
      rewrite (generate_key_long d2 pt s2) by done. cbn in *. congruence.
    + rewrite (generate_key_short d1 pt s) in Hkey by done.
      rewrite (generate_key_short d2 pt s2) by done. cbn in *.
      destruct Hsame as [?|Hdate]; [lia|]. congruence.
Qed.

(** Where the date does not change, the undated article is stored once. *)
Lemma save_twice_same_day :
  (save_article undated_dict (fresh_crawler nobody_scans true)).1 = Ret true
  ∧ ∃ s3,
      save_article undated_dict
        (save_article undated_dict (fresh_crawler nobody_scans true)).2
      = (Ret false, s3)
      ∧ db s3
        = db (save_article undated_dict (fresh_crawler nobody_scans true)).2.
Proof.
  split; [by vm_compute|].
  apply (proj2 (save_twice_same_fingerprint (H:=scenario_env nobody_scans))
           undated_dict undated_dict [] (fresh_crawler nobody_scans true)
           (save_article undated_dict (fresh_crawler nobody_scans true)).2
           (save_article undated_dict (fresh_crawler nobody_scans true)).2).
  - reflexivity.
  - reflexivity.
  - reflexivity.
  - right. reflexivity.
  - vm_compute. reflexivity.
  - intros key Hkey. exact Hkey.
Defined.

(** C5, the claim as stated fails: the same article, without a time stamp,
    saved before and after midnight is inserted twice. *)
Lemma save_twice_across_midnight :
  (save_article undated_dict (fresh_crawler midnight_passes true)).1 = Ret true
  ∧ (save_article undated_dict
       (save_article undated_dict (fresh_crawler midnight_passes true)).2).1
    = Ret true
  ∧ length
      (db (save_article undated_dict
             (save_article undated_dict (fresh_crawler midnight_passes true)).2).2)
    = 2.
Proof. by vm_compute. Qed.



(** ** Which exceptions leave which function *)

Section SafetyProofs.
Context `{Env} {J : State → Prop} `{!Quiet J} `{!QuietData J}.

Lemma safe_ret {A} C (a : A) : keeps J C (ret a).
Proof. apply keeps_ret. Qed.

Lemma safe_raise {A} (C : exn → Prop) e : C e → keeps J C (raise (A:=A) e).
Proof. apply keeps_raise. Qed.

Lemma safe_bind {A B} C (m : M A) (k : A → M B) :
  keeps J C m → (∀ a, keeps J C (k a)) → keeps J C (bind m k).
Proof. apply keeps_bind. Qed.

Lemma safe_try {A} (C C1 : exn → Prop) catches (m : M A) handler :
  keeps J C1 m → (∀ e, keeps J C (handler e)) →
  (∀ e, C1 e → catches e = false → C e) →
  keeps J C (try_except catches m handler).
Proof. apply keeps_try. Qed.

Lemma safe_weaken {A} (C C' : exn → Prop) (m : M A) :
  keeps J C m → (∀ e, C e → C' e) → keeps J C' m.
Proof. apply keeps_weaken. Qed.

Lemma safe_get C : keeps J C get_state.
Proof. apply keeps_get. Qed.

Lemma safe_emit C e :
  is_crawl e = false → is_save e = false → keeps J C (emit e).
Proof. intros Hc Hs. apply keeps_modify. intros s. by apply quiet_event. Qed.

Lemma safe_emit_save C l a : keeps J C (emit (EvSave l a)).
Proof. apply keeps_modify. intros s. apply quiet_save. Qed.

Lemma safe_set_is_logged_in C b : keeps J C (set_is_logged_in b).
Proof. apply keeps_modify. intros s. apply quiet_is_logged_in. Qed.

Lemma safe_set_playwright C b : keeps J C (set_playwright b).
Proof. apply keeps_modify. intros s. apply quiet_playwright. Qed.

Lemma safe_set_browser C b : keeps J C (set_browser b).
Proof. apply keeps_modify. intros s. apply quiet_browser. Qed.

Lemma safe_set_login_session C j : keeps J C (set_login_session j).
Proof. apply keeps_modify. intros s. apply quiet_login_session. Qed.

Lemma safe_set_anti_crawler_session C j : keeps J C (set_anti_crawler_session j).
Proof. apply keeps_modify. intros s. apply quiet_anti_crawler_session. Qed.

Lemma safe_set_heap C h : keeps J C (set_heap h).
Proof. apply keeps_modify. intros s. apply quiet_heap. Qed.

Lemma safe_set_db C d : keeps J C (set_db d).
Proof. apply keeps_modify. intros s. apply quiet_db. Qed.

Lemma safe_ask {A} C (op : World → A * World) : keeps J C (ask op).
Proof. apply keeps_ask. apply quiet_world. Qed.

Lemma safe_call {A} (C : exn → Prop) as_exn (op : World → res A * World) :
  (∀ msg, C (as_exn msg)) → keeps J C (call as_exn op).
Proof. apply keeps_call. apply quiet_world. Qed.

Lemma safe_lift {A} (C : exn → Prop) (r : res A) :
  (∀ msg, C (Exception msg)) → keeps J C (lift r).
Proof. apply keeps_lift. Qed.

Lemma safe_sleep C p : keeps J C (sleep p).
Proof.
  apply keeps_sleep; [apply quiet_world|]. intros s. by apply quiet_event.
Qed.

Lemma safe_read (C : exn → Prop) l : (∀ msg, C (Exception msg)) → keeps J C (read l).
Proof.
  intros HC s HJ. rewrite run_read. by destruct (heap s !! l).
Qed.

Lemma safe_update (C : exn → Prop) l f :
  (∀ msg, C (Exception msg)) → keeps J C (update l f).
Proof.
  intros HC s HJ. rewrite run_update.
  destruct (heap s !! l); [by apply quiet_heap|done].
Qed.

Lemma safe_alloc C a : keeps J C (alloc a).
Proof. intros s HJ. rewrite run_alloc. by apply quiet_heap. Qed.

Lemma safe_capture {A} C C' (m : M A) : keeps J C' m → keeps J C (capture m).
Proof.
  intros Hm s HJ. rewrite run_capture. specialize (Hm s HJ).
  destruct (m s) as [[a|e] s']; [done|by destruct Hm].
Qed.

(** What [keeps] says of one run. *)
Lemma safe_outcome {A} C (m : M A) s :
  keeps J C m → J s →
  J (m s).2 ∧ ∀ e, (m s).1 = Raise e → C e.
Proof.
  intros Hm HJ. specialize (Hm s HJ).
  destruct (m s) as [[a|e'] s']; simpl; [done|].
  destruct Hm. split; [done|]. by intros e [= <-].
Qed.

Lemma any_Exception_Exception msg : any_Exception (Exception msg).
Proof. done. Qed.

Lemma any_Exception_Request msg : any_Exception (RequestException msg).
Proof. done. Qed.

Lemma Exception_or_exit_Exception msg : Exception_or_exit (Exception msg).
Proof. by left. Qed.

Lemma Exception_or_exit_Request msg : Exception_or_exit (RequestException msg).
Proof. by left. Qed.

Lemma any_Exception_caught e : any_Exception e → is_Exception e = false → False.
Proof. unfold any_Exception. congruence. Qed.
End SafetyProofs.

(** The invariant that says nothing. *)
Lemma quiet_True `{Env} : Quiet (λ _, True).
Proof. by split. Qed.

Lemma quiet_data_True `{Env} : QuietData (λ _, True).
Proof. by split. Qed.

(** The invariant that fixes the crawls of the trace. *)
Lemma quiet_crawls `{Env} (crawls : list event) :
  Quiet (λ s, List.filter is_crawl (trace s) = crawls).
Proof.
  split; try done. intros s e He _ Hs. cbn.
  rewrite List.filter_app. cbn. rewrite He. by rewrite app_nil_r.
Qed.

Lemma quiet_data_crawls `{Env} (crawls : list event) :
  QuietData (λ s, List.filter is_crawl (trace s) = crawls).
Proof.
  split; try done. intros s l a Hs. cbn.
  rewrite List.filter_app. cbn. by rewrite app_nil_r.
Qed.

#[local] Existing Instance quiet_True.
#[local] Existing Instance quiet_data_True.
#[local] Existing Instance quiet_crawls.
#[local] Existing Instance quiet_data_crawls.

Create HintDb safe.

#[local] Hint Resolve any_Exception_Exception any_Exception_Request
  Exception_or_exit_Exception Exception_or_exit_Request : safe.
#[local] Hint Resolve safe_ret safe_get safe_ask safe_sleep safe_alloc
  safe_set_is_logged_in safe_set_playwright safe_set_browser
  safe_set_login_session safe_set_anti_crawler_session safe_set_heap
  safe_set_db : safe.

(** One structural step of a proof that a function keeps an invariant and
    lets only a class of exceptions leave. *)
Ltac safe_step :=
  lazymatch goal with
  | |- keeps _ _ (bind _ _) => apply safe_bind; [|intros ?]
  | |- keeps _ ?C (try_except _ _ _) =>
      apply (safe_try C C); [|intros ?|by intros ? ? ?]
  | |- keeps _ _ (raise _) => apply safe_raise; auto with safe
  | |- keeps _ _ (call _ _) => apply safe_call; intros ?; auto with safe
  | |- keeps _ _ (lift _) => apply safe_lift; intros ?; auto with safe
  | |- keeps _ _ (read _) => apply safe_read; intros ?; auto with safe
  | |- keeps _ _ (update _ _) => apply safe_update; intros ?; auto with safe
  | |- keeps _ _ (emit _) =>
      first [apply safe_emit; reflexivity|apply safe_emit_save]
  | |- keeps _ _ (if ?b then _ else _) => destruct b
  | |- keeps _ _ (match ?x with _ => _ end) => destruct x
  | |- keeps _ _ (let (_, _) := ?x in _) => destruct x
  | |- keeps _ _ _ => solve [auto with safe]
  end.

Ltac safe_auto := repeat safe_step.

Section SafetyOfFunctions.
Context `{Env} {J : State → Prop} `{!Quiet J}.

Lemma safe_wait_qrcode C locators : keeps J C (wait_qrcode locators).
Proof.
  induction locators as [|qr rest IH]; cbn [wait_qrcode]; [safe_auto|].
  apply safe_bind; [|intros []; [safe_auto|exact IH]].
  apply (safe_try C (λ _, True)); [|intros ?; safe_auto|done].
  apply safe_bind; [by apply safe_call|intros ?; safe_auto].
Qed.

Lemma safe_poll_login (C : exn → Prop) ticks :
  (∀ msg, C (Exception msg)) → keeps J C (poll_login ticks).
Proof.
  intros HC. induction ticks as [|ticks IH]; cbn [poll_login]; [safe_auto|].
  apply safe_bind; [safe_auto|intros _].
  apply safe_bind; [by apply safe_call|intros cookies].
  destruct (existsb is_login_cookie cookies); [safe_auto|].
  apply safe_bind.
  - apply (safe_try C (λ _, True)); [|intros ?; safe_auto|done].
    apply safe_bind; [by apply safe_call|intros ?; safe_auto].
  - intros []; [safe_auto|]. apply safe_bind; [safe_auto|by intros _].
Qed.

Lemma safe_save_login_cookies C cookies : keeps J C (save_login_cookies cookies).
Proof.
  unfold save_login_cookies.
  apply (safe_try C any_Exception); [|intros ?; safe_auto|].
  - safe_auto.
  - intros e He Hc. by destruct (any_Exception_caught e).
Qed.

Lemma safe_init_playwright (C : exn → Prop) :
  (∀ msg, C (Exception msg)) → keeps J C init_playwright.
Proof.
  intros HC. unfold init_playwright.
  apply safe_bind; [safe_auto|intros s]. destruct (playwright s); [safe_auto|].
  repeat (apply safe_bind; [first [by apply safe_call|safe_auto]|intros ?]).
  safe_auto.
Qed.

Lemma safe_handshake (C : exn → Prop) :
  (∀ msg, C (Exception msg)) → keeps J C handshake.
Proof.
  intros HC. unfold handshake.
  apply safe_bind; [safe_auto|intros s].
  apply safe_bind; [destruct (browser s); [safe_auto|by apply safe_raise]|intros _].
  apply safe_bind; [by apply safe_call|intros _].
  apply safe_bind; [apply safe_wait_qrcode|intros _].
  apply safe_bind; [by apply safe_poll_login|intros []; [|safe_auto]].
  apply safe_bind; [by apply safe_call|intros cookies].
  apply safe_bind; [apply safe_save_login_cookies|intros _].
  apply safe_bind; [safe_auto|intros s'].
  apply safe_bind; [destruct (use_anti_crawler s'); safe_auto|intros _].
  apply safe_bind; [by apply safe_call|intros _]. safe_auto.
Qed.

Lemma safe_login (C : exn → Prop) force_login :
  (∀ msg, C (Exception msg)) → keeps J C (login force_login).
Proof.
  intros HC. unfold login, playwright_login.
  apply safe_bind; [safe_auto|intros s].
  destruct (is_logged_in s && negb force_login); [safe_auto|].
  apply safe_bind; [safe_auto|intros _].
  apply safe_bind; [by apply safe_init_playwright|intros _].
  apply (safe_try C C); [by apply safe_handshake|intros ?; safe_auto|done].
Qed.
End SafetyOfFunctions.

Section SafetyOfPipeline.
Context `{Env} {J : State → Prop} `{!Quiet J} `{!QuietData J}.

Lemma safe_session_get (C : exn → Prop) req :
  (∀ msg, C (RequestException msg)) → keeps J C (session_get req).
Proof.
  intros HC. unfold session_get. apply safe_bind; [safe_auto|intros s].
  destruct (use_anti_crawler s); by apply safe_call.
Qed.

Lemma safe_raise_for_status (C : exn → Prop) r :
  (∀ msg, C (RequestException msg)) → keeps J C (raise_for_status r).
Proof.
  intros HC. unfold raise_for_status.
  destruct (_ && _); [by apply safe_raise|safe_auto].
Qed.

(** No exception leaves [get_real_wechat_url]. *)
Lemma safe_get_real_wechat_url C sogou_url : keeps J C (get_real_wechat_url sogou_url).
Proof.
  unfold get_real_wechat_url.
  apply (safe_try C (λ e, is_RequestException e = true));
    [|intros ?; safe_auto|intros e He Hc; congruence].
  apply safe_bind; [by apply safe_session_get|intros r].
  apply safe_bind; [by apply safe_raise_for_status|intros _].
  safe_auto.
Qed.

(** No exception leaves [fetch_article_content]. *)
Lemma safe_fetch_article_content C url : keeps J C (fetch_article_content url).
Proof.
  unfold fetch_article_content.
  apply (safe_try C any_Exception);
    [|intros ?; safe_auto|intros e He Hc; by destruct (any_Exception_caught e)].
  apply safe_bind; [by apply safe_session_get|intros r].
  apply safe_bind; [by apply safe_raise_for_status|intros _].
  apply safe_bind; [by apply safe_lift|intros soup]. safe_auto.
Qed.

Lemma safe_parse_items (C : exn → Prop) news_items articles :
  (∀ msg, C (Exception msg)) → keeps J C (parse_items news_items articles).
Proof.
  intros HC. revert articles.
  induction news_items as [|it rest IH]; intros articles; cbn [parse_items];
    [safe_auto|].
  apply safe_bind; [safe_auto|intros now].
  apply safe_bind; [by apply safe_lift|intros [a|]]; [|apply IH].
  apply safe_bind; [safe_auto|intros l]. apply IH.
Qed.

Lemma safe_search_articles (C : exn → Prop) query page :
  (∀ msg, C (Exception msg)) → keeps J C (search_articles query page).
Proof.
  intros HC. unfold search_articles, _parse_search_results.
  apply (safe_try C (λ e, C e ∨ is_RequestException e = true));
    [|intros ?; safe_auto|intros e [?|?] Hc; [done|congruence]].
  apply safe_bind; [apply safe_session_get; by right|intros _].
  apply safe_bind; [safe_auto|intros _].
  apply safe_bind; [apply safe_session_get; by right|intros r].
  apply safe_bind; [apply safe_raise_for_status; by right|intros _].
  apply safe_bind; [|intros ?; safe_auto].
  apply (safe_weaken C); [by apply safe_parse_items|by left].
Qed.

(** No exception leaves [load_wechat_accounts]. *)
Lemma safe_load_wechat_accounts C : keeps J C load_wechat_accounts.
Proof.
  unfold load_wechat_accounts.
  apply (safe_try C any_Exception);
    [|intros ?; safe_auto|intros e He Hc; by destruct (any_Exception_caught e)].
  apply safe_bind; [by apply safe_call|intros [lines|]]; safe_auto.
Qed.

(** No exception leaves [save_article]. *)
Lemma safe_generate_object_key (C : exn → Prop) d :
  (∀ msg, C (Exception msg)) → keeps J C (_generate_object_key d).
Proof.
  intros HC. unfold _generate_object_key.
  apply safe_bind; [safe_auto|intros now].
  destruct (default _ (d !! "publish_time"%string)) as [pt|b];
    [|by apply safe_raise].
  apply safe_bind; [|intros ?; safe_auto].
  destruct (10 <=? length pt); safe_auto.
Qed.

Lemma safe_save_article C d : keeps J C (save_article d).
Proof.
  unfold save_article.
  apply (safe_try C any_Exception);
    [|intros ?; safe_auto|intros e He Hc; by destruct (any_Exception_caught e)].
  apply safe_bind; [by apply safe_generate_object_key|intros key].
  apply safe_bind; [safe_auto|intros now].
  apply safe_bind; [by apply safe_call|intros _].
  apply safe_bind; [safe_auto|intros s].
  destruct (has_key key (db s)); safe_auto.
Qed.

(** No exception leaves [save_article_to_storage]. *)
Lemma safe_save_article_to_storage C l : keeps J C (save_article_to_storage l).
Proof.
  unfold save_article_to_storage.
  apply (safe_try C any_Exception);
    [|intros ?; safe_auto|intros e He Hc; by destruct (any_Exception_caught e)].
  apply safe_bind; [by apply safe_read|intros a].
  apply safe_bind; [safe_auto|intros _].
  apply safe_bind; [safe_auto|intros s].
  apply safe_bind; [apply safe_save_article|intros []; safe_auto].
Qed.

Lemma safe_process_article (C : exn → Prop) l :
  (∀ msg, C (Exception msg)) → keeps J C (process_article l).
Proof.
  intros HC. unfold process_article.
  apply safe_bind; [by apply safe_read|intros a].
  destruct (nonempty (sogou_url a)); [|safe_auto].
  apply safe_bind; [apply safe_get_real_wechat_url|intros r].
  apply safe_bind; [safe_auto|intros _].
  apply safe_bind; [destruct r; by apply safe_update|intros _].
  safe_auto.
Qed.

Lemma safe_fetch_content (C : exn → Prop) l :
  (∀ msg, C (Exception msg)) → keeps J C (fetch_content l).
Proof.
  intros HC. unfold fetch_content.
  apply safe_bind; [by apply safe_read|intros a].
  destruct (_ && _); [|safe_auto].
  apply safe_bind; [apply safe_fetch_article_content|intros r].
  apply safe_bind; [safe_auto|intros _].
  apply safe_bind; [by apply safe_update|intros _].
  apply safe_bind; [|intros _; safe_auto].
  destruct (result_success r); [|safe_auto].
  apply safe_bind; [apply safe_save_article_to_storage|intros ?; safe_auto].
Qed.
End SafetyOfPipeline.

Section SafetyOfBatches.
Context `{Env} {J : State → Prop} `{!Quiet J} `{!QuietData J}.

(** The pool itself never raises: what a task raises waits in its future. *)
Lemma run_pool_futures {A B} (C : exn → Prop) max_workers (worker : A → M B) :
  (∀ a, keeps J C (worker a)) →
  ∀ fuel pending futures s,
    J s →
    (∀ i e, futures !! i = Some (Raise e) → C e) →
    ∃ fs s',
      run_pool max_workers fuel worker pending futures s = (Ret fs, s')
      ∧ J s'
      ∧ (∀ i e, fs !! i = Some (Raise e) → C e).
Proof.
  intros Hw. induction fuel as [|fuel IH]; intros pending futures s HJ Hf.
  - by exists futures, s.
  - cbn [run_pool]. run.
    destruct (pending !! _) as [[i a]|]; run.
    2:{ eexists _, _. split; [done|]. split; [by apply quiet_world|done]. }
    destruct (safe_outcome C (worker a)
                (with_world (pool_pick max_workers (length pending) (world s)).2 s)
                (Hw a) (quiet_world _ _ HJ)) as [HJ' Hexc].
    apply IH; [done|].
    intros j e. destruct (decide (i = j)) as [->|Hne].
    + rewrite lookup_insert_eq. intros [= E]. by apply Hexc.
    + rewrite lookup_insert_ne by done. apply Hf.
Qed.

Lemma safe_collect {B} (C : exn → Prop) (futures : gmap nat (outcome B)) indices :
  (∀ msg, C (Exception msg)) →
  (∀ i e, futures !! i = Some (Raise e) → C e) →
  keeps J C (collect futures indices).
Proof.
  intros HC Hf. induction indices as [|i rest IH]; cbn [collect]; [safe_auto|].
  destruct (futures !! i) as [[b|e]|] eqn:E.
  - apply safe_bind; [exact IH|intros ?; safe_auto].
  - apply safe_raise. by eapply Hf.
  - by apply safe_raise.
Qed.

Lemma safe_executor_map {A B} (C : exn → Prop) max_workers (worker : A → M B) items :
  (∀ msg, C (Exception msg)) → (∀ a, keeps J C (worker a)) →
  keeps J C (executor_map max_workers worker items).
Proof.
  intros HC Hw s HJ. unfold executor_map. run.
  destruct (run_pool_futures C max_workers worker Hw (length items)
              (imap (λ i a, (i, a)) items) ∅ s HJ) as (fs & s' & -> & HJ' & Hfs);
    [by intros i e; rewrite lookup_empty|].
  by apply safe_collect.
Qed.

Lemma safe_get_real_urls_batch (C : exn → Prop) articles max_workers :
  (∀ msg, C (Exception msg)) → keeps J C (get_real_urls_batch articles max_workers).
Proof.
  intros HC. apply safe_executor_map; [done|].
  intros l. by apply safe_process_article.
Qed.

Lemma safe_fetch_contents_batch (C : exn → Prop) articles max_workers :
  (∀ msg, C (Exception msg)) → keeps J C (fetch_contents_batch articles max_workers).
Proof.
  intros HC. unfold fetch_contents_batch.
  apply safe_bind; [safe_auto|intros s].
  destruct (List.filter _ _) as [|l valid]; [safe_auto|].
  apply safe_bind; [|intros ?; safe_auto].
  apply safe_executor_map; [done|]. intros l'. by apply safe_fetch_content.
Qed.

Lemma safe_invalidate_session (C : exn → Prop) :
  (∀ msg, C (Exception msg)) → keeps J C invalidate_session.
Proof.
  intros HC. unfold invalidate_session.
  apply safe_bind; [safe_auto|intros _].
  apply safe_bind; [safe_auto|intros cookie_file].
  apply safe_bind; [destruct cookie_file; [by apply safe_call|safe_auto]|intros _].
  safe_auto.
Qed.

Lemma safe_recover_session query page :
  keeps J Exception_or_exit (recover_session query page).
Proof.
  unfold recover_session.
  apply safe_bind; [apply safe_invalidate_session; by left|intros _].
  apply safe_bind; [apply safe_login; by left|intros []]; [|safe_auto].
  apply safe_bind; [apply safe_search_articles; by left|intros [|l articles]].
  - apply safe_raise. by right.
  - safe_auto.
Qed.

(** Nothing but [SystemExit(0)] leaves [crawl_and_extract]; of the
    invariant only the crawl that is noted changes. *)
Lemma crawl_and_extract_triple (J0 : State → Prop) query page get_real_urls
    fetch_content :
  (∀ s, J0 s → J (with_events [EvCrawl query page] s)) →
  triple J0 (crawl_and_extract query page get_real_urls fetch_content)
    (λ _, J) (λ e s, e = SystemExit 0 ∧ J s).
Proof.
  intros Hcrawl. unfold crawl_and_extract.
  apply (triple_bind _ _ _ (λ _, J)); [by apply triple_modify|intros _].
  apply (safe_try _ Exception_or_exit); [|intros ?; safe_auto|].
  2:{ intros e [He| ->] Hc; [congruence|done]. }
  apply safe_bind; [safe_auto|intros s].
  apply safe_bind;
    [destruct (negb (is_logged_in s)); [apply safe_login; by left|safe_auto]
    |intros logged_in].
  destruct (negb logged_in); [safe_auto|].
  apply safe_bind; [apply safe_search_articles; by left|intros articles].
  apply safe_bind;
    [destruct articles; [apply safe_recover_session|safe_auto]|intros [found|early]];
    [|safe_auto].
  apply safe_bind;
    [destruct get_real_urls; [apply safe_get_real_urls_batch; by left|safe_auto]
    |intros resolved].
  apply safe_bind;
    [destruct (fetch_content && get_real_urls);
       [apply safe_fetch_contents_batch; by left|safe_auto]
    |intros fetched].
  safe_auto.
Qed.
End SafetyOfBatches.

Section DrivingLoop.
Context `{Env}.

(** One call of [crawl_and_extract] notes one crawl, and nothing but
    [SystemExit(0)] leaves it. *)
Lemma crawl_and_extract_crawls query page get_real_urls fetch_content s :
  List.filter is_crawl
    (trace (crawl_and_extract query page get_real_urls fetch_content s).2)
  = List.filter is_crawl (trace s) ++ [EvCrawl query page]
  ∧ ∀ e, (crawl_and_extract query page get_real_urls fetch_content s).1 = Raise e →
         e = SystemExit 0.
Proof.
  pose proof (crawl_and_extract_triple
                (J:=λ s', List.filter is_crawl (trace s')
                          = List.filter is_crawl (trace s) ++ [EvCrawl query page])
                (λ s', List.filter is_crawl (trace s') = List.filter is_crawl (trace s))
                query page get_real_urls fetch_content) as Ht.
  specialize (Ht ltac:(intros s' Hs'; cbn; rewrite List.filter_app, Hs'; done)
                s eq_refl).
  destruct (crawl_and_extract _ _ _ _ s) as [[r|e] s']; cbn.
  - split; [done|]. by intros e.
  - destruct Ht as [-> Ht]. split; [done|]. by intros e [= <-].
Qed.

(** The pages of one account: each page of the list is crawled, in order,
    whatever the results, and each adds its entry for this account; only
    [SystemExit(0)] ends the loop early. *)
Lemma crawl_pages_crawls name pages page get_real_urls fetch_content :
  ∀ all_results s,
    match crawl_pages name pages page get_real_urls fetch_content all_results s with
    | (Ret results, s') =>
        List.filter is_crawl (trace s')
        = List.filter is_crawl (trace s) ++ map (EvCrawl name) pages
        ∧ map account results
          = map account all_results ++ map (λ _, name) pages
    | (Raise e, s') =>
        e = SystemExit 0
        ∧ ∃ k, k < length pages
            ∧ List.filter is_crawl (trace s')
              = List.filter is_crawl (trace s)
                ++ map (EvCrawl name) (take (S k) pages)
    end.
Proof.
  induction pages as [|p rest IH]; intros all_results s.
  - cbn [crawl_pages]. run. cbn. by rewrite !app_nil_r.
  - cbn [crawl_pages]. run.
    destruct (crawl_and_extract_crawls name p get_real_urls fetch_content s)
      as [Htr Hexc].
    destruct (crawl_and_extract name p get_real_urls fetch_content s)
      as [[r|e] s1]; simpl in Htr, Hexc; run.
    + assert (∃ s2, (if (p <? page)%Z then sleep (Uniform 3 5) else ret ()) s1
                    = (Ret (), s2)
                    ∧ List.filter is_crawl (trace s2)
                      = List.filter is_crawl (trace s) ++ [EvCrawl name p])
        as (s2 & -> & Htr2).
      { destruct (p <? page)%Z; eexists; (split; [reflexivity|]); [|done].
        cbn. rewrite List.filter_app, Htr. cbn. by rewrite app_nil_r. }
      run.
      specialize (IH (all_results ++ [{| account := name; result := r |}]) s2).
      destruct (crawl_pages name rest _ _ _ _ s2) as [[results|e] s'].
      * destruct IH as [Hf Ha]. rewrite Hf, Htr2, Ha, map_app, <- !app_assoc.
        done.
      * destruct IH as [-> (k & Hk & Hf)]. split; [done|].
        exists (S k). split; [cbn; lia|].
        rewrite Hf, Htr2, <- app_assoc. done.
    + rewrite (Hexc e eq_refl). run. split; [done|].
      exists 0. split; [cbn; lia|]. by rewrite Htr.
Qed.
End DrivingLoop.


(** C1 (as amended). [crawl_and_extract] either returns a result with its
    [success] and [message], or raises [SystemExit(0)] and nothing else;
    it raises it when it is logged in, the search finds nothing, the login
    that follows succeeds and the second search finds nothing again. The
    driving loop does not intercept it: once its first login has returned,
    [crawl_all_configured_accounts] either returns a result or lets
    [SystemExit(0)] through. *)
Theorem pipeline_outcomes `{Env} :
  (∀ query page get_real_urls fetch_content s,
     (∃ r, (crawl_and_extract query page get_real_urls fetch_content s).1 = Ret r)
     ∨ (crawl_and_extract query page get_real_urls fetch_content s).1
       = Raise (SystemExit 0))
  ∧ (∀ query page get_real_urls fetch_content s s0 s1 s2 s3,
       is_logged_in s = true →
       search_articles query page (with_events [EvCrawl query page] s)
       = (Ret [], s0) →
       invalidate_session s0 = (Ret (), s1) →
       login true s1 = (Ret true, s2) →
       search_articles query page s2 = (Ret [], s3) →
       crawl_and_extract query page get_real_urls fetch_content s
       = (Raise (SystemExit 0), s3))
  ∧ (∀ account p rest page get_real_urls fetch_content all_results s s',
       crawl_and_extract account p get_real_urls fetch_content s
       = (Raise (SystemExit 0), s') →
       crawl_pages account (p :: rest) page get_real_urls fetch_content
         all_results s
       = (Raise (SystemExit 0), s'))
  ∧ (∀ get_real_urls fetch_content page s,
       is_logged_in s = true ∨ (∃ b, (login false s).1 = Ret b) →
       (∃ r, (crawl_all_configured_accounts get_real_urls fetch_content page s).1
             = Ret (Some r))
       ∨ (crawl_all_configured_accounts get_real_urls fetch_content page s).1
         = Raise (SystemExit 0)).
Proof.
  split_and!.
  - intros query page g f s.
    destruct (crawl_and_extract_crawls query page g f s) as [_ Hs].
    destruct (crawl_and_extract query page g f s) as [[r|e] s'];
      [left; by exists r|right]. by rewrite (Hs e eq_refl).
  - intros query page g f s s0 s1 s2 s3 Hin E0 E1 E2 E3.
    unfold crawl_and_extract. run. rewrite Hin. run. rewrite E0. run.
    unfold recover_session. run. rewrite E1. run. rewrite E2. run.
    rewrite E3. by run.
  - intros account p rest page g f all_results s s' E.
    cbn [crawl_pages]. run. rewrite E. by run.
  - intros g f page s Hlogin.
    unfold crawl_all_configured_accounts. run.
    assert (∀ s1,
      (∃ r, ((accounts <- load_wechat_accounts ;;
              match accounts with
              | [] => ret (Some {| all_success := false;
                                   all_message := MsgNoAccounts;
                                   all_data := [] |})
              | _ :: _ => for_accounts accounts accounts page g f []
              end) s1).1 = Ret (Some r))
      ∨ ((accounts <- load_wechat_accounts ;;
          match accounts with
          | [] => ret (Some {| all_success := false;
                               all_message := MsgNoAccounts;
                               all_data := [] |})
          | _ :: _ => for_accounts accounts accounts page g f []
          end) s1).1 = Raise (SystemExit 0)) as Hrest.
    { intros s1. run.
      pose proof (safe_load_wechat_accounts (J:=λ _, True) (λ _, False) s1 I)
        as Hl.
      destruct (load_wechat_accounts s1) as [[accounts|e] s2]; [|by destruct Hl].
      run. destruct accounts as [|name todo]; run; [left; by eexists|].
      unfold for_accounts. run.
      pose proof (crawl_pages_crawls name (page_range (default 3000%Z page))
                    (default 3000%Z page) g f [] s2) as Hp.
      destruct (crawl_pages _ _ _ _ _ _ _) as [[all_results|e] s']; run.
      - left. by eexists.
      - right. by destruct Hp as [-> _]. }
    destruct (is_logged_in s) eqn:Hin; run; [apply Hrest|].
    destruct Hlogin as [?|[b Hb]]; [done|].
    destruct (login false s) as [[b'|e] s1]; simpl in Hb; [|done]. run.
    destruct b'; run; [apply Hrest|]. left. by eexists.
Qed.

(** C1, the claim as stated fails: with a session that is dead for good,
    [crawl_and_extract] ends in [sys.exit(0)], and so does the driving
    loop. *)
Lemma crawl_exits_the_process :
  (crawl_and_extract [97%N] 67 true true (fresh_crawler dead_session true)).1
  = Raise (SystemExit 0)
  ∧ (crawl_all_configured_accounts true true None
       (fresh_crawler dead_session true)).1
    = Raise (SystemExit 0).
Proof. by vm_compute. Qed.

(** ** The driving loop *)

(** What the loop over the accounts does, whatever accounts follow the
    first: it crawls the pages [range(67, page)] of the first account,
    each of them whatever the result of the one before, and returns; or
    [SystemExit(0)] ends it. No other account is crawled. *)
Lemma for_accounts_first_only `{Env} (accounts : list str) (name : str)
    (todo : list str) page get_real_urls fetch_content s :
  match for_accounts accounts (name :: todo) page get_real_urls fetch_content [] s with
  | (Ret r, s') =>
      List.filter is_crawl (trace s')
      = List.filter is_crawl (trace s)
        ++ map (EvCrawl name) (page_range (default 3000%Z page))
      ∧ ∃ r', r = Some r'
          ∧ all_message r' = MsgDone (length accounts)
          ∧ map account (all_data r')
            = map (λ _, name) (page_range (default 3000%Z page))
  | (Raise e, s') =>
      e = SystemExit 0
      ∧ ∃ k, List.filter is_crawl (trace s')
             = List.filter is_crawl (trace s)
               ++ map (EvCrawl name) (take (S k) (page_range (default 3000%Z page)))
  end.
Proof.
  unfold for_accounts. run.
  pose proof (crawl_pages_crawls name (page_range (default 3000%Z page))
                (default 3000%Z page) get_real_urls fetch_content [] s) as Hp.
  destruct (crawl_pages _ _ _ _ _ _ _) as [[all_results|e] s']; run.
  - destruct Hp as [Hf Ha]. split; [done|]. eexists. by split_and!.
  - destruct Hp as [-> (k & _ & Hf)]. split; [done|]. by exists k.
Qed.

(** C3, the code at the failing input: with the accounts [a] and [b]
    configured and [page=70], the pages 67, 68 and 69 of [a] are crawled
    and the function returns, reporting 2 accounts; [b] is never crawled. *)
Lemma second_account_never_crawled :
  List.filter is_crawl
    (trace (crawl_all_configured_accounts true true (Some 70%Z)
              (fresh_crawler two_accounts true)).2)
  = [EvCrawl account_a 67; EvCrawl account_a 68; EvCrawl account_a 69]
  ∧ match (crawl_all_configured_accounts true true (Some 70%Z)
             (fresh_crawler two_accounts true)).1 with
    | Ret (Some r) =>
        all_message r = MsgDone 2
        ∧ map account (all_data r) = [account_a; account_a; account_a]
    | _ => False
    end.
Proof. by vm_compute. Qed.

(** ** BatchRunner *)

Section PoolProofs.
Context `{Env}.

(** Whatever the scheduler picks, the pool runs every pending task once:
    its run is the run of the tasks in some order. *)
Lemma run_pool_order {A B} max_workers (worker : A → M B) fuel :
  ∀ pending futures s,
    fuel = length pending →
    ∃ order,
      order ≡ₚ pending
      ∧ run_pool max_workers fuel worker pending futures s
        = run_seq max_workers worker order futures s.
Proof.
  induction fuel as [|fuel IH]; intros pending futures s Hlen.
  - destruct pending; [|done]. by exists [].
  - cbn [run_pool]. run.
    set (k := (pool_pick max_workers (length pending) (world s)).1).
    set (w := (pool_pick max_workers (length pending) (world s)).2).
    assert (k `mod` length pending < length pending) as Hlt
      by (apply Nat.mod_upper_bound; lia).
    destruct (lookup_lt_is_Some_2 pending _ Hlt) as [[i a] Hia].
    rewrite Hia. run.
    destruct (IH (delete (k `mod` length pending) pending)
                (<[i := (worker a (with_world w s)).1]> futures)
                (worker a (with_world w s)).2) as (order & Hperm & E).
    { rewrite length_delete by eauto. lia. }
    exists ((i, a) :: order). split.
    + rewrite Hperm. symmetry. by apply delete_Permutation.
    + rewrite E. cbn [run_seq]. run.
      assert (length ((i, a) :: order) = length pending) as ->.
      { cbn. rewrite Hperm, length_delete by eauto. lia. }
      done.
Qed.

(** Tasks that return and keep an invariant, run in any order. *)
Lemma run_seq_spec {A B} (Inv : list A → State → Prop) (Valid : A → Prop)
    (out : A → B) max_workers (worker : A → M B) :
  (∀ done s w, Inv done s → Inv done (with_world w s)) →
  (∀ done a, Valid a →
     triple (Inv done) (worker a)
       (λ b s', b = out a ∧ Inv (a :: done) s') (λ _ _, False)) →
  ∀ order done futures s,
    Forall (λ ia, Valid ia.2) order → Inv done s →
    ∃ s',
      run_seq max_workers worker order futures s
      = (Ret (foldl (λ f ia, <[ia.1 := Ret (out ia.2)]> f) futures order), s')
      ∧ Inv (rev (order.*2) ++ done) s'.
Proof.
  intros Hworld Hworker. induction order as [|[i a] rest IH];
    intros done futures s Hvalid HInv.
  - by exists s.
  - apply Forall_cons in Hvalid as [Ha Hrest]. cbn [run_seq]. run.
    pose proof (Hworker done a Ha _
                  (Hworld done s
                     (pool_pick max_workers (length ((i, a) :: rest)) (world s)).2
                     HInv)) as Hw.
    destruct (worker a _) as [[b|e] s1]; [|done]. destruct Hw as [-> HInv1]. run.
    destruct (IH (a :: done) (<[i := Ret (out a)]> futures) s1 Hrest HInv1)
      as (s' & -> & HInv'). exists s'. split; [done|].
    cbn [fmap list_fmap rev snd]. by rewrite <- app_assoc.
Qed.

Lemma futures_other {A B} (out : A → B) (order : list (nat * A))
    (futures : gmap nat (outcome B)) i :
  i ∉ order.*1 →
  foldl (λ f ia, <[ia.1 := Ret (out ia.2)]> f) futures order !! i = futures !! i.
Proof.
  revert futures. induction order as [|[j b] rest IH]; intros futures Hi; [done|].
  cbn in *. apply not_elem_of_cons in Hi as [Hne Hi].
  rewrite IH by done. by rewrite lookup_insert_ne.
Qed.

Lemma futures_lookup {A B} (out : A → B) (order : list (nat * A))
    (futures : gmap nat (outcome B)) i a :
  NoDup (order.*1) → (i, a) ∈ order →
  foldl (λ f ia, <[ia.1 := Ret (out ia.2)]> f) futures order !! i
  = Some (Ret (out a)).
Proof.
  revert futures. induction order as [|[j b] rest IH]; intros futures Hnd Hin.
  - by apply elem_of_nil in Hin.
  - cbn in *. apply NoDup_cons in Hnd as [Hj Hnd].
    apply elem_of_cons in Hin as [[= -> ->]|Hin].
    + rewrite futures_other by done. by rewrite lookup_insert_eq.
    + by apply IH.
Qed.

Lemma collect_ok {B} (futures : gmap nat (outcome B)) (bs : list B) k s :
  (∀ i b, bs !! i = Some b → futures !! (k + i) = Some (Ret b)) →
  collect futures (seq k (length bs)) s = (Ret bs, s).
Proof.
  revert k. induction bs as [|b bs IH]; intros k Hf; [done|].
  cbn [length seq collect].
  assert (futures !! k = Some (Ret b)) as ->
    by (rewrite <- (Nat.add_0_r k); by apply (Hf 0 b)).
  run.
  rewrite IH; [by run|]. intros i b' Hi.
  replace (S k + i) with (k + S i) by lia. by apply Hf.
Qed.

Lemma imap_index_fst {A} (items : list A) k :
  (imap (λ i a, (k + i, a)) items).*1 = seq k (length items).
Proof.
  revert k. induction items as [|a items IH]; intros k; [done|].
  cbn. rewrite Nat.add_0_r. f_equal.
  rewrite <- (IH (S k)). f_equal. apply imap_ext. intros i b _. cbn.
  f_equal. lia.
Qed.

Lemma imap_index_snd {A} (items : list A) k :
  (imap (λ i a, (k + i, a)) items).*2 = items.
Proof.
  revert k. induction items as [|a items IH]; intros k; [done|].
  cbn. f_equal. rewrite <- (IH (S k)) at 2. f_equal.
  apply imap_ext. intros i b _. cbn. f_equal. lia.
Qed.

Lemma imap_pair_fst {A} (items : list A) :
  (imap (λ i a, (i, a)) items).*1 = seq 0 (length items).
Proof. exact (imap_index_fst items 0). Qed.

Lemma imap_pair_snd {A} (items : list A) :
  (imap (λ i a, (i, a)) items).*2 = items.
Proof. exact (imap_index_snd items 0). Qed.

(** [executor.map]: when every task returns and keeps the invariant, the
    results come back in the order of the inputs, whatever the order in
    which the tasks ran, and every input has been processed. *)
Lemma executor_map_spec {A B} (Inv : list A → State → Prop) (Valid : A → Prop)
    (out : A → B) max_workers (worker : A → M B) items s :
  (∀ done s w, Inv done s → Inv done (with_world w s)) →
  (∀ done a, Valid a →
     triple (Inv done) (worker a)
       (λ b s', b = out a ∧ Inv (a :: done) s') (λ _ _, False)) →
  Forall Valid items → Inv [] s →
  ∃ s' done,
    executor_map max_workers worker items s = (Ret (map out items), s')
    ∧ Inv done s' ∧ done ≡ₚ items.
Proof.
  intros Hworld Hworker Hvalid HInv. unfold executor_map. run.
  destruct (run_pool_order max_workers worker (length items)
              (imap (λ i a, (i, a)) items) ∅ s) as (order & Hperm & ->);
    [by rewrite length_imap|].
  destruct (run_seq_spec Inv Valid out max_workers worker Hworld Hworker
              order [] ∅ s) as (s' & -> & HInv'); [|done|].
  { rewrite Hperm. apply Forall_forall. intros [i a] Hin.
    apply elem_of_lookup_imap in Hin as (i' & a' & [= -> ->] & Hi).
    rewrite Forall_forall in Hvalid. apply Hvalid.
    by eapply list_elem_of_lookup_2. }
  run. exists s', (rev (order.*2) ++ []). split_and!; [|done|].
  - rewrite <- (length_map out items). apply collect_ok.
    intros i b Hi. rewrite list_lookup_fmap in Hi.
    destruct (items !! i) as [a|] eqn:Ea; [|done]. injection Hi as <-.
    cbn. apply futures_lookup.
    + rewrite Hperm, imap_pair_fst. apply NoDup_seq.
    + rewrite Hperm. apply elem_of_lookup_imap. eauto.
  - rewrite app_nil_r, <- Permutation_rev, Hperm.
    by rewrite imap_pair_snd.
Qed.
End PoolProofs.

Section WorkerProofs.
Context `{Env}.

Lemma session_get_shape req s :
  ∃ o w, session_get req s = (o, with_world w s)
         ∧ ∀ e, o = Raise e → is_RequestException e = true.
Proof.
  unfold session_get. run. destruct (use_anti_crawler s); run.
  - destruct (http_get true _ req (world s)) as [[r|msg] w]; run;
      eexists _, _; (split; [done|]); [done|by intros e [= <-]].
  - destruct (http_get false _ req (world s)) as [[r|msg] w]; run;
      eexists _, _; (split; [done|]); [done|by intros e [= <-]].
Qed.

(** [get_real_wechat_url] returns, and only the world has changed. *)
Lemma get_real_wechat_url_shape url s :
  ∃ r w, get_real_wechat_url url s = (Ret r, with_world w s).
Proof.
  unfold get_real_wechat_url. run.
  destruct (session_get_shape (GetUrl url) s) as (o & w & -> & Ho).
  destruct o as [r|e]; run.
  2:{ rewrite (Ho e eq_refl). run. by eexists _, _. }
  unfold raise_for_status. destruct (_ && _); run; [by eexists _, _|].
  destruct (extract_real_url (text r)) as [u|]; run; [|by eexists _, _].
  destruct (nonempty u); run; by eexists _, _.
Qed.

(** [fetch_article_content] returns, and only the world has changed. *)
Lemma fetch_article_content_shape url s :
  ∃ r w, fetch_article_content url s = (Ret r, with_world w s).
Proof.
  unfold fetch_article_content. run.
  destruct (session_get_shape (GetUrl url) s) as (o & w & -> & Ho).
  destruct o as [r|e]; run.
  2:{ destruct e; try (by specialize (Ho _ eq_refl)). run. by eexists _, _. }
  unfold raise_for_status. destruct (_ && _); run; [by eexists _, _|].
  destruct (article_soup (text r)) as [soup|msg]; run; [|by eexists _, _].
  destruct (extract_article_text soup). run. by eexists _, _.
Qed.

Lemma generate_key_shape (d : gmap string pyval) s :
  ∃ o w, _generate_object_key d s = (o, with_world w s)
         ∧ ∀ e, o = Raise e → is_Exception e = true.
Proof.
  unfold _generate_object_key. run.
  destruct (default _ (d !! "publish_time"%string)) as [pt|b]; run.
  - destruct (10 <=? length pt); run; eexists _, _; (split; [done|done]).
  - eexists _, _. split; [done|]. by intros e [= <-].
Qed.

(** [save_article] returns; the world has changed, and the table is as
    before or has one row more, bound from the dictionary. *)
Lemma save_article_shape (d : gmap string pyval) s :
  ∃ b w d',
    save_article d s = (Ret b, with_db d' (with_world w s))
    ∧ (d' = db s
       ∨ ∃ key saved_at,
           d' = db s ++ [{| object_key := key;
                            row_values := bound_values d saved_at |}]).
Proof.
  unfold save_article. run.
  destruct (generate_key_shape d s) as (o & w & -> & Ho).
  destruct o as [key|e]; run.
  2:{ rewrite (Ho e eq_refl). run. exists false, w, (db s).
      split; [f_equal; state_eq|by left]. }
  destruct (sqlite_transaction _) as [[[]|msg] w']; run.
  2:{ eexists false, _, (db s). split; [f_equal; state_eq|by left]. }
  destruct (has_key key (db s)); run.
  - eexists false, _, (db s). split; [f_equal; state_eq|by left].
  - unfold set_db. run. eexists true, _, _. split; [f_equal; state_eq|].
    right. by eexists _, _.
Qed.

Lemma save_article_to_storage_shape l a s :
  heap s !! l = Some a →
  ∃ b w d',
    save_article_to_storage l s
    = (Ret b, with_db d' (with_world w (with_events [EvSave l a] s)))
    ∧ stored a (keyword s) (db s) d'.
Proof.
  intros Hl. unfold save_article_to_storage. run. rewrite Hl. run.
  edestruct (save_article_shape (article_dict a (keyword s)))
    as (b & w & d' & -> & Hd).
  run. exists b, w, d'. split; [by destruct b|]. exact Hd.
Qed.

(** What [process_article] does to an article. *)
Lemma process_article_shape l a s :
  heap s !! l = Some a →
  (nonempty (sogou_url a) = false ∧ process_article l s = (Ret l, s))
  ∨ (nonempty (sogou_url a) = true
     ∧ ∃ r w, process_article l s = (Ret l, resolved_state l a r w s)).
Proof.
  intros Hl. unfold process_article. run. rewrite Hl. run.
  destruct (nonempty (sogou_url a)); run; [right|left; by split].
  split; [done|].
  destruct (get_real_wechat_url_shape (sogou_url a) s) as (r & w & ->). run.
  exists r, (sleeping (Seconds 1) w).
  destruct r; run; rewrite Hl; run; f_equal; unfold resolved_state; state_eq.
Qed.

(** What [fetch_content] does to an article. *)
Lemma fetch_content_shape l a s :
  heap s !! l = Some a →
  (nonempty (real_url a) && success a = false ∧ fetch_content l s = (Ret l, s))
  ∨ (nonempty (real_url a) && success a = true
     ∧ ∃ r d w,
         fetch_content l s = (Ret l, fetched_state l a r d w s)
         ∧ stored (set_content r a) (keyword s) (db s) d
         ∧ (result_success r = false → d = db s)).
Proof.
  intros Hl. unfold fetch_content. run. rewrite Hl. run.
  destruct (nonempty (real_url a) && success a); run; [right|left; by split].
  split; [done|].
  destruct (fetch_article_content_shape (real_url a) s) as (r & w & ->). run.
  rewrite Hl. run. destruct (result_success r) eqn:Eok; run.
  - edestruct (save_article_to_storage_shape l (set_content r a))
      as (b & w' & d & -> & Hd); [by run; rewrite lookup_insert_eq|].
    run. exists r, d, (sleeping (Seconds 2) w'). split_and!.
    + f_equal. unfold fetched_state. rewrite Eok. state_eq.
    + exact Hd.
    + intros E. congruence.
  - exists r, (db s), (sleeping (Seconds 2) w). split_and!.
    + f_equal. unfold fetched_state. rewrite Eok. state_eq.
    + by left.
    + done.
Qed.
End WorkerProofs.

Section BatchProofs.
Context `{Env}.












(** The merge of [fetch_contents_batch] puts every article back in its
    own place. *)
Lemma merge_by_identity (processed_valid articles : list nat) :
  map (λ l, default l
              ((list_to_map (map (λ l, (l, l)) processed_valid) : gmap nat nat) !! l))
      articles
  = articles.
Proof.
  rewrite <- (map_id articles) at 2. apply map_ext. intros l.
  destruct (_ !! l) as [l'|] eqn:E; [|done]. cbn.
  apply elem_of_list_to_map_2, list_elem_of_In, in_map_iff in E
    as (l'' & [= -> ->] & _). done.
Qed.
End BatchProofs.



(** ** The invariant of the records *)

Section InvariantProofs.
Context `{Env}.

(** An event that is not the save of a bad record keeps the invariant. *)
Lemma pipeline_invariant_event s e :
  save_ok e → pipeline_invariant s → pipeline_invariant (with_events [e] s).
Proof.
  intros He (Hheap & Htr & Hdb). split_and!; [done| |].
  - cbn. apply Forall_app. split; [done|]. by constructor.
  - intros r Hr. destruct (Hdb r Hr) as (l & a & kw & at_ & Hin & Hrow).
    exists l, a, kw, at_. split; [|done]. cbn. apply elem_of_app. by left.
Qed.

Lemma pipeline_invariant_quiet : Quiet pipeline_invariant.
Proof.
  split; try done.
  intros s e Hc Hs HI. apply pipeline_invariant_event; [|done]. by destruct e.
Qed.

#[local] Existing Instance pipeline_invariant_quiet.

Lemma keeps_triple {A} J C (m : M A) : keeps J C m → triple J m (λ _, J) (λ _, J).
Proof.
  intros Hm. eapply triple_conseq; [exact Hm|done|done|]. by intros e s [_ ?].
Qed.













Lemma triple_state {A} (P : State → Prop) (m : M A) (Q : State → Prop) s :
  triple P m (λ _, Q) (λ _, Q) → P s → Q (m s).2.
Proof. intros Hm HP. specialize (Hm s HP). by destruct (m s) as [[a|e] s']. Qed.
End InvariantProofs.

(** What the invariant says of the table: every row was bound from a
    record that was fetched and resolved when it was handed over. *)
Lemma pipeline_invariant_rows `{Env} (s : State) (r : row) :
  pipeline_invariant s → r ∈ db s →
  ∃ a keyword saved_at,
    row_values r = bound_values (article_dict a keyword) saved_at
    ∧ content_fetched a = true ∧ success a = true
    ∧ nonempty (real_url a) = true.
Proof.
  intros (_ & Htr & Hdb) Hr.
  destruct (Hdb r Hr) as (l & a & kw & at_ & Hin & Hrow).
  exists a, kw, at_. split; [done|].
  rewrite Forall_forall in Htr. exact (Htr _ Hin).
Qed.



(** * Further properties of the code *)

(** ** Text: [strip], [split] and [join] *)

Lemma lstrip_spec (s : str) :
  ∃ pre, s = pre ++ lstrip s ∧ Forall (λ c, is_space c = true) pre.
Proof.
  induction s as [|c s (pre & E & Hpre)]; [by exists []|].
  cbn [lstrip]. destruct (is_space c) eqn:Ec; [|by exists []].
  exists (c :: pre). split; [cbn; by rewrite <- E|by constructor].
Qed.

Lemma lstrip_head (s : str) c r : lstrip s = c :: r → is_space c = false.
Proof.
  induction s as [|d s IH]; [done|]. cbn [lstrip].
  destruct (is_space d) eqn:Ed; [done|]. by intros [= <- <-].
Qed.

Lemma lstrip_fixed c (r : str) : is_space c = false → lstrip (c :: r) = c :: r.
Proof. intros Hc. cbn [lstrip]. by rewrite Hc. Qed.

Lemma lstrip_idem (s : str) : lstrip (lstrip s) = lstrip s.
Proof.
  destruct (lstrip s) as [|c r] eqn:E; [done|].
  apply lstrip_fixed. by eapply lstrip_head.
Qed.

Lemma rstrip_spec (s : str) :
  ∃ post, s = rstrip s ++ post ∧ Forall (λ c, is_space c = true) post.
Proof.
  destruct (lstrip_spec (rev s)) as (pre & E & Hpre). exists (rev pre). split.
  - unfold rstrip. rewrite <- rev_app_distr, <- E. by rewrite rev_involutive.
  - apply Forall_forall. intros c Hc. rewrite Forall_forall in Hpre.
    apply Hpre, list_elem_of_In, in_rev, list_elem_of_In. exact Hc.
Qed.

Lemma rstrip_idem (s : str) : rstrip (rstrip s) = rstrip s.
Proof. unfold rstrip. by rewrite rev_involutive, lstrip_idem. Qed.

(** [rstrip] leaves the head of a text that does not begin with white
    space. *)
Lemma rstrip_head c (r : str) :
  is_space c = false → ∃ r', rstrip (c :: r) = c :: r'.
Proof.
  intros Hc. destruct (rstrip_spec (c :: r)) as (post & E & Hpost).
  destruct (rstrip (c :: r)) as [|d r'] eqn:Er.
  - cbn in E. subst post. apply Forall_cons in Hpost as [Hc' _]. congruence.
  - injection E as -> _. by exists r'.
Qed.

Lemma strip_idem (s : str) : strip (strip s) = strip s.
Proof.
  unfold strip. destruct (lstrip s) as [|c r] eqn:E; [done|].
  pose proof (lstrip_head s c r E) as Hc.
  destruct (rstrip_head c r Hc) as (r' & Er).
  rewrite Er, (lstrip_fixed c r' Hc), <- Er. apply rstrip_idem.
Qed.

(** What holds of every character of a text holds of those [strip]
    keeps. *)
Lemma strip_Forall (P : N → Prop) (s : str) : Forall P s → Forall P (strip s).
Proof.
  intros Hs. unfold strip.
  destruct (lstrip_spec s) as (pre & E & _).
  destruct (rstrip_spec (lstrip s)) as (post & E' & _).
  rewrite E, E' in Hs.
  by apply Forall_app in Hs as [_ [Hs _]%Forall_app].
Qed.

(** A text that begins with a character that is not white space is not
    stripped to nothing. *)
Lemma strip_head c (r : str) :
  is_space c = false → ∃ r', strip (c :: r) = c :: r'.
Proof.
  intros Hc. unfold strip. rewrite (lstrip_fixed c r Hc). by apply rstrip_head.
Qed.

Lemma split_lines_cons (s : str) : ∃ line lines, split_lines s = line :: lines.
Proof.
  induction s as [|c s (line & lines & E)]; [by eexists _, _|].
  cbn [split_lines]. rewrite E. destruct (c =? newline)%N; by eexists _, _.
Qed.

Lemma split_lines_no_newline (s : str) :
  Forall (λ line, newline ∉ line) (split_lines s).
Proof.
  induction s as [|c s IH].
  - repeat constructor. by intros ?%elem_of_nil.
  - cbn [split_lines]. destruct (split_lines_cons s) as (line & lines & E).
    rewrite E in *. apply Forall_cons in IH as [Hline Hlines].
    destruct (N.eqb_spec c newline) as [->|Hne].
    + repeat constructor; try done. by intros ?%elem_of_nil.
    + constructor; [|done]. intros [?|?]%elem_of_cons; done.
Qed.

(** A text without line break is one line. *)
Lemma split_lines_single (line : str) :
  newline ∉ line → split_lines line = [line].
Proof.
  induction line as [|c line IH]; [done|].
  intros [Hc Hline]%not_elem_of_cons. cbn [split_lines]. rewrite IH by done.
  by destruct (N.eqb_spec c newline).
Qed.

Lemma split_lines_app (line t : str) :
  newline ∉ line →
  split_lines (line ++ newline :: t) = line :: split_lines t.
Proof.
  induction line as [|c line IH].
  - intros _. cbn [app split_lines].
    destruct (split_lines_cons t) as (l & ls & ->). by rewrite N.eqb_refl.
  - intros [Hc Hline]%not_elem_of_cons. cbn [app split_lines].
    rewrite IH by done. by destruct (N.eqb_spec c newline).
Qed.

(** [split] undoes [join] on lines without line break. *)
Lemma split_join_lines (lines : list str) :
  lines ≠ [] → Forall (λ line, newline ∉ line) lines →
  split_lines (join_lines lines) = lines.
Proof.
  induction lines as [|line rest IH]; [done|]. intros _ [Hline Hrest]%Forall_cons.
  destruct rest as [|line' rest].
  - by apply split_lines_single.
  - cbn [join_lines]. rewrite split_lines_app by done. f_equal. by apply IH.
Qed.

Lemma filter_fixed {A} (f : A → bool) (l : list A) :
  Forall (λ x, f x = true) l → List.filter f l = l.
Proof.
  induction l as [|x l IH]; [done|]. intros [Hx Hl]%Forall_cons.
  cbn. rewrite Hx. f_equal. by apply IH.
Qed.

Lemma filter_Forall {A} (f : A → bool) (P : A → Prop) (l : list A) :
  Forall P l → Forall (λ x, P x ∧ f x = true) (List.filter f l).
Proof.
  induction l as [|x l IH]; [done|]. intros [Hx Hl]%Forall_cons.
  cbn. destruct (f x) eqn:Ex; [constructor|]; auto.
Qed.

Lemma filter_sublist {A} (f : A → bool) (l : list A) : sublist (List.filter f l) l.
Proof.
  induction l as [|x l IH]; [done|]. cbn.
  destruct (f x); by constructor.
Qed.

(** The lines [extract_article_text] and [load_wechat_accounts] keep:
    stripped, not empty, without line break if the lines had none. *)
Lemma stripped_lines (P : N → Prop) (lines : list str) :
  Forall (Forall P) lines →
  Forall (λ line, line ≠ [] ∧ strip line = line ∧ Forall P line)
    (List.filter nonempty (map strip lines)).
Proof.
  intros Hlines.
  eapply Forall_impl; [apply (filter_Forall nonempty
                                 (λ line, strip line = line ∧ Forall P line))|].
  - apply Forall_fmap. eapply Forall_impl; [exact Hlines|].
    intros line Hline. cbn. split; [apply strip_idem|by apply strip_Forall].
  - intros line [[? ?] Hne]. split_and!; try done. by destruct line.
Qed.

(** The cleaned text of an article: the address is always empty; the
    content has no blank line and no line with white space at either end;
    and cleaning it again changes nothing. *)
Theorem extract_article_text_clean (soup : article_page) :
  (extract_article_text soup).2 = []
  ∧ ((extract_article_text soup).1 = []
     ∨ Forall (λ line, line ≠ [] ∧ strip line = line)
         (split_lines (extract_article_text soup).1))
  ∧ extract_article_text
      {| selected_text := [Some (extract_article_text soup).1];
         body_text := None |}
    = extract_article_text soup.
Proof.
  unfold extract_article_text. cbn [fst snd first_selected selected_text body_text].
  set (content_text := if nonempty (first_selected (selected_text soup))
                       then first_selected (selected_text soup)
                       else default [] (body_text soup)).
  pose proof (stripped_lines (λ c, c ≠ newline) (split_lines content_text)) as Hl.
  destruct (List.filter nonempty (map strip (split_lines content_text)))
    as [|line lines] eqn:E.
  { split; [done|]. split; [by left|done]. }
  rewrite <- E in *.
  assert (Forall (λ line, line ≠ [] ∧ strip line = line ∧ newline ∉ line)
            (List.filter nonempty (map strip (split_lines content_text)))) as Hc.
  { eapply Forall_impl; [apply Hl|].
    - eapply Forall_impl; [apply split_lines_no_newline|].
      intros l Hn. apply Forall_forall. by intros c Hc ->.
    - intros l (? & ? & Hn). split_and!; try done.
      rewrite Forall_forall in Hn. intros Hin. by apply (Hn _ Hin). }
  set (lines' := List.filter nonempty (map strip (split_lines content_text))) in *.
  assert (split_lines (join_lines lines') = lines') as Hsplit.
  { apply split_join_lines; [by rewrite E|].
    eapply Forall_impl; [exact Hc|]. by intros l (_ & _ & ?). }
  split; [done|]. split.
  - right. rewrite Hsplit. eapply Forall_impl; [exact Hc|]. by intros l (? & ? & _).
  - f_equal.
    assert ((if nonempty (join_lines lines') then join_lines lines' else default [] None)
            = join_lines lines') as -> by (by destruct (join_lines lines')).
    rewrite Hsplit. f_equal.
    assert (map strip lines' = lines') as ->.
    { rewrite <- (map_id lines') at 2. apply map_ext_Forall.
      eapply Forall_impl; [exact Hc|]. by intros l (_ & ? & _). }
    apply filter_fixed. eapply Forall_impl; [exact Hc|].
    intros l (? & _). by destruct l.
Qed.

(** ** The accounts file *)

Lemma load_wechat_accounts_run `{Env} (s : State) :
  ∃ accounts,
    load_wechat_accounts s
    = (Ret accounts, with_world (fs_config_lines (world s)).2 s)
    ∧ Forall (λ a, a ≠ [] ∧ strip a = a ∧ startswith a [hash_sign] = false)
        accounts
    ∧ match (fs_config_lines (world s)).1 with
      | Ok (Some lines) =>
          sublist accounts (map strip lines)
          ∧ ∀ line, line ∈ lines → strip line ≠ [] →
              startswith (strip line) [hash_sign] = false →
              strip line ∈ accounts
      | Ok None | Err _ => accounts = []
      end.
Proof.
  unfold load_wechat_accounts. run.
  destruct (fs_config_lines (world s)) as [[[lines|]|msg] w]; run;
    eexists; (split; [reflexivity|]); try by split.
  split; [|split].
  - pose proof (stripped_lines (λ _, True) lines) as Hl.
    assert (Forall (λ a, a ≠ [] ∧ strip a = a)
              (List.filter nonempty (map strip lines))) as Hs.
    { eapply Forall_impl; [apply Hl|by intros a (? & ? & _)].
      apply Forall_forall. intros line _. by apply Forall_forall. }
    rewrite Forall_forall in Hs. apply Forall_forall. intros a Ha.
    apply list_elem_of_In, List.filter_In in Ha as [Ha Hok].
    apply andb_true_iff in Hok as [Hne Hc]. apply negb_true_iff in Hc.
    destruct (Hs a) as [? ?]; [|done].
    apply list_elem_of_In, List.filter_In. by split.
  - apply filter_sublist.
  - intros line Hin Hne Hc. apply list_elem_of_In, List.filter_In. split.
    + apply in_map. by apply list_elem_of_In.
    + rewrite Hc. by destruct (strip line).
Qed.

(** [load_wechat_accounts] never raises and changes nothing of the crawler.
    Every account it returns is stripped, is not empty and does not begin
    with [#]; the accounts come in the order of the lines of the file, and
    no line that qualifies once stripped is left out. Without a file, or
    when the file cannot be read, there is no account. *)
Theorem load_wechat_accounts_spec `{Env} (s : State) :
  ∃ accounts,
    load_wechat_accounts s
    = (Ret accounts, with_world (fs_config_lines (world s)).2 s)
    ∧ Forall (λ a, a ≠ [] ∧ strip a = a ∧ startswith a [hash_sign] = false)
        accounts
    ∧ match (fs_config_lines (world s)).1 with
      | Ok (Some lines) =>
          sublist accounts (map strip lines)
          ∧ ∀ line, line ∈ lines → strip line ≠ [] →
              startswith (strip line) [hash_sign] = false →
              strip line ∈ accounts
      | Ok None | Err _ => accounts = []
      end.
Proof. apply load_wechat_accounts_run. Qed.

(** ** UrlResolver and the two requests of the workers *)

Lemma occurrences_fragments (s : str) (fs : list str) :
  occurrences s fs →
  Forall (λ f, f ≠ [] ∧ Forall (λ c, negb (c =? quote)%N = true) f) fs.
Proof.
  induction 1 as [s H|pre f rest fs Hgap Hne Hq _ IH]; [done|].
  constructor; [|done]. split; [done|]. by apply not_quote_Forall.
Qed.

Lemma search_full_url_Some (s m : str) :
  search_full_url s = Some m →
  ∃ run, m = full_url_prefix ++ run ∧ Forall (λ c, not_a_quote c = true) run.
Proof.
  intros E. destruct (literal_match_total s) as [[m' Hm]|Hnone].
  - rewrite (search_full_url_literal s m' Hm) in E. injection E as <-.
    destruct Hm as (pre & run & rest & _ & -> & _ & Hrun & _). by exists run.
  - by rewrite (search_full_url_none s Hnone) in E.
Qed.

Lemma extract_real_url_Some (body url : str) :
  extract_real_url body = Some url →
  url ≠ [] ∧ Forall (λ c, negb (c =? quote)%N = true) url.
Proof.
  unfold extract_real_url. intros E.
  pose proof (occurrences_fragments body _ (findall_occurrences body)) as Hfs.
  destruct (findall_url_fragments body) as [|f fs].
  - destruct (search_full_url body) as [m|] eqn:Em; [|done]. injection E as <-.
    apply search_full_url_Some in Em as (run & -> & Hrun).
    assert (∃ r, full_url_prefix = 104%N :: r) as [r Er] by (eexists; reflexivity).
    split.
    + rewrite Er. cbn [app].
      by destruct (strip_head 104%N (r ++ run) eq_refl) as (r' & ->).
    + apply strip_Forall, Forall_app. split.
      * unfold full_url_prefix. repeat constructor.
      * eapply Forall_impl; [exact Hrun|]. intros c Hc.
        by apply andb_true_iff in Hc as [_ ?].
  - injection E as <-. apply Forall_cons in Hfs as [[Hne Hf] Hfs]. split.
    + destruct f; [done|]. done.
    + cbn [concat]. apply Forall_app. split; [done|].
      apply Forall_concat. eapply Forall_impl; [exact Hfs|]. by intros ? [_ ?].
Qed.

(** A link that [extract_real_url] returns is never empty and holds no
    single quote: the test [if real_url] that follows the call never
    fails on a link. *)
Theorem extract_real_url_nonempty (body url : str) :
  extract_real_url body = Some url → nonempty url = true ∧ quote ∉ url.
Proof.
  intros [Hne Hq]%extract_real_url_Some. split; [by destruct url|].
  by apply not_quote_Forall.
Qed.

(** The link of scenario B is such a link. *)
Lemma extract_real_url_nonempty_scenario_B :
  nonempty (lit "https://example.com/s?id=42") = true
  ∧ quote ∉ lit "https://example.com/s?id=42".
Proof.
  apply (extract_real_url_nonempty scenario_B_body). by vm_compute.
Defined.

Section RequestProofs.
Context `{Env}.


End RequestProofs.


(** [fetch_article_content] never raises, whatever fails, and changes
    nothing of the crawler. The address of its result is always empty; a
    result that failed has no content; a result that succeeded holds the
    cleaned text of a page that was answered without an error status. *)
Theorem fetch_article_content_spec `{Env} (real_url : str) (s : State) :
  ∃ r w,
    fetch_article_content real_url s = (Ret r, with_world w s)
    ∧ result_address r = []
    ∧ (result_success r = false → result_content r = [])
    ∧ (result_success r = true →
         ∃ response soup,
           (session_get (GetUrl real_url) s).1 = Ret response
           ∧ ((400 <=? status_code response)
              && (status_code response <? 600))%N = false
           ∧ article_soup (text response) = Ok soup
           ∧ result_content r = (extract_article_text soup).1).
Proof.
  unfold fetch_article_content. run.
  destruct (session_get_shape (GetUrl real_url) s) as (o & w & -> & Ho).
  destruct o as [response|e]; run.
  2:{ destruct e; try (by specialize (Ho _ eq_refl)). run.
      eexists _, _. by split_and!. }
  unfold raise_for_status.
  destruct ((400 <=? status_code response) && (status_code response <? 600))%N
    eqn:Est; run; [eexists _, _; by split_and!|].
  destruct (article_soup (text response)) as [soup|msg] eqn:Esoup; run;
    [|eexists _, _; by split_and!].
  assert ((extract_article_text soup).2 = []) as Haddr by done.
  destruct (extract_article_text soup) as [clean_content address_text] eqn:Ex.
  run. eexists _, _. split_and!; try done.
  intros _. exists response, soup. by rewrite Ex.
Qed.

(** ** SearchResultParser and the search *)

Lemma match_digits_group_spec (is_digit : N → bool) (close s g : str) :
  match_digits_group is_digit close s = Some g →
  g ≠ [] ∧ Forall (λ c, is_digit c = true) g ∧ ∃ rest, s = g ++ close ++ rest.
Proof.
  revert g. induction s as [|c s IH]; intros g; [done|].
  cbn [match_digits_group]. destruct (is_digit c) eqn:Ec; [|done].
  destruct (match_digits_group is_digit close s) as [g'|].
  - intros [= <-]. destruct (IH g' eq_refl) as (_ & Hg & rest & ->).
    split_and!; [done|by constructor|by exists rest].
  - destruct (startswith s close) eqn:Es; [|done]. intros [= <-].
    apply startswith_true in Es as [rest ->].
    split_and!; [done|by repeat constructor|by exists rest].
Qed.

Lemma search_time_convert_spec (is_digit : N → bool) (s g : str) :
  search_time_convert is_digit s = Some g →
  g ≠ [] ∧ Forall (λ c, is_digit c = true) g
  ∧ ∃ pre rest, s = pre ++ time_convert_open ++ g ++ time_convert_close ++ rest.
Proof.
  assert (∀ t,
    match strip_prefix time_convert_open t with
    | Some r => match_digits_group is_digit time_convert_close r
    | None => None
    end = Some g →
    g ≠ [] ∧ Forall (λ c, is_digit c = true) g
    ∧ ∃ rest, t = time_convert_open ++ g ++ time_convert_close ++ rest) as Hat.
  { intros t. destruct (strip_prefix time_convert_open t) as [r|] eqn:Er; [|done].
    apply strip_prefix_Some in Er as ->.
    intros (? & ? & rest & ->)%match_digits_group_spec. split_and!; try done.
    by exists rest. }
  induction s as [|c s IH].
  - cbn [search_time_convert]. specialize (Hat []).
    destruct (match strip_prefix time_convert_open [] with
              | Some r => match_digits_group is_digit time_convert_close r
              | None => None
              end) as [g'|]; [|done].
    intros [= ->]. destruct (Hat eq_refl) as (? & ? & rest & E).
    split_and!; try done; by exists [], rest.
  - cbn [search_time_convert]. specialize (Hat (c :: s)).
    destruct (match strip_prefix time_convert_open (c :: s) with
              | Some r => match_digits_group is_digit time_convert_close r
              | None => None
              end) as [g'|].
    + intros [= ->]. destruct (Hat eq_refl) as (? & ? & rest & E).
      split_and!; try done; by exists [], rest.
    + intros (? & ? & pre & rest & ->)%IH. split_and!; try done.
      by exists (c :: pre), rest.
Qed.

(** The publish time of an item: [int] and the conversion are applied only
    to a run of digits, not empty, that the script of the item holds
    between [timeConvert('] and [')]; without such a script the publish
    time is empty. *)
Theorem publish_time_from_digits (is_digit : N → bool)
    (format_timestamp : str → res str) (it : item) :
  item_publish_time is_digit format_timestamp it = Ok []
  ∨ ∃ time_script_elem digits pre rest,
      sel_time_script it = Some time_script_elem
      ∧ get_text time_script_elem
        = pre ++ time_convert_open ++ digits ++ time_convert_close ++ rest
      ∧ digits ≠ [] ∧ Forall (λ c, is_digit c = true) digits
      ∧ item_publish_time is_digit format_timestamp it = format_timestamp digits.
Proof.
  unfold item_publish_time.
  destruct (sel_time_script it) as [time_script_elem|]; [|by left].
  destruct (search_time_convert is_digit (get_text time_script_elem))
    as [digits|] eqn:E; [|by left].
  apply search_time_convert_spec in E as (Hne & Hd & pre & rest & E).
  right. by exists time_script_elem, digits, pre, rest.
Qed.

Section SearchProofs.
Context `{Env}.

Lemma parse_item_fresh now it a :
  parse_item is_digit format_timestamp now it = Ok (Some a) → fresh_record a.
Proof.
  unfold parse_item. destruct (nonempty (item_title it)) eqn:Et; cbn; [|done].
  destruct (item_publish_time is_digit format_timestamp it); [|done].
  intros [= <-]. unfold fresh_record. cbn. split_and!; try done.
  - by destruct (item_title it).
  - unfold item_sogou_url. destruct (sel_h3_a it) as [link_elem|]; [|done].
    destruct (nonempty (default [] (href link_elem))); [|done].
    by destruct (startswith (default [] (href link_elem)) [slash]) eqn:Es.
  - unfold item_source. destruct (sel_source it) as [source_elem|]; [|done].
    destruct (nonempty (get_text_strip source_elem)); cbn; [|done].
    destruct (bool_decide_reflect (get_text_strip source_elem = platform_name));
      done.
Qed.

(** The loop of the parser: it changes the heap and the world only; the
    articles it adds are new objects, all different, as the parser leaves
    them; the objects that were there are untouched. *)
Lemma parse_items_new news_items :
  ∀ articles s,
    ∃ o h w,
      parse_items news_items articles s = (o, with_heap h (with_world w s))
      ∧ (∀ l a, heap s !! l = Some a → h !! l = Some a)
      ∧ match o with
        | Ret found =>
            ∃ new,
              found = articles ++ new ∧ NoDup new
              ∧ Forall (λ l, heap s !! l = None
                             ∧ ∃ a, h !! l = Some a ∧ fresh_record a) new
              ∧ (new = [] → h = heap s)
        | Raise e => ∃ msg, e = Exception msg
        end.
Proof.
  induction news_items as [|it rest IH]; intros articles s.
  - cbn [parse_items]. run. exists (Ret articles), (heap s), (world s).
    split; [f_equal; state_eq|]. split; [done|].
    exists []. rewrite app_nil_r. split_and!; [done|constructor|constructor|done].
  - cbn [parse_items]. run.
    set (w1 := (clock_now (world s)).2).
    destruct (parse_item _ _ _ it) as [[a|]|msg] eqn:Ep; run.
    + apply parse_item_fresh in Ep.
      set (l0 := fresh (dom (heap s))).
      assert (heap s !! l0 = None) as Hl0 by (apply not_elem_of_dom, is_fresh).
      destruct (IH (articles ++ [l0])
                  (with_heap (<[l0 := a]> (heap s)) (with_world w1 s)))
        as (o & h & w & -> & Hgrow & Ho).
      revert Hgrow Ho. run. intros Hgrow Ho.
      exists o, h, w. split; [f_equal; state_eq|].
      assert (∀ l b, heap s !! l = Some b → h !! l = Some b) as Hgrow'.
      { intros l b Hl. apply Hgrow. rewrite lookup_insert_ne; [done|].
        intros <-. congruence. }
      split; [done|]. destruct o as [found|e]; [|done].
      destruct Ho as (new & -> & Hnd & Hnew & _). exists (l0 :: new).
      split_and!; [| | |done].
      * by rewrite <- app_assoc.
      * constructor; [|done]. intros Hin. rewrite Forall_forall in Hnew.
        destruct (Hnew _ Hin) as [Hnone _]. by rewrite lookup_insert_eq in Hnone.
      * constructor.
        -- split; [done|]. exists a. split; [|done]. apply Hgrow.
           by rewrite lookup_insert_eq.
        -- eapply Forall_impl; [exact Hnew|]. intros l [Hnone Hl].
           split; [|done]. by apply lookup_insert_None in Hnone as [? _].
    + destruct (IH articles (with_world w1 s)) as (o & h & w & -> & Hgrow & Ho).
      exists o, h, w. split; [f_equal; state_eq|]. by split.
    + exists (Raise (Exception msg)), (heap s), w1.
      split; [f_equal; state_eq|]. split; [done|]. by exists msg.
Qed.
End SearchProofs.

(** The records of a listing page. The parser changes nothing of the
    crawler and none of the records that exist; the records it returns are
    new objects, no two of them the same, each with a title, a link that is
    empty or does not begin with a slash, a source that is not the
    platform's name, and neither resolved nor fetched. If it raises, it
    raises an [Exception]. *)
Theorem parsed_records_are_new `{Env} (html_content query : str) (s : State) :
  ∃ o h w,
    _parse_search_results html_content query s
    = (o, with_heap h (with_world w s))
    ∧ (∀ l a, heap s !! l = Some a → h !! l = Some a)
    ∧ match o with
      | Ret articles =>
          NoDup articles
          ∧ Forall (λ l, heap s !! l = None
                         ∧ ∃ a, h !! l = Some a ∧ fresh_record a) articles
      | Raise e => ∃ msg, e = Exception msg
      end.
Proof.
  unfold _parse_search_results.
  destruct (parse_items_new (select_news_items html_content) [] s)
    as (o & h & w & E & Hgrow & Ho).
  exists o, h, w. split_and!; try done.
  destruct o as [found|e]; [|done]. by destruct Ho as (new & -> & ? & ? & _).
Qed.

Lemma search_articles_run `{Env} (query : str) (page : Z) (s : State) :
  ∃ o h w evs,
    search_articles query page s
    = (o, with_heap h (with_world w (with_events evs s)))
    ∧ (evs = [] ∨ evs = [EvSleep (Uniform 2 4)])
    ∧ (∀ l a, heap s !! l = Some a → h !! l = Some a)
    ∧ match o with
      | Ret found =>
          NoDup found
          ∧ Forall (λ l, heap s !! l = None
                         ∧ ∃ a, h !! l = Some a ∧ fresh_record a) found
          ∧ (found = [] → h = heap s)
      | Raise e => ∃ msg, e = Exception msg
      end.
Proof.
  unfold search_articles.
  run. destruct (session_get_shape GetHome s) as (o1 & w1 & -> & Ho1).
  destruct o1 as [r1|e1]; run.
  2:{ rewrite (Ho1 e1 eq_refl). run. exists (Ret []), (heap s), w1, [].
      split; [rewrite with_events_nil; f_equal; state_eq|]. split; [by left|].
      split; [done|]. split_and!; [constructor|constructor|done]. }
  destruct (session_get_shape (GetSearch query page)
              (with_world (sleeping (Uniform 2 4) w1)
                 (with_events [EvSleep (Uniform 2 4)] (with_world w1 s))))
    as (o2 & w2 & -> & Ho2).
  destruct o2 as [r2|e2]; run.
  2:{ rewrite (Ho2 e2 eq_refl). run.
      exists (Ret []), (heap s), w2, [EvSleep (Uniform 2 4)].
      split; [f_equal; state_eq|]. split; [by right|].
      split; [done|]. split_and!; [constructor|constructor|done]. }
  unfold raise_for_status.
  destruct ((400 <=? status_code r2)%N && (status_code r2 <? 600)%N); run.
  { exists (Ret []), (heap s), w2, [EvSleep (Uniform 2 4)].
    split; [f_equal; state_eq|]. split; [by right|].
    split; [done|]. split_and!; [constructor|constructor|done]. }
  unfold _parse_search_results.
  edestruct (parse_items_new (select_news_items (text r2)) [])
    as (o & h & w & -> & Hgrow & Ho).
  revert Hgrow Ho. run. intros Hgrow Ho.
  destruct o as [found|e]; run.
  + exists (Ret found), h, w, [EvSleep (Uniform 2 4)].
    split; [f_equal; state_eq|]. split; [by right|]. split; [done|].
    destruct Ho as (new & -> & Hnd & Hnew & Hnone). cbn [app].
    split_and!; try done.
  + destruct Ho as [msg ->]. run.
    exists (Raise (Exception msg)), h, w, [EvSleep (Uniform 2 4)].
    split; [f_equal; state_eq|]. split; [by right|]. split; [done|].
    by exists msg.
Qed.


(** ** SessionManager: cookies and the browser *)




Section BrowserProofs.
Context `{Env}.

(** Without a browser the handshake ends at once. *)
Lemma playwright_login_no_browser s :
  playwright s = true → browser s = false →
  playwright_login s = (Ret false, with_events [EvHandshake] s).
Proof.
  intros Hp Hb. unfold playwright_login, init_playwright, handshake. run.
  rewrite Hp. run. rewrite Hb. by run.
Qed.
End BrowserProofs.

(** A browser that fails to launch is never launched again. When
    Playwright starts and the launch of the browser fails, [login] raises
    the exception of the launch and leaves [self.playwright] set without a
    browser. From any such state [init_playwright] does nothing, so that
    every later [login] that needs the handshake returns [False] at once
    and changes nothing. *)
Theorem launch_failure_is_permanent `{Env} (s : State) (msg : str) :
  playwright s = false → browser s = false →
  (pw_start (world s)).1 = Ok () →
  (pw_launch (pw_start (world s)).2).1 = Err msg →
  ∃ s1,
    login true s = (Raise (Exception msg), s1)
    ∧ playwright s1 = true ∧ browser s1 = false
    ∧ ∀ s2 force_login,
        playwright s2 = true → browser s2 = false →
        is_logged_in s2 && negb force_login = false →
        login force_login s2 = (Ret false, with_events [EvHandshake] s2).
Proof.
  intros Hp Hb Hstart Hlaunch. eexists. split_and!.
  - unfold login, playwright_login, init_playwright. run.
    rewrite andb_false_r. run. rewrite Hp. run. rewrite Hstart. run.
    unfold set_playwright. run. rewrite Hlaunch. run. reflexivity.
  - by run.
  - by run.
  - intros s2 force_login Hp2 Hb2 Hforce. unfold login. run. rewrite Hforce.
    by apply playwright_login_no_browser.
Qed.

(** In a world where the browser cannot be launched, the first login
    raises and the next one returns [False] without a handshake. *)
Lemma launch_failure_example :
  ∃ s1 : @State no_browser_env,
    login true no_browser_crawler = (Raise (Exception []), s1)
    ∧ playwright s1 = true ∧ browser s1 = false
    ∧ ∀ (s2 : @State no_browser_env) force_login,
        playwright s2 = true → browser s2 = false →
        is_logged_in s2 && negb force_login = false →
        login force_login s2 = (Ret false, with_events [EvHandshake] s2).
Proof.
  apply (launch_failure_is_permanent (H:=no_browser_env) no_browser_crawler []);
    reflexivity.
Defined.

Section LoginProofs.
Context `{Env}.



End LoginProofs.




(** ** ArticleStore: keys and counts *)

Section StoreProofs.
Context `{Env}.

Lemma has_key_elem key (table : list row) :
  has_key key table = true ↔ key ∈ map object_key table.
Proof.
  unfold has_key. rewrite existsb_exists. split.
  - intros (r & Hin & Hr). apply bool_decide_eq_true in Hr as <-.
    apply list_elem_of_In, in_map. done.
  - intros Hin. apply list_elem_of_In, in_map_iff in Hin as (r & <- & Hin).
    exists r. split; [done|]. by apply bool_decide_eq_true.
Qed.

Lemma unique_keys_app (table : list row) (r : row) :
  has_key (object_key r) table = false →
  NoDup (map object_key table) → NoDup (map object_key (table ++ [r])).
Proof.
  intros Hout Hnd. rewrite map_app. apply NoDup_app. split_and!; [done| |].
  - intros k Hk [->|[]%elem_of_nil]%elem_of_cons.
    apply has_key_elem in Hk. congruence.
  - apply NoDup_singleton.
Qed.

(** One call of [save_article]: the table is as it was, or has one row
    more, under a key that no row held. *)
Lemma save_article_row (d : gmap string pyval) s :
  ∃ b s',
    save_article d s = (Ret b, s')
    ∧ if b
      then ∃ r, has_key (object_key r) (db s) = false ∧ db s' = db s ++ [r]
      else db s' = db s.
Proof.
  destruct (save_article_cases d s) as (b & s' & E & Hb). exists b, s'.
  split; [done|]. destruct b; [|done].
  destruct Hb as (key & saved_at & _ & Hout & Hdb).
  by exists {| object_key := key; row_values := bound_values d saved_at |}.
Qed.

Lemma article_exists_run key s :
  _article_exists key s
  = (Ret match (sqlite_transaction (world s)).1 with
         | Ok _ => has_key key (db s)
         | Err _ => false
         end,
     with_world (sqlite_transaction (world s)).2 s).
Proof.
  unfold _article_exists. run.
  by destruct (sqlite_transaction (world s)) as [[[]|msg] w]; run.
Qed.

Lemma save_articles_from_spec articles :
  ∀ saved_count s,
    ∃ n s',
      save_articles_from articles saved_count s = (Ret (saved_count + n), s')
      ∧ n ≤ length articles
      ∧ (∃ rows, db s' = db s ++ rows ∧ length rows = n)
      ∧ (NoDup (map object_key (db s)) → NoDup (map object_key (db s'))).
Proof.
  induction articles as [|article rest IH]; intros saved_count s.
  - cbn [save_articles_from]. run. exists 0, s. rewrite Nat.add_0_r.
    split_and!; try done. exists []. by rewrite app_nil_r.
  - cbn [save_articles_from]. run.
    destruct (save_article_row article s) as (b & s1 & -> & Hb). run.
    destruct (IH (if b then S saved_count else saved_count) s1)
      as (n & s' & -> & Hn & (rows & Hrows & Hlen) & Hnd).
    destruct b.
    + destruct Hb as (r & Hout & Hdb). exists (S n), s'. split_and!.
      * f_equal. f_equal. lia.
      * cbn. lia.
      * exists (r :: rows). rewrite Hrows, Hdb, <- app_assoc. cbn.
        split; [done|lia].
      * intros Hs. apply Hnd. rewrite Hdb. by apply unique_keys_app.
    + exists n, s'. split_and!; [done|cbn; lia| |by rewrite Hb in Hnd].
      exists rows. by rewrite Hrows, Hb.
Qed.
End StoreProofs.

(** [save_article] keeps the keys of the table unique: from a table where
    no two rows have the same key it leaves such a table. It returns [True]
    exactly when it has appended one row, and then no row held the key of
    this row; when it returns [False] the table is as it was. *)
Theorem save_article_unique_keys `{Env} (d : gmap string pyval) (s : State) :
  NoDup (map object_key (db s)) →
  ∃ b s',
    save_article d s = (Ret b, s')
    ∧ NoDup (map object_key (db s'))
    ∧ if b
      then ∃ r, (object_key r ∉ map object_key (db s)) ∧ db s' = db s ++ [r]
      else db s' = db s.
Proof.
  intros Hnd. destruct (save_article_row d s) as (b & s' & E & Hb).
  exists b, s'. split; [done|]. destruct b.
  - destruct Hb as (r & Hout & Hdb). split.
    + rewrite Hdb. by apply unique_keys_app.
    + exists r. split; [|done]. intros Hin%has_key_elem. congruence.
  - by rewrite Hb.
Qed.

(** The first save of an article into an empty table. *)
Lemma save_article_unique_keys_example :
  ∃ b s',
    save_article undated_dict (fresh_crawler nobody_scans true) = (Ret b, s')
    ∧ NoDup (map object_key (db s'))
    ∧ if b
      then ∃ r, (object_key r
                 ∉ map object_key (db (fresh_crawler nobody_scans true)))
                ∧ db s' = db (fresh_crawler nobody_scans true) ++ [r]
      else db s' = db (fresh_crawler nobody_scans true).
Proof.
  apply (save_article_unique_keys (H:=scenario_env nobody_scans) undated_dict
           (fresh_crawler nobody_scans true)).
  simpl. constructor.
Defined.

(** [_article_exists] never raises and changes nothing of the store: it
    answers whether a row holds the key, and [False] when the connection
    fails. After a [save_article] that returned [True], it answers [True]
    for the key derived from the dictionary, as long as the rows of the
    table are kept and the connection works. *)
Theorem article_exists_after_save `{Env} :
  (∀ key s,
     _article_exists key s
     = (Ret match (sqlite_transaction (world s)).1 with
            | Ok _ => has_key key (db s)
            | Err _ => false
            end,
        with_world (sqlite_transaction (world s)).2 s))
  ∧ ∀ (d : gmap string pyval) s s1,
      save_article d s = (Ret true, s1) →
      ∃ key,
        (_generate_object_key d s).1 = Ret key
        ∧ ∀ s2,
            (∀ k, has_key k (db s1) = true → has_key k (db s2) = true) →
            (sqlite_transaction (world s2)).1 = Ok () →
            (_article_exists key s2).1 = Ret true.
Proof.
  split; [apply article_exists_run|].
  intros d s s1 Hsave.
  destruct (save_article_cases d s) as (b & s' & E & Hb).
  rewrite Hsave in E. injection E as <- <-.
  destruct Hb as (key & saved_at & Hkey & _ & Hdb). exists key.
  split; [done|]. intros s2 Hkeep Htx. rewrite article_exists_run, Htx. cbn.
  f_equal. apply Hkeep. rewrite Hdb, has_key_app.
  rewrite bool_decide_eq_true_2 by done. apply orb_true_r.
Qed.

(** [save_articles] never raises; the count it returns is the number of
    rows it has appended to the table, at most one for each dictionary;
    the rows that were in the table are kept, in their order, and the keys
    stay unique if they were. *)
Theorem save_articles_counts_rows `{Env} (articles : list (gmap string pyval))
    (s : State) :
  ∃ saved_count s',
    save_articles articles s = (Ret saved_count, s')
    ∧ saved_count ≤ length articles
    ∧ (∃ rows, db s' = db s ++ rows ∧ length rows = saved_count)
    ∧ (NoDup (map object_key (db s)) → NoDup (map object_key (db s'))).
Proof.
  unfold save_articles.
  destruct (save_articles_from_spec articles 0 s) as (n & s' & E & Hn). eauto.
Qed.

(** ** BatchRunner: what the batches leave alone *)

Section BatchFrames.
Context `{Env}.

Lemma same_session_refl s : same_session s s.
Proof. by repeat split. Qed.

Lemma same_records_lookup rel s s' l a :
  same_records rel s s' → heap s !! l = Some a →
  ∃ a', heap s' !! l = Some a' ∧ rel a a'.
Proof.
  intros Hr Hl. specialize (Hr l). rewrite Hl in Hr.
  destruct (heap s' !! l) as [a'|]; [by exists a'|done].
Qed.

Lemma resolving_frame_start s : resolving_frame s [] s.
Proof.
  split_and!; try done. intros l. by destruct (heap s !! l).
Qed.

Lemma process_article_frame s done l :
  is_Some (heap s !! l) →
  triple (resolving_frame s done) (process_article l)
    (λ b s', b = l ∧ resolving_frame s (l :: done) s') (λ _ _, False).
Proof.
  intros [a0 Hl0] s1 (Hsess & Hdb & Hsave & Hrec & Hkeep).
  destruct (same_records_lookup _ _ _ _ _ Hrec Hl0) as (a1 & Hl1 & Hrel).
  destruct (process_article_shape l a1 s1 Hl1) as [[Hno ->]|(Hyes & r & w & ->)].
  - split; [done|]. split_and!; try done.
    intros l' a Hl' [Hout|Hempty]; [|by eauto].
    apply Hkeep; [done|]. apply not_elem_of_cons in Hout as [_ ?]. by left.
  - split; [done|]. unfold resolved_state. split_and!.
    + exact Hsess.
    + exact Hdb.
    + cbn. rewrite List.filter_app, Hsave. cbn. by rewrite app_nil_r.
    + intros l'. cbn. destruct (decide (l = l')) as [<-|Hne].
      * rewrite lookup_insert_eq, Hl0.
        destruct Hrel as (? & ? & ? & ? & ? & ? & ? & ? & ?).
        destruct r; by repeat split.
      * rewrite lookup_insert_ne by done. apply Hrec.
    + intros l' a Hl' Hor. cbn. destruct (decide (l = l')) as [<-|Hne].
      * destruct Hor as [Hout|Hempty]; [by apply not_elem_of_cons in Hout as [? _]|].
        rewrite Hl0 in Hl'. injection Hl' as ->.
        destruct Hrel as (_ & _ & _ & _ & _ & Hurl & _).
        rewrite Hurl, Hempty in Hyes. done.
      * rewrite lookup_insert_ne by done. apply Hkeep; [done|].
        destruct Hor as [Hout|?]; [|by right]. left.
        by apply not_elem_of_cons in Hout as [_ ?].
Qed.

Lemma get_real_urls_batch_run articles max_workers s :
  Forall (λ l, is_Some (heap s !! l)) articles →
  ∃ s', get_real_urls_batch articles max_workers s = (Ret articles, s')
        ∧ resolving_frame s articles s'.
Proof.
  intros Hvalid. unfold get_real_urls_batch.
  destruct (executor_map_spec (resolving_frame s) (λ l, is_Some (heap s !! l)) id
              max_workers process_article articles s)
    as (s' & done & E & Hres & Hperm).
  - by intros done s1 w.
  - intros done l Hl. by apply process_article_frame.
  - done.
  - apply resolving_frame_start.
  - exists s'. rewrite map_id in E. split; [done|].
    destruct Hres as (? & ? & ? & ? & Hkeep). split_and!; try done.
    intros l a Hl Hor. apply Hkeep; [done|]. by rewrite Hperm.
Qed.

Lemma fetching_frame_start s : fetching_frame s [] s.
Proof.
  split_and!; try done.
  - exists []. by rewrite app_nil_r.
  - intros l. by destruct (heap s !! l).
Qed.

Lemma fetch_content_frame s done l :
  is_Some (heap s !! l) →
  triple (fetching_frame s done) (fetch_content l)
    (λ b s', b = l ∧ fetching_frame s (l :: done) s') (λ _ _, False).
Proof.
  intros [a0 Hl0] s1 (Hsess & (rows & Hdb & Hlen) & Hrec & Hkeep).
  destruct (same_records_lookup _ _ _ _ _ Hrec Hl0) as (a1 & Hl1 & Hrel).
  destruct (fetch_content_shape l a1 s1 Hl1)
    as [[Hno ->]|(Hyes & r & d & w & -> & Hstored & _)].
  - split; [done|]. split_and!; try done.
    + exists rows. split; [done|]. cbn. lia.
    + intros l' a Hl' Hout. apply Hkeep; [done|].
      by apply not_elem_of_cons in Hout as [_ ?].
  - split; [done|]. unfold fetched_state. split_and!.
    + exact Hsess.
    + cbn. destruct Hstored as [->|(key & saved_at & ->)].
      * exists rows. split; [done|]. cbn. lia.
      * eexists (rows ++ [_]). rewrite Hdb, <- app_assoc. split; [done|].
        rewrite length_app. cbn. lia.
    + intros l'. cbn. destruct (decide (l = l')) as [<-|Hne].
      * rewrite lookup_insert_eq, Hl0.
        destruct Hrel as (? & ? & ? & ? & ? & ? & ? & ?). by repeat split.
      * rewrite lookup_insert_ne by done. apply Hrec.
    + intros l' a Hl' Hout. cbn.
      apply not_elem_of_cons in Hout as [Hne Hout].
      rewrite lookup_insert_ne by done. by apply Hkeep.
Qed.

Lemma fetch_contents_batch_run articles max_workers s :
  Forall (λ l, is_Some (heap s !! l)) articles →
  ∃ s', fetch_contents_batch articles max_workers s = (Ret articles, s')
        ∧ fetching_frame s (List.filter (is_valid (heap s)) articles) s'.
Proof.
  intros Hvalid. unfold fetch_contents_batch. run.
  destruct (List.filter (is_valid (heap s)) articles) as [|l valid] eqn:Ef.
  { run. exists s. split; [done|]. apply fetching_frame_start. }
  rewrite <- Ef.
  destruct (executor_map_spec (fetching_frame s) (λ l, is_Some (heap s !! l)) id
              max_workers fetch_content
              (List.filter (is_valid (heap s)) articles) s)
    as (s' & done & E & Hres & Hperm).
  - by intros done s1 w.
  - intros done l' Hl'. by apply fetch_content_frame.
  - apply Forall_forall. intros l' Hl'.
    apply list_elem_of_In, List.filter_In in Hl' as [_ Hv].
    unfold is_valid in Hv. by destruct (heap s !! l').
  - apply fetching_frame_start.
  - run. rewrite E. run. rewrite map_id, merge_by_identity.
    exists s'. split; [done|].
    destruct Hres as (? & (rows & ? & Hlen) & ? & Hkeep). split_and!; try done.
    + exists rows. split; [done|]. by rewrite <- Hperm.
    + intros l' a Hl' Hout. apply Hkeep; [done|]. by rewrite Hperm.
Qed.
End BatchFrames.



(** What [fetch_contents_batch] leaves alone. Given records that exist, it
    returns their list and has not touched the session; it has created and
    deleted no record and has changed of the records nothing but
    [content], [address] and [content_fetched]; the records that are not
    resolved with a link are exactly as they were; and the table is the
    table it found followed by at most one new row for each article that
    was resolved with a link. *)
Theorem fetch_contents_batch_frame `{Env} (articles : list nat)
    (max_workers : nat) (s : State) :
  Forall (λ l, is_Some (heap s !! l)) articles →
  ∃ s',
    fetch_contents_batch articles max_workers s = (Ret articles, s')
    ∧ same_session s s'
    ∧ (∃ rows, db s' = db s ++ rows
               ∧ length rows ≤ length (List.filter (is_valid (heap s)) articles))
    ∧ same_records same_but_content s s'
    ∧ ∀ l a, heap s !! l = Some a →
        l ∉ articles ∨ is_valid (heap s) l = false → heap s' !! l = Some a.
Proof.
  intros Hvalid.
  destruct (fetch_contents_batch_run articles max_workers s Hvalid)
    as (s' & E & Hsess & Hrows & Hrec & Hkeep).
  exists s'. split_and!; try done.
  intros l a Hl Hor. apply Hkeep; [done|].
  intros [Hin Hv]%list_elem_of_In%List.filter_In.
  destruct Hor as [Hout|Hinv]; [|congruence].
  by apply Hout, list_elem_of_In.
Qed.

(** The fetch of the three articles of scenario D. *)
Lemma fetch_contents_batch_frame_example :
  ∃ s',
    fetch_contents_batch [0; 1; 2] 2 three_resolved = (Ret [0; 1; 2], s')
    ∧ same_session three_resolved s'
    ∧ (∃ rows, db s' = db three_resolved ++ rows
               ∧ length rows
                 ≤ length (List.filter (is_valid (heap three_resolved)) [0; 1; 2]))
    ∧ same_records same_but_content three_resolved s'
    ∧ ∀ l a, heap three_resolved !! l = Some a →
        l ∉ [0; 1; 2] ∨ is_valid (heap three_resolved) l = false →
        heap s' !! l = Some a.
Proof.
  apply (fetch_contents_batch_frame (H:=scenario_env one_live_link)
           [0; 1; 2] 2 three_resolved).
  repeat constructor; by eexists.
Defined.

(** ** CrawlPipeline: what a crawl does to the table *)

(** Invariants that look at the table and the saves only: the functions
    that write to neither keep them. *)
Section HeapFrame.
Context `{Env} {J : State → Prop} `{!Quiet J}.
Hypothesis Hheap : ∀ s h, J s → J (with_heap h s).

Lemma frame_update (C : exn → Prop) l f :
  (∀ msg, C (Exception msg)) → keeps J C (update l f).
Proof.
  intros HC s HJ. rewrite run_update.
  destruct (heap s !! l); [by apply Hheap|done].
Qed.

Lemma frame_alloc C a : keeps J C (alloc a).
Proof. intros s HJ. rewrite run_alloc. by apply Hheap. Qed.

Lemma frame_parse_items (C : exn → Prop) news_items articles :
  (∀ msg, C (Exception msg)) → keeps J C (parse_items news_items articles).
Proof.
  intros HC. revert articles.
  induction news_items as [|it rest IH]; intros articles; cbn [parse_items];
    [safe_auto|].
  apply safe_bind; [safe_auto|intros now].
  apply safe_bind; [by apply safe_lift|intros [a|]]; [|apply IH].
  apply safe_bind; [apply frame_alloc|intros l]. apply IH.
Qed.

Lemma frame_search_articles (C : exn → Prop) query page :
  (∀ msg, C (Exception msg)) → keeps J C (search_articles query page).
Proof.
  intros HC. unfold search_articles, _parse_search_results.
  apply (safe_try C (λ e, C e ∨ is_RequestException e = true));
    [|intros ?; safe_auto|intros e [?|?] Hc; [done|congruence]].
  apply safe_bind; [apply safe_session_get; by right|intros _].
  apply safe_bind; [safe_auto|intros _].
  apply safe_bind; [apply safe_session_get; by right|intros r].
  apply safe_bind; [apply safe_raise_for_status; by right|intros _].
  apply safe_bind; [|intros ?; safe_auto].
  apply (safe_weaken C); [by apply frame_parse_items|by left].
Qed.

Lemma frame_process_article (C : exn → Prop) l :
  (∀ msg, C (Exception msg)) → keeps J C (process_article l).
Proof.
  intros HC. unfold process_article.
  apply safe_bind; [by apply safe_read|intros a].
  destruct (nonempty (sogou_url a)); [|safe_auto].
  apply safe_bind; [apply safe_get_real_wechat_url|intros r].
  apply safe_bind; [safe_auto|intros _].
  apply safe_bind; [destruct r; by apply frame_update|intros _].
  safe_auto.
Qed.

Lemma frame_get_real_urls_batch (C : exn → Prop) articles max_workers :
  (∀ msg, C (Exception msg)) → keeps J C (get_real_urls_batch articles max_workers).
Proof.
  intros HC. apply safe_executor_map; [done|].
  intros l. by apply frame_process_article.
Qed.

Lemma frame_recover_session query page :
  keeps J Exception_or_exit (recover_session query page).
Proof.
  unfold recover_session.
  apply safe_bind; [apply safe_invalidate_session; by left|intros _].
  apply safe_bind; [apply safe_login; by left|intros []]; [|safe_auto].
  apply safe_bind; [apply frame_search_articles; by left|intros [|l articles]].
  - apply safe_raise. by right.
  - safe_auto.
Qed.

(** [crawl_and_extract], given that the fetch, if it is asked for, keeps
    the invariant. *)
Lemma frame_crawl_and_extract (J0 : State → Prop) query page get_real_urls
    fetch_content :
  (∀ s, J0 s → J (with_events [EvCrawl query page] s)) →
  (fetch_content && get_real_urls = true →
   ∀ articles, keeps J Exception_or_exit (fetch_contents_batch articles 2)) →
  triple J0 (crawl_and_extract query page get_real_urls fetch_content)
    (λ _, J) (λ e s, e = SystemExit 0 ∧ J s).
Proof.
  intros Hcrawl Hfetch. unfold crawl_and_extract.
  apply (triple_bind _ _ _ (λ _, J)); [by apply triple_modify|intros _].
  apply (safe_try _ Exception_or_exit); [|intros ?; safe_auto|].
  2:{ intros e [He| ->] Hc; [congruence|done]. }
  apply safe_bind; [safe_auto|intros s].
  apply safe_bind;
    [destruct (negb (is_logged_in s)); [apply safe_login; by left|safe_auto]
    |intros logged_in].
  destruct (negb logged_in); [safe_auto|].
  apply safe_bind; [apply frame_search_articles; by left|intros articles].
  apply safe_bind;
    [destruct articles; [apply frame_recover_session|safe_auto]|intros [found|early]];
    [|safe_auto].
  apply safe_bind;
    [destruct get_real_urls; [apply frame_get_real_urls_batch; by left|safe_auto]
    |intros resolved].
  apply safe_bind;
    [destruct (fetch_content && get_real_urls); [by apply Hfetch|safe_auto]
    |intros fetched].
  safe_auto.
Qed.

Lemma frame_crawl_pages name pages page get_real_urls fetch_content :
  (∀ p, triple J (crawl_and_extract name p get_real_urls fetch_content)
          (λ _, J) (λ _, J)) →
  ∀ all_results,
    triple J
      (crawl_pages name pages page get_real_urls fetch_content all_results)
      (λ _, J) (λ _, J).
Proof.
  intros Hcrawl.
  induction pages as [|p rest IH]; intros all_results; cbn [crawl_pages];
    [by apply triple_ret|].
  eapply triple_bind; [|intros ?; apply IH].
  eapply triple_try with (X1 := λ _, J);
    [|intros e _; by apply triple_ret|done].
  eapply triple_bind; [apply Hcrawl|intros r].
  apply (triple_bind _ _ _ (λ _, J)); [|intros _; by apply triple_ret].
  destruct (p <? page)%Z; [|by apply triple_ret].
  eapply keeps_triple, (safe_sleep (λ _, True)).
Qed.

Lemma frame_crawl_all get_real_urls fetch_content page :
  (∀ name p, triple J (crawl_and_extract name p get_real_urls fetch_content)
               (λ _, J) (λ _, J)) →
  triple J (crawl_all_configured_accounts get_real_urls fetch_content page)
    (λ _, J) (λ _, J).
Proof.
  intros Hcrawl. unfold crawl_all_configured_accounts, for_accounts.
  apply (triple_bind _ _ _ (λ _, J)); [by apply triple_get|intros s0].
  apply (triple_bind _ _ _ (λ _, J)).
  { destruct (negb (is_logged_in s0));
      [eapply keeps_triple, (safe_login (λ _, True)); done|by apply triple_ret]. }
  intros logged_in. destruct (negb logged_in); [by apply triple_ret|].
  eapply triple_bind;
    [eapply keeps_triple, (safe_load_wechat_accounts (λ _, True))|].
  intros [|name todo]; [by apply triple_ret|].
  eapply triple_bind; [by apply frame_crawl_pages|].
  intros all_results. by apply triple_ret.
Qed.
End HeapFrame.

Lemma with_db_id `{Env} (s : State) : with_db (db s) s = s.
Proof. by destruct s. Qed.

(** Invariants of the table that the appending of a row under a new key
    keeps: the whole pipeline keeps them. *)
Section TableGrowth.
Context `{Env} {J : State → Prop} `{!Quiet J}.
Hypothesis Hheap : ∀ s h, J s → J (with_heap h s).
Hypothesis Hsave : ∀ s l a, J s → J (with_events [EvSave l a] s).
Hypothesis Hrow : ∀ s r,
  has_key (object_key r) (db s) = false → J s → J (with_db (db s ++ [r]) s).

Lemma grow_save_article C d : keeps J C (save_article d).
Proof.
  intros s HJ.
  destruct (save_article_shape d s) as (b & w & d' & E & _).
  destruct (save_article_row d s) as (b' & s' & E' & Hb).
  rewrite E in E'. injection E' as <- <-. rewrite E.
  pose proof (quiet_world s w HJ) as HJw.
  destruct b.
  - destruct Hb as (r & Hout & Hdb). cbn in Hdb. rewrite Hdb.
    by apply (Hrow (with_world w s)).
  - cbn in Hb. rewrite Hb.
    change (db s) with (db (with_world w s)). by rewrite with_db_id.
Qed.

Lemma grow_save_article_to_storage C l : keeps J C (save_article_to_storage l).
Proof.
  unfold save_article_to_storage.
  apply (safe_try C any_Exception);
    [|intros ?; safe_auto|intros e He Hc; by destruct (any_Exception_caught e)].
  apply safe_bind; [by apply safe_read|intros a].
  apply safe_bind; [apply keeps_modify; intros s; apply Hsave|intros _].
  apply safe_bind; [safe_auto|intros s].
  apply safe_bind; [apply grow_save_article|intros []; safe_auto].
Qed.

Lemma grow_fetch_content (C : exn → Prop) l :
  (∀ msg, C (Exception msg)) → keeps J C (fetch_content l).
Proof.
  intros HC. unfold fetch_content.
  apply safe_bind; [by apply safe_read|intros a].
  destruct (_ && _); [|safe_auto].
  apply safe_bind; [apply safe_fetch_article_content|intros r].
  apply safe_bind; [safe_auto|intros _].
  apply safe_bind; [by apply frame_update|intros _].
  apply safe_bind; [|intros _; safe_auto].
  destruct (result_success r); [|safe_auto].
  apply safe_bind; [apply grow_save_article_to_storage|intros ?; safe_auto].
Qed.

Lemma grow_fetch_contents_batch (C : exn → Prop) articles max_workers :
  (∀ msg, C (Exception msg)) → keeps J C (fetch_contents_batch articles max_workers).
Proof.
  intros HC. unfold fetch_contents_batch.
  apply safe_bind; [safe_auto|intros s].
  destruct (List.filter _ _) as [|l valid]; [safe_auto|].
  apply safe_bind; [|intros ?; safe_auto].
  apply safe_executor_map; [done|]. intros l'. by apply grow_fetch_content.
Qed.

Lemma grow_crawl_and_extract query page get_real_urls fetch_content :
  (∀ s, J s → J (with_events [EvCrawl query page] s)) →
  triple J (crawl_and_extract query page get_real_urls fetch_content)
    (λ _, J) (λ _, J).
Proof.
  intros Hcrawl. eapply triple_conseq;
    [apply (frame_crawl_and_extract Hheap J)|done|done|by intros e s [_ ?]];
    [done|].
  intros _ articles. apply grow_fetch_contents_batch. by left.
Qed.
End TableGrowth.

Section TableProofs.
Context `{Env}.

Lemma extends_refl (d : list row) : extends d d.
Proof. exists []. rewrite app_nil_r. split_and!; [done|constructor|done]. Qed.

Lemma extends_row (d d' : list row) (r : row) :
  has_key (object_key r) d' = false → extends d d' → extends d (d' ++ [r]).
Proof.
  intros Hout (rows & -> & Hnd & Hnew). exists (rows ++ [r]).
  assert (object_key r ∉ map object_key (d ++ rows)) as Hnot
    by (intros Hin%has_key_elem; congruence).
  rewrite map_app in Hnot. apply not_elem_of_app in Hnot as [Hd Hrows].
  split_and!.
  - by rewrite app_assoc.
  - rewrite map_app. apply NoDup_app. split_and!; [done| |apply NoDup_singleton].
    by intros k Hk [->|[]%elem_of_nil]%elem_of_cons.
  - apply Forall_app. split; [done|]. constructor; [|done].
    destruct (has_key (object_key r) d) eqn:E; [|done].
    by apply has_key_elem in E.
Qed.

(** Unique keys stay unique. *)
Lemma extends_unique (d d' : list row) :
  extends d d' → NoDup (map object_key d) → NoDup (map object_key d').
Proof.
  intros (rows & -> & Hnd & Hnew) Hd. rewrite map_app. apply NoDup_app.
  split_and!; [done| |done].
  intros k Hk Hin. apply list_elem_of_In, in_map_iff in Hin as (r & <- & Hin).
  rewrite Forall_forall in Hnew. apply list_elem_of_In in Hin.
  apply has_key_elem in Hk. by rewrite (Hnew r Hin) in Hk.
Qed.

Lemma quiet_extends (d : list row) : Quiet (λ s, extends d (db s)).
Proof. by split. Qed.

(** Neither the table nor the saves of the trace have changed. *)
Lemma quiet_nothing_saved (d : list row) (saves : list event) :
  Quiet (λ s, db s = d ∧ List.filter is_save (trace s) = saves).
Proof.
  split; try done. intros s e _ He [? Hs]. split; [done|]. cbn.
  rewrite List.filter_app, Hs. cbn. rewrite He. by rewrite app_nil_r.
Qed.
End TableProofs.

(** Without the fetch nothing is stored. When [fetch_content] or
    [get_real_urls] is [False], a call of [crawl_and_extract] leaves the
    table as it was and hands no record to the store, however it ends. *)
Theorem crawl_without_fetch_stores_nothing `{Env} (query : str) (page : Z)
    (get_real_urls fetch_content : bool) (s : State) :
  fetch_content && get_real_urls = false →
  db (crawl_and_extract query page get_real_urls fetch_content s).2 = db s
  ∧ List.filter is_save
      (trace (crawl_and_extract query page get_real_urls fetch_content s).2)
    = List.filter is_save (trace s).
Proof.
  intros Hoff.
  pose proof (quiet_nothing_saved (db s) (List.filter is_save (trace s))) as HQ.
  set (J := λ s' : State,
         db s' = db s
         ∧ List.filter is_save (trace s') = List.filter is_save (trace s)) in *.
  assert (∀ s' h, J s' → J (with_heap h s')) as Hheap by done.
  apply (triple_state J); [|done].
  eapply triple_conseq;
    [apply (frame_crawl_and_extract Hheap J query page get_real_urls fetch_content)
    |done|done|by intros e s' [_ ?]].
  - intros s' [? Hs]. split; [done|]. cbn.
    rewrite List.filter_app, Hs. cbn. by rewrite app_nil_r.
  - by rewrite Hoff.
Qed.

(** A crawl that resolves the links and does not fetch. *)
Lemma crawl_without_fetch_example :
  db (crawl_and_extract [97%N] 1 true false (fresh_crawler two_accounts true)).2
  = db (fresh_crawler two_accounts true)
  ∧ List.filter is_save
      (trace (crawl_and_extract [97%N] 1 true false
                (fresh_crawler two_accounts true)).2)
    = List.filter is_save (trace (fresh_crawler two_accounts true)).
Proof.
  apply (crawl_without_fetch_stores_nothing (H:=scenario_env two_accounts)).
  reflexivity.
Defined.

(** The table only grows, and by rows with new keys. After a fetch batch,
    after a call of [crawl_and_extract] and after a call of
    [crawl_all_configured_accounts], however they end, the table is the
    table as it was, row for row, followed by new rows whose keys are all
    different and were held by no row; so that keys that were unique are
    still unique. *)
Theorem table_only_grows `{Env} (s : State) :
  (∀ articles max_workers,
     extends (db s) (db (fetch_contents_batch articles max_workers s).2))
  ∧ (∀ query page get_real_urls fetch_content,
       extends (db s)
         (db (crawl_and_extract query page get_real_urls fetch_content s).2))
  ∧ (∀ get_real_urls fetch_content page,
       extends (db s)
         (db (crawl_all_configured_accounts get_real_urls fetch_content page s).2))
  ∧ (∀ d', extends (db s) d' →
       NoDup (map object_key (db s)) → NoDup (map object_key d')).
Proof.
  pose proof (quiet_extends (db s)) as HQ.
  assert (∀ s' r, has_key (object_key r) (db s') = false →
            extends (db s) (db s') → extends (db s) (db s' ++ [r])) as Hrow
    by (intros s' r; apply extends_row).
  assert (∀ query page g f,
    triple (λ s', extends (db s) (db s')) (crawl_and_extract query page g f)
      (λ _ s', extends (db s) (db s')) (λ _ s', extends (db s) (db s')))
    as Hcrawl.
  { intros query page g f.
    by apply (grow_crawl_and_extract (J:=λ s', extends (db s) (db s'))). }
  split_and!.
  - intros articles max_workers.
    apply (triple_state (λ s', extends (db s) (db s'))); [|apply extends_refl].
    apply (keeps_triple _ (λ _, True)).
    by apply (grow_fetch_contents_batch (J:=λ s', extends (db s) (db s'))).
  - intros query page g f.
    apply (triple_state (λ s', extends (db s) (db s'))); [|apply extends_refl].
    apply Hcrawl.
  - intros g f page.
    apply (triple_state (λ s', extends (db s) (db s'))); [|apply extends_refl].
    apply (frame_crawl_all (J:=λ s', extends (db s) (db s'))).
    intros name p. apply Hcrawl.
  - intros d'. apply extends_unique.
Qed.

(** ** CrawlPipeline: the result of a crawl *)

Section ResultProofs.
Context `{Env}.

Lemma triple_any {A} (P : State → Prop) (m : M A) :
  triple P m (λ _ _, True) (λ _ _, True).
Proof. intros s _. by destruct (m s) as [[a|e] s']. Qed.

Lemma search_articles_listed query page :
  triple (λ _, True) (search_articles query page)
    (λ found s, found = [] ∨ listed found s) (λ _ _, True).
Proof.
  intros s _.
  destruct (search_articles_run query page s)
    as (o & h & w & evs & -> & _ & _ & Ho).
  destruct o as [found|e]; [|done]. destruct Ho as (Hnd & Hnew & _).
  destruct found as [|l found]; [by left|right]. split_and!; [done|done|].
  eapply Forall_impl; [exact Hnew|]. intros l' [_ (a & Ha & Hfresh)].
  exists a. split; [exact Ha|apply Hfresh].
Qed.

Lemma recover_session_listed query page :
  triple (λ _, True) (recover_session query page)
    (λ r s, match r with
            | inl found => listed found s
            | inr early => early = failure MsgReloginFailed
            end)
    (λ _ _, True).
Proof.
  unfold recover_session.
  apply (triple_bind _ _ _ (λ _ _, True)); [apply triple_any|intros _].
  apply (triple_bind _ _ _ (λ _ _, True)); [apply triple_any|intros []];
    [|by apply triple_ret].
  eapply triple_bind; [apply search_articles_listed|intros [|l found]].
  - by apply triple_raise.
  - apply triple_ret. by intros s [?|?].
Qed.

Lemma listed_same_title (rel : WeChatArticle → WeChatArticle → Prop)
    found s s' :
  (∀ a a', rel a a' → title a' = title a) →
  same_records rel s s' → listed found s → listed found s'.
Proof.
  intros Hrel Hrec (Hne & Hnd & Hall). split_and!; [done|done|].
  eapply Forall_impl; [exact Hall|]. intros l (a & Ha & Ht).
  destruct (same_records_lookup _ _ _ _ _ Hrec Ha) as (a' & Ha' & Hr).
  exists a'. split; [done|]. by rewrite (Hrel _ _ Hr).
Qed.

Lemma listed_exist found s :
  listed found s → Forall (λ l, is_Some (heap s !! l)) found.
Proof.
  intros (_ & _ & Hall). eapply Forall_impl; [exact Hall|].
  intros l (a & Ha & _). by exists a.
Qed.

Lemma get_real_urls_batch_listed found max_workers :
  triple (listed found) (get_real_urls_batch found max_workers)
    (λ r s, r = found ∧ listed found s) (λ _ _, True).
Proof.
  intros s Hl.
  destruct (get_real_urls_batch_run found max_workers s (listed_exist _ _ Hl))
    as (s' & -> & _ & _ & _ & Hrec & _).
  split; [done|]. apply (listed_same_title same_but_resolution found s s');
    [|done|done].
  by intros a a' (? & _).
Qed.

Lemma fetch_contents_batch_listed found max_workers :
  triple (listed found) (fetch_contents_batch found max_workers)
    (λ r s, r = found ∧ listed found s) (λ _ _, True).
Proof.
  intros s Hl.
  destruct (fetch_contents_batch_run found max_workers s (listed_exist _ _ Hl))
    as (s' & -> & _ & _ & Hrec & _).
  split; [done|]. apply (listed_same_title same_but_content found s s');
    [|done|done].
  by intros a a' (? & _).
Qed.

Lemma crawl_and_extract_result query page get_real_urls fetch_content :
  triple (λ _, True)
    (crawl_and_extract query page get_real_urls fetch_content)
    (result_shape fetch_content) (λ _ _, True).
Proof.
  unfold crawl_and_extract.
  apply (triple_bind _ _ _ (λ _ _, True)); [apply triple_any|intros _].
  apply (triple_try _ _ _ _ _ _ (λ _ _, True)); [| |done].
  2:{ intros e _. apply triple_ret. intros s _. split; [done|].
      right. right. by eexists. }
  apply (triple_bind _ _ _ (λ _ _, True)); [apply triple_any|intros s0].
  apply (triple_bind _ _ _ (λ _ _, True)); [apply triple_any|intros logged_in].
  destruct (negb logged_in).
  { apply triple_ret. intros s _. split; [done|by left]. }
  eapply triple_bind; [apply search_articles_listed|intros found].
  apply (triple_bind _ _ _
           (λ r s, match r with
                   | inl found => listed found s
                   | inr early => early = failure MsgReloginFailed
                   end)).
  { destruct found as [|l found].
    - eapply triple_conseq; [apply recover_session_listed|done|done|done].
    - apply triple_ret. by intros s [?|?]. }
  intros [articles|early].
  2:{ apply triple_ret. intros s ->. split; [done|]. right. by left. }
  apply (triple_bind _ _ _ (λ r s, r = articles ∧ listed articles s)).
  { destruct get_real_urls; [apply get_real_urls_batch_listed|by apply triple_ret]. }
  intros resolved.
  apply (triple_bind _ _ _ (λ r s, r = articles ∧ listed articles s)).
  { destruct (fetch_content && get_real_urls); [|by apply triple_ret].
    intros s [-> Hl]. by apply fetch_contents_batch_listed. }
  intros fetched.
  apply (triple_bind _ _ _ (λ s1 s, s1 = s ∧ fetched = articles ∧ listed articles s)).
  { apply triple_get. by intros s [? ?]. }
  intros s1. apply triple_ret. intros s (-> & -> & Hl).
  unfold result_shape. cbn. by exists articles.
Qed.
End ResultProofs.

(** The result of a crawl. When [crawl_and_extract] returns a result that
    succeeded, its data is a list of records that is not empty and has no
    record twice, each record exists and has a title, and the message
    counts these records and, if the fetch was asked for, those among them
    that are fetched. When it returns a result that failed, the data is the
    empty list, and the message is that of the login, of the second login
    or the text of an exception. *)
Theorem crawl_result_shape `{Env} (query : str) (page : Z)
    (get_real_urls fetch_content : bool) (s : State) :
  match crawl_and_extract query page get_real_urls fetch_content s with
  | (Ret r, s') => result_shape fetch_content r s'
  | (Raise e, s') => True
  end.
Proof.
  pose proof (crawl_and_extract_result query page get_real_urls fetch_content
                s I) as Ht.
  by destruct (crawl_and_extract query page get_real_urls fetch_content s)
    as [[r|e] s'].
Qed.

(** ** The driving loop: its result *)

Section LoopProofs.
Context `{Env}.



End LoopProofs.


(** ** The life of a crawler *)

(** A field read from a state whose keyword was assigned. *)
Ltac field_kw :=
  match goal with
  | |- context [@keyword ?E (@with_keyword ?E ?k ?s)] =>
      change (@keyword E (@with_keyword E k s)) with k
  | |- context [?p (@with_keyword ?E ?k ?s)] =>
      is_field p;
      lazymatch p with @keyword _ => fail | _ => idtac end;
      change (p (@with_keyword E k s)) with (p s)
  end.

Ltac run_kw := repeat first [run1 | field_kw].

Section LifecycleProofs.
Context `{Env}.
Variable logging_setup : World → res unit * World.
Variable anti_crawler_create : World → res unit * World.
Variable storage_open : World → res (list row) * World.
Variable fs_cookie_read : World → res (list cookie) * World.
Variable pw_browser_close : World → res unit * World.
Variable pw_stop : World → res unit * World.

Lemma load_login_cookies_run s :
  ∃ s',
    load_login_cookies fs_cookie_read s = (Ret (), s')
    ∧ (use_anti_crawler s' = use_anti_crawler s ∧ keyword s' = keyword s
       ∧ playwright s' = playwright s ∧ browser s' = browser s
       ∧ heap s' = heap s ∧ db s' = db s ∧ trace s' = trace s)
    ∧ match (fs_cookie_exists (world s)).1,
            (fs_cookie_read (fs_cookie_exists (world s)).2).1 with
      | false, _ =>
          is_logged_in s' = is_logged_in s
          ∧ login_session s' = login_session s
          ∧ anti_crawler_session s' = anti_crawler_session s
      | true, Err _ =>
          is_logged_in s' = false
          ∧ login_session s' = login_session s
          ∧ anti_crawler_session s' = anti_crawler_session s
      | true, Ok cookies =>
          is_logged_in s' = true
          ∧ login_session s' = set_cookies cookies (login_session s)
          ∧ anti_crawler_session s'
            = (if use_anti_crawler s
               then set_cookies cookies (anti_crawler_session s)
               else anti_crawler_session s)
      end.
Proof.
  unfold load_login_cookies, set_login_session, set_is_logged_in,
    set_anti_crawler_session. run.
  destruct (fs_cookie_exists (world s)) as [[] w]; run.
  - destruct (fs_cookie_read w) as [[cookies|msg] w']; run.
    + destruct (use_anti_crawler s) eqn:Ea; run;
        (eexists; split; [reflexivity|]); run; by rewrite ?Ea.
    + (eexists; split; [reflexivity|]); by run.
  - (eexists; split; [reflexivity|]); by run.
Qed.

Lemma close_playwright_run s :
  ∃ o w,
    close_playwright pw_browser_close pw_stop s = (o, with_world w s)
    ∧ ∀ e, o = Raise e → is_Exception e = true.
Proof.
  unfold close_playwright. run.
  assert (∀ s1, ∃ o w,
            (if playwright s then call Exception pw_stop else ret ()) s1
            = (o, with_world w s1)
            ∧ ∀ e, o = Raise e → is_Exception e = true) as Hstop.
  { intros s1. destruct (playwright s); run.
    - destruct (pw_stop (world s1)) as [[[]|msg] w]; run; eexists _, _;
        (split; [reflexivity|]); [done|by intros e [= <-]].
    - exists (Ret ()), (world s1). by rewrite with_world_id. }
  destruct (browser s); run.
  - destruct (pw_browser_close (world s)) as [[[]|msg] w]; run.
    + destruct (Hstop (with_world w s)) as (o & w' & -> & Ho).
      exists o, w'. split; [f_equal; state_eq|done].
    + eexists _, _. split; [reflexivity|]. by intros e [= <-].
  - apply Hstop.
Qed.

(** The crawls of [crawl_all_configured_accounts]: pages of the range, from
    its first on and in order, all of one account. *)
Lemma crawl_all_crawls get_real_urls fetch_content page s :
  ∃ name k,
    List.filter is_crawl
      (trace (crawl_all_configured_accounts get_real_urls fetch_content page s).2)
    = List.filter is_crawl (trace s)
      ++ map (EvCrawl name) (take k (page_range (default 3000%Z page))).
Proof.
  set (J := λ s' : State,
         List.filter is_crawl (trace s') = List.filter is_crawl (trace s)).
  assert (∀ s1, J s1 →
    ∃ name k,
      List.filter is_crawl
        (trace ((accounts <- load_wechat_accounts ;;
                 match accounts with
                 | [] => ret (Some {| all_success := false;
                                      all_message := MsgNoAccounts;
                                      all_data := [] |})
                 | _ :: _ =>
                     for_accounts accounts accounts page get_real_urls
                       fetch_content []
                 end) s1).2)
      = List.filter is_crawl (trace s)
        ++ map (EvCrawl name) (take k (page_range (default 3000%Z page))))
    as Hrest.
  { intros s1 HJ. run.
    destruct (safe_outcome (J:=J) (λ _, False) load_wechat_accounts s1
                (safe_load_wechat_accounts _) HJ) as [HJ2 Hno].
    destruct (load_wechat_accounts s1) as [[accounts|e] s2];
      [|by destruct (Hno e)].
    cbn [fst snd] in HJ2. run.
    destruct accounts as [|name todo]; run.
    { exists [], 0. cbn. by rewrite app_nil_r. }
    pose proof (for_accounts_first_only (name :: todo) name todo page
                  get_real_urls fetch_content s2) as Hf.
    destruct (for_accounts _ _ _ _ _ _ s2) as [[r|e] s']; cbn [fst snd].
    - destruct Hf as [-> _]. exists name, (length (page_range (default 3000%Z page))).
      by rewrite firstn_all, HJ2.
    - destruct Hf as [_ (k & ->)]. exists name, (S k). by rewrite HJ2. }
  unfold crawl_all_configured_accounts. run.
  destruct (is_logged_in s); run; [by apply Hrest|].
  destruct (safe_outcome (J:=J) (λ _, True) (login false) s
              (safe_login _ _ (λ _, I)) eq_refl) as [HJ1 _].
  destruct (login false s) as [[b|e] s1]; cbn [fst snd] in HJ1; run.
  - destruct b; run; [by apply Hrest|].
    exists [], 0. cbn. by rewrite app_nil_r.
  - exists [], 0. cbn. by rewrite app_nil_r.
Qed.
End LifecycleProofs.

Section ConstructorProofs.
Context `{Env}.
Variable logging_setup : World → res unit * World.
Variable anti_crawler_create : World → res unit * World.
Variable storage_open : World → res (list row) * World.
Variable fs_cookie_read : World → res (list cookie) * World.

(** What [__init__] leaves, however it ends, and what it has assigned when
    it returns. *)
Lemma init_run (keyword_arg : option str) (anti : bool) (w : World) :
  ∃ o s,
    __init__ logging_setup anti_crawler_create storage_open fs_cookie_read
      keyword_arg (blank_crawler anti w) = (o, s)
    ∧ (trace s = [] ∧ heap s = ∅ ∧ playwright s = false ∧ browser s = false
       ∧ use_anti_crawler s = anti)
    ∧ (db s = [] ∨ ∃ w0, (storage_open w0).1 = Ok (db s))
    ∧ (o = Ret () →
       keyword s ≠ []
       ∧ (nonempty (default [] keyword_arg) = true
          → keyword s = default [] keyword_arg)
       ∧ (∃ w0, (storage_open w0).1 = Ok (db s))
       ∧ ((is_logged_in s = false
           ∧ login_session s = ∅ ∧ anti_crawler_session s = ∅)
          ∨ (is_logged_in s = true
             ∧ ∃ cookies,
                 login_session s = set_cookies cookies ∅
                 ∧ anti_crawler_session s
                   = if anti then set_cookies cookies ∅ else ∅))).
Proof.
  unfold __init__, set_keyword, set_is_logged_in, set_login_session,
    set_playwright, set_browser, set_anti_crawler_session, set_db.
  run_kw. cbn [world blank_crawler].
  destruct (logging_setup w) as [[[]|msg] w1]; run_kw.
  2:{ eexists _, _. split; [reflexivity|]. run_kw. cbn. split_and!; try done.
      by left. }
  assert (∃ k w2,
    (if nonempty (default [] keyword_arg) then ret (default [] keyword_arg)
     else
       accounts <- load_wechat_accounts ;;
       ret (match accounts with first :: _ => first | [] => default_keyword end))
      (with_login_session ∅
         (with_is_logged_in false (with_world w1 (blank_crawler anti w))))
    = (Ret k,
       with_world w2
         (with_login_session ∅
            (with_is_logged_in false (with_world w1 (blank_crawler anti w)))))
    ∧ k ≠ []
    ∧ (nonempty (default [] keyword_arg) = true → k = default [] keyword_arg))
    as (k & w2 & -> & Hk & Hgiven).
  { destruct (nonempty (default [] keyword_arg)) eqn:Ek.
    - exists (default [] keyword_arg), w1. split; [f_equal; state_eq|].
      split; [|done]. by destruct (default [] keyword_arg).
    - run.
      edestruct (load_wechat_accounts_run) as (accounts & -> & Hall & _).
      run. eexists _, _. split; [f_equal; state_eq|]. split; [|done].
      destruct accounts as [|first rest]; [done|].
      by apply Forall_cons in Hall as [[? _] _]. }
  run_kw. cbn [use_anti_crawler blank_crawler].
  set (s2 := with_browser false
               (with_playwright false
                  (with_keyword k
                     (with_world w2
                        (with_login_session ∅
                           (with_is_logged_in false
                              (with_world w1 (blank_crawler anti w)))))))).
  assert (trace s2 = [] ∧ heap s2 = ∅ ∧ playwright s2 = false
          ∧ browser s2 = false ∧ use_anti_crawler s2 = anti ∧ db s2 = []
          ∧ keyword s2 = k ∧ is_logged_in s2 = false ∧ login_session s2 = ∅
          ∧ anti_crawler_session s2 = ∅ ∧ world s2 = w2)
    as (Htr & Hheap & Hp & Hb & Hanti & Hdb & Hkw & Hin & Hjar & Hajar & Hw)
    by (subst s2; run_kw; by cbn).
  clearbody s2.
  assert (∃ o s3,
    (if anti
     then call Exception anti_crawler_create ;;;
          modify (with_anti_crawler_session ∅)
     else ret ()) s2 = (o, s3)
    ∧ (trace s3 = [] ∧ heap s3 = ∅ ∧ playwright s3 = false
       ∧ browser s3 = false ∧ use_anti_crawler s3 = anti ∧ db s3 = []
       ∧ keyword s3 = k ∧ is_logged_in s3 = false ∧ login_session s3 = ∅
       ∧ anti_crawler_session s3 = ∅)) as (o3 & s3 & -> & Hs3).
  { destruct anti; run.
    - destruct (anti_crawler_create (world s2)) as [[[]|msg] w3]; run;
        eexists _, _; (split; [reflexivity|]); run; by split_and!.
    - eexists _, _. split; [reflexivity|]. by split_and!. }
  destruct Hs3 as (Htr3 & Hheap3 & Hp3 & Hb3 & Hanti3 & Hdb3 & Hkw3 & Hin3
                   & Hjar3 & Hajar3).
  destruct o3 as [[]|e]; run.
  2:{ eexists _, _. split; [reflexivity|]. split_and!; try done. by left. }
  destruct (storage_open (world s3)) as [[table|msg] w4] eqn:Eopen; run.
  2:{ eexists _, _. split; [reflexivity|]. run. split_and!; try done. by left. }
  edestruct (load_login_cookies_run fs_cookie_read)
    as (s5 & -> & (Ha5 & Hk5 & Hp5 & Hb5 & Hh5 & Hd5 & Ht5) & Hcookies).
  revert Ha5 Hk5 Hp5 Hb5 Hh5 Hd5 Ht5 Hcookies. run.
  intros Ha5 Hk5 Hp5 Hb5 Hh5 Hd5 Ht5 Hcookies.
  exists (Ret ()), s5. split; [done|].
  assert (∃ w0, (storage_open w0).1 = Ok (db s5)) as Hopen
    by (exists (world s3); by rewrite Eopen, Hd5).
  split_and!; try congruence; [by right|]. intros _.
  rewrite Hin3, Hjar3, Hajar3, Hanti3 in Hcookies. split_and!.
  - by rewrite Hk5, Hkw3.
  - intros Hg. rewrite Hk5, Hkw3. by apply Hgiven.
  - exact Hopen.
  - destruct (fs_cookie_exists w4) as [[] w5]; cbn [fst snd] in Hcookies;
      [|by left].
    destruct (fs_cookie_read w5) as [[cookies|msg] w6]; cbn [fst snd] in Hcookies;
      [|by left].
    right. destruct Hcookies as (? & ? & ?). split; [done|]. by exists cookies.
Qed.
End ConstructorProofs.


(** [close_playwright] closes the browser and stops Playwright and leaves
    the fields of the crawler as they are, [playwright] and [browser]
    included: after it, [init_playwright] still finds Playwright set and
    starts nothing. What it raises is an [Exception] of the browser. *)
Theorem close_playwright_keeps_fields `{Env}
    (pw_browser_close pw_stop : World → res unit * World) (s : State) :
  ∃ o w,
    close_playwright pw_browser_close pw_stop s = (o, with_world w s)
    ∧ (∀ e, o = Raise e → is_Exception e = true)
    ∧ (playwright s = true →
       init_playwright (with_world w s) = (Ret (), with_world w s)).
Proof.
  destruct (close_playwright_run pw_browser_close pw_stop s) as (o & w & E & Ho).
  exists o, w. split_and!; [done|done|]. intros Hp.
  unfold init_playwright. run. rewrite Hp. by run.
Qed.



Section MainProofs.
Context `{Env}.
Variable logging_setup : World → res unit * World.
Variable anti_crawler_create : World → res unit * World.
Variable storage_open : World → res (list row) * World.
Variable fs_cookie_read : World → res (list cookie) * World.
Variable pw_browser_close : World → res unit * World.
Variable pw_stop : World → res unit * World.

Lemma safe_close_playwright {J : State → Prop} `{!Quiet J} (C : exn → Prop) :
  (∀ msg, C (Exception msg)) →
  keeps J C (close_playwright pw_browser_close pw_stop).
Proof.
  intros HC. unfold close_playwright.
  apply safe_bind; [safe_auto|intros s].
  apply safe_bind; [destruct (browser s); [by apply safe_call|safe_auto]|intros _].
  destruct (playwright s); [by apply safe_call|safe_auto].
Qed.

(** What follows the constructor in [main] keeps the invariants of the
    table that the whole pipeline keeps. *)
Lemma main_body_table (J : State → Prop) `{!Quiet J} :
  (∀ s h, J s → J (with_heap h s)) →
  (∀ s l a, J s → J (with_events [EvSave l a] s)) →
  (∀ s r, has_key (object_key r) (db s) = false → J s →
          J (with_db (db s ++ [r]) s)) →
  (∀ s query page, J s → J (with_events [EvCrawl query page] s)) →
  triple J
    (s <- get_state ;;
     (if negb (is_logged_in s) then login false ;;; ret () else ret ()) ;;;
     load_wechat_accounts ;;;
     crawl_all_configured_accounts true true None ;;;
     close_playwright pw_browser_close pw_stop)
    (λ _, J) (λ _, J).
Proof.
  intros Hheap Hsave Hrow Hcrawl.
  apply (triple_bind _ _ _ (λ _, J)); [by apply triple_get|intros s0].
  apply (triple_bind _ _ _ (λ _, J)).
  { destruct (negb (is_logged_in s0)); [|by apply triple_ret].
    apply (keeps_triple _ (λ _, True)).
    apply safe_bind; [by apply safe_login|intros ?; safe_auto]. }
  intros _. apply (triple_bind _ _ _ (λ _, J));
    [eapply keeps_triple, (safe_load_wechat_accounts (λ _, True))|intros _].
  apply (triple_bind _ _ _ (λ _, J)).
  { apply frame_crawl_all. intros name p.
    apply grow_crawl_and_extract; try done. intros s. apply Hcrawl. }
  intros _. by apply (keeps_triple _ (λ _, True)), safe_close_playwright.
Qed.

(** The crawls of the trace are pages of the range, from its first on and
    in order, all of one account. *)
Lemma first_pages_nil s :
  List.filter is_crawl (trace s) = [] →
  ∃ name k,
    List.filter is_crawl (trace s)
    = map (EvCrawl name) (take k (page_range 3000%Z)).
Proof. intros ->. by exists [], 0. Qed.

Lemma main_body_crawls :
  triple (λ s, List.filter is_crawl (trace s) = [])
    (s <- get_state ;;
     (if negb (is_logged_in s) then login false ;;; ret () else ret ()) ;;;
     load_wechat_accounts ;;;
     crawl_all_configured_accounts true true None ;;;
     close_playwright pw_browser_close pw_stop)
    (λ _ s, ∃ name k,
       List.filter is_crawl (trace s)
       = map (EvCrawl name) (take k (page_range 3000%Z)))
    (λ _ s, ∃ name k,
       List.filter is_crawl (trace s)
       = map (EvCrawl name) (take k (page_range 3000%Z))).
Proof.
  set (J := λ s : State, List.filter is_crawl (trace s) = []).
  assert (∀ {A} (m : M A), keeps J (λ _, True) m →
            triple J m (λ _, J)
              (λ _ s, ∃ name k,
                 List.filter is_crawl (trace s)
                 = map (EvCrawl name) (take k (page_range 3000%Z)))) as Hpre.
  { intros A m Hm. eapply triple_conseq; [exact Hm|done|done|].
    intros e s [_ Hs]. by apply first_pages_nil. }
  apply (triple_bind _ _ _ (λ _, J)); [by apply triple_get|intros s0].
  apply (triple_bind _ _ _ (λ _, J)).
  { destruct (negb (is_logged_in s0));
      [|apply triple_ret; by intros s Hs].
    apply Hpre. apply safe_bind; [by apply safe_login|intros ?; safe_auto]. }
  intros _. apply (triple_bind _ _ _ (λ _, J));
    [apply Hpre, safe_load_wechat_accounts|intros _].
  apply (triple_bind _ _ _
           (λ _ s, ∃ name k,
              List.filter is_crawl (trace s)
              = map (EvCrawl name) (take k (page_range 3000%Z)))).
  - intros s Hs.
    destruct (crawl_all_crawls true true None s) as (name & k & E).
    unfold J in Hs. rewrite Hs in E.
    change (default 3000%Z None) with 3000%Z in E. rewrite app_nil_l in E.
    destruct (crawl_all_configured_accounts true true None s) as [[r|e] s'];
      cbn [snd] in E; exists name, k; exact E.
  - intros _ s Hs.
    destruct (close_playwright_run pw_browser_close pw_stop s)
      as (o & w & -> & _).
    by destruct o.
Qed.
End MainProofs.

(** [main], however it ends. The table it leaves is the table the store
    opened, row for row, followed by new rows whose keys are all different
    and were held by no row (or it is empty, when the constructor failed
    before the store was opened). And all its crawls are crawls of one
    account, on pages 67, 68 and so on in this order. *)
Theorem main_spec `{Env}
    (logging_setup anti_crawler_create : World → res unit * World)
    (storage_open : World → res (list row) * World)
    (fs_cookie_read : World → res (list cookie) * World)
    (pw_browser_close pw_stop : World → res unit * World) (w : World) :
  (db (main logging_setup anti_crawler_create storage_open fs_cookie_read
         pw_browser_close pw_stop w).2 = []
   ∨ ∃ w0 table,
       (storage_open w0).1 = Ok table
       ∧ extends table
           (db (main logging_setup anti_crawler_create storage_open
                  fs_cookie_read pw_browser_close pw_stop w).2))
  ∧ ∃ name k,
      List.filter is_crawl
        (trace (main logging_setup anti_crawler_create storage_open
                  fs_cookie_read pw_browser_close pw_stop w).2)
      = map (EvCrawl name) (take k (page_range 3000%Z)).
Proof.
  unfold main. rewrite run_bind.
  destruct (init_run logging_setup anti_crawler_create storage_open
              fs_cookie_read None true w)
    as (o & s1 & -> & (Htr & _) & Hdb & Hret).
  destruct o as [[]|e]; cbn [snd].
  2:{ split.
      - destruct Hdb as [?|[w0 ?]]; [by left|right].
        exists w0, (db s1). split; [done|apply extends_refl].
      - apply first_pages_nil. by rewrite Htr. }
  destruct (Hret eq_refl) as (_ & _ & [w0 Hopen] & _). split.
  - right. exists w0, (db s1). split; [done|].
    pose proof (quiet_extends (db s1)) as HQ.
    apply (triple_state (λ s, extends (db s1) (db s))); [|apply extends_refl].
    apply (main_body_table pw_browser_close pw_stop
             (λ s, extends (db s1) (db s))); try done.
    intros s r. apply extends_row.
  - apply (triple_state (λ s, List.filter is_crawl (trace s) = [])
             _ (λ s, ∃ name k,
                  List.filter is_crawl (trace s)
                  = map (EvCrawl name) (take k (page_range 3000%Z))));
      [apply main_body_crawls|by rewrite Htr].
Qed.

Section StoredRowProofs.
Context `{Env}.

Lemma article_dict_row (a : WeChatArticle) (kw saved_at : str) :
  bound_values (article_dict a kw) saved_at
  = [VStr (title a); VStr (summary a); VStr (source a);
     VStr (publish_time a); VStr (address a); VStr (real_url a);
     VStr (content a); VStr saved_at; VStr kw].
Proof. reflexivity. Qed.

Lemma article_dict_key (a : WeChatArticle) (kw : str) s key :
  (_generate_object_key (article_dict a kw) s).1 = Ret key →
  ∃ date,
    key = date ++ [slash]
          ++ take 8 (md5_hexdigest (title a ++ publish_time a))
    ∧ ((10 ≤ length (publish_time a))%nat → date = take 10 (publish_time a)).
Proof.
  unfold _generate_object_key.
  replace (article_dict a kw !! "title"%string)
    with (Some (VStr (title a))) by reflexivity.
  replace (article_dict a kw !! "publish_time"%string)
    with (Some (VStr (publish_time a))) by reflexivity.
  run. cbn [default from_option id format_val].
  destruct (10 <=? length (publish_time a))%nat eqn:E; run.
  - intros [= <-]. by eexists.
  - intros [= <-]. eexists. split; [done|]. intros Hlen.
    apply Nat.leb_gt in E. lia.
Qed.
End StoredRowProofs.

(** The row of a record. For a record that exists, [save_article_to_storage]
    never raises and touches neither the record nor the session. It
    returns [True] exactly when it has appended one row to the table. The
    key of this row was held by no row; it is a date, a slash and the
    first eight characters of the MD5 of the title followed by the publish
    time, the date being the first ten characters of the publish time when
    it has ten. The row holds the title, summary, source, publish time,
    address, real link and content of the record, the time of the save
    and the keyword of the crawler; the search link, the crawl time and
    the two flags of the record are not stored. *)
Theorem save_article_to_storage_row `{Env} (l : nat) (a : WeChatArticle)
    (s : State) :
  heap s !! l = Some a →
  ∃ b s',
    save_article_to_storage l s = (Ret b, s')
    ∧ heap s' = heap s ∧ same_session s s'
    ∧ trace s' = trace s ++ [EvSave l a]
    ∧ if b
      then ∃ date saved_at,
             has_key (date ++ [slash]
                      ++ take 8 (md5_hexdigest (title a ++ publish_time a)))
               (db s) = false
             ∧ ((10 ≤ length (publish_time a))%nat
                → date = take 10 (publish_time a))
             ∧ db s'
               = db s
                 ++ [{| object_key :=
                          date ++ [slash]
                          ++ take 8 (md5_hexdigest (title a ++ publish_time a));
                        row_values :=
                          [VStr (title a); VStr (summary a); VStr (source a);
                           VStr (publish_time a); VStr (address a);
                           VStr (real_url a); VStr (content a);
                           VStr saved_at; VStr (keyword s)] |}]
      else db s' = db s.
Proof.
  intros Hl. unfold save_article_to_storage. run. rewrite Hl. run.
  set (s1 := with_events [EvSave l a] s).
  destruct (save_article_shape (article_dict a (keyword s)) s1)
    as (b & w & d' & E & _).
  destruct (save_article_cases (article_dict a (keyword s)) s1)
    as (b' & s' & E' & Hb).
  rewrite E in E'. injection E' as <- <-. rewrite E. run.
  exists b, (with_db d' (with_world w s1)).
  split; [by destruct b|]. split; [done|]. split; [done|]. split; [done|].
  destruct b; [|exact Hb].
  destruct Hb as (key & saved_at & Hkey & Hout & Hdb).
  apply article_dict_key in Hkey as (date & -> & Hdate).
  exists date, saved_at. split; [exact Hout|]. split; [exact Hdate|].
  by rewrite <- article_dict_row.
Qed.

(** The save of the first record of scenario D. *)
Lemma save_article_to_storage_row_example :
  ∃ b s',
    save_article_to_storage 0 three_resolved = (Ret b, s')
    ∧ heap s' = heap three_resolved ∧ same_session three_resolved s'
    ∧ trace s' = trace three_resolved ++ [EvSave 0 (resolved_article 97)]
    ∧ if b
      then ∃ date saved_at,
             has_key (date ++ [slash]
                      ++ take 8 (md5_hexdigest (Env:=scenario_env one_live_link)
                                   (title (resolved_article 97)
                                    ++ publish_time (resolved_article 97))))
               (db three_resolved) = false
             ∧ ((10 ≤ length (publish_time (resolved_article 97)))%nat
                → date = take 10 (publish_time (resolved_article 97)))
             ∧ db s'
               = db three_resolved
                 ++ [{| object_key :=
                          date ++ [slash]
                          ++ take 8 (md5_hexdigest (Env:=scenario_env one_live_link)
                                       (title (resolved_article 97)
                                        ++ publish_time (resolved_article 97)));
                        row_values :=
                          [VStr (title (resolved_article 97));
                           VStr (summary (resolved_article 97));
                           VStr (source (resolved_article 97));
                           VStr (publish_time (resolved_article 97));
                           VStr (address (resolved_article 97));
                           VStr (real_url (resolved_article 97));
                           VStr (content (resolved_article 97));
                           VStr saved_at; VStr (keyword three_resolved)] |}]
      else db s' = db three_resolved.
Proof.
  apply (save_article_to_storage_row 0 (resolved_article 97) three_resolved).
  reflexivity.
Defined.
